(** * The [consistent-unwrap] lint rule: scope tracking and reconciliation

    Shallow embedding of
    [packages/eslint-plugin/src/rules/consistent-unwrap.ts].

    The rule is a set of visitor callbacks ([onWrapCall], [onUnwrapCall],
    [enterFunction], [exitFunction]) sharing one mutable variable,
    [wrappedScope], and a reporting channel, [context.report].  Both are
    threaded explicitly through a [State] record.  The host's depth-first
    walk over the syntax tree is [traverse]. *)

From Stdlib Require Import String List Bool Arith Lia Permutation.
Import ListNotations.
Local Open Scope string_scope.
Local Open Scope list_scope.

(* ===================================================================== *)
(** ** Syntax trees *)
(* ===================================================================== *)

Scheme All for list.

(** The operand of a [typeof] type query, or the name of a type reference. *)
Inductive EntityName : Type :=
| EntityIdentifier (name : string)
| TSQualifiedName (left : EntityName) (right : string).

(** Type nodes that may occur in a type-parameter instantiation. *)
Inductive TSType : Type :=
| TSTypeQuery (exprName : EntityName)
| TSUnionType (types : list TSType)
| TSTypeReference (typeName : EntityName)
| TSKeyword (keyword : string).

(** Expression nodes.  [OtherNode] stands for every node kind the rule has
    no callback for and never inspects (statements, blocks, operators ...);
    the walk only descends through it. *)
Inductive Node : Type :=
| Identifier (name : string)
| Literal (raw : string)
| CallExpression (callee : Node) (typeParameters : option (list TSType))
                 (arguments : list Node)
| AwaitExpression (argument : Node)
| MemberExpression (object property : Node)
| FunctionExpression (async : bool) (params : list Node) (body : Node)
| ArrowFunctionExpression (async : bool) (params : list Node) (body : Node)
| OtherNode (children : list Node).

(** *** Node identity

    The source compares nodes by object identity ([wrappedScope.fn !== fn])
    and hands nodes to [context.report] as anchors.  A node is identified
    here by its position in the tree: the sequence of child selectors that
    leads to it from the root. *)
Inductive Step : Type :=
| callee_ | typeParameters_ | arguments_ (i : nat) | argument_
| object_ | property_ | params_ (i : nat) | body_ | children_ (i : nat)
| types_ (i : nat).

Definition NodeRef : Type := list Step.

Definition Step_eqb (a b : Step) : bool :=
  match a, b with
  | callee_, callee_ | typeParameters_, typeParameters_
  | argument_, argument_ | object_, object_ | property_, property_
  | body_, body_ => true
  | arguments_ i, arguments_ j | params_ i, params_ j
  | children_ i, children_ j | types_ i, types_ j => Nat.eqb i j
  | _, _ => false
  end.

Fixpoint NodeRef_eqb (a b : NodeRef) : bool :=
  match a, b with
  | [], [] => true
  | x :: a', y :: b' => Step_eqb x y && NodeRef_eqb a' b'
  | _, _ => false
  end.

(* ===================================================================== *)
(** ** Insertion-ordered maps (the JavaScript [Map]) *)
(* ===================================================================== *)

Module JsMap.

(** Entries in insertion order; keys are kept distinct by [set]. *)
Definition t (V : Type) : Type := list (string * V).

Definition empty {V} : t V := [].

Fixpoint has {V} (k : string) (m : t V) : bool :=
  match m with
  | [] => false
  | (k', _) :: r => if String.eqb k k' then true else has k r
  end.

Fixpoint get {V} (k : string) (m : t V) : option V :=
  match m with
  | [] => None
  | (k', v) :: r => if String.eqb k k' then Some v else get k r
  end.

(** [m.set(k, v)]: an existing key keeps its position and takes the new
    value; a new key is appended. *)
Fixpoint set {V} (k : string) (v : V) (m : t V) : t V :=
  match m with
  | [] => [(k, v)]
  | (k', v') :: r =>
      if String.eqb k k' then (k, v) :: r else (k', v') :: set k v r
  end.

Definition keys {V} (m : t V) : list string := map fst m.

(** [m.forEach((v, k) => ...)] threading an accumulator. *)
Definition forEach {V A} (f : A -> V -> string -> A) (m : t V) (a : A) : A :=
  fold_left (fun acc kv => f acc (snd kv) (fst kv)) m a.

End JsMap.

(* ===================================================================== *)
(** ** Diagnostics *)
(* ===================================================================== *)

Inductive MessageId : Type :=
| badWrap | badUnwrap | missingTypeParamInWrap | badUnwrapArg
| badWrapTypeArg | duplicatedWrapArg | unwrapNotInWrap
| wrappedFnNotUnwrapped.

Definition MessageId_eqb (a b : MessageId) : bool :=
  match a, b with
  | badWrap, badWrap | badUnwrap, badUnwrap
  | missingTypeParamInWrap, missingTypeParamInWrap
  | badUnwrapArg, badUnwrapArg | badWrapTypeArg, badWrapTypeArg
  | duplicatedWrapArg, duplicatedWrapArg
  | unwrapNotInWrap, unwrapNotInWrap
  | wrappedFnNotUnwrapped, wrappedFnNotUnwrapped => true
  | _, _ => false
  end.

(** [fixer.insertTextAfter(target, text)] or [fixer.replaceText(target, text)]. *)
Inductive FixKind : Type := after | replace.

Record Fix : Type := mkFix {
  fixKind : FixKind;
  fixTarget : NodeRef;
  fixText : string
}.

Record Report : Type := mkReport {
  messageId : MessageId;
  node : NodeRef;
  fix_ : option Fix
}.

(* ===================================================================== *)
(** ** Rule state *)
(* ===================================================================== *)

(** The type-parameter list of a call, with its own position. *)
Record TSTypeParameterInstantiation : Type := mkTypeParameters {
  tp_ref : NodeRef;
  tp_params : list TSType
}.

(** One open wrap construct.  The [upper] link of the source is the tail of
    the list that holds the scope (see [State]). *)
Record WrapScope : Type := mkScope {
  fn : NodeRef;
  callee : NodeRef;
  typeParameters : option TSTypeParameterInstantiation;
  inFn : bool;
  unwrappedFns : JsMap.t NodeRef;
  wrappedFns : JsMap.t NodeRef
}.

(** [wrappedScope] is the chain current scope :: upper :: upper.upper ...;
    [nil] is [null].  [reported] collects the [context.report] calls in
    the order they are made. *)
Record State : Type := mkState {
  wrappedScope : list WrapScope;
  reported : list Report
}.

Definition initial : State := mkState [] [].

Definition report (r : Report) (st : State) : State :=
  mkState (wrappedScope st) (reported st ++ [r]).

Record Options : Type := mkOptions {
  wrapName : string;
  unwrapName : string
}.

Definition defaultOptions : Options := mkOptions "wrap" "unwrap".

(* ===================================================================== *)
(** ** The visitor callbacks *)
(* ===================================================================== *)

Definition isFunctionLiteral (n : Node) : bool :=
  match n with
  | FunctionExpression _ _ _ | ArrowFunctionExpression _ _ _ => true
  | _ => false
  end.

Definition isAsync (n : Node) : bool :=
  match n with
  | FunctionExpression a _ _ | ArrowFunctionExpression a _ _ => a
  | _ => false
  end.

(** [onWrapCall(node)].  [here] is the position of [node], whose fields are
    [callee0], [typeParameters0]; [parent] is [node.parent] with its
    position.  The new scope is pushed in front of the current chain. *)
Definition onWrapCall (opts : Options) (here : NodeRef)
    (callee0 : Node) (typeParameters0 : option (list TSType))
    (parent : option (NodeRef * Node)) (st : State) : State :=
  match callee0 with
  | Identifier name =>
      if negb (String.eqb name (wrapName opts)) then st else
      match parent with
      | None => st
      | Some (parentRef, CallExpression _ _ parentArguments) =>
          match parentArguments with
          | [fn0] =>
              if negb (isFunctionLiteral fn0) then st else
              if negb (isAsync fn0) then st else
              mkState
                ({| fn := parentRef ++ [arguments_ 0];
                    inFn := false;
                    callee := here ++ [callee_];
                    typeParameters :=
                      option_map (mkTypeParameters (here ++ [typeParameters_]))
                                 typeParameters0;
                    unwrappedFns := JsMap.empty;
                    wrappedFns := JsMap.empty |} :: wrappedScope st)
                (reported st)
          | _ => st
          end
      | Some _ => st
      end
  | _ => st
  end.

(** [enterFunction(fn)] *)
Definition enterFunction (fn0 : NodeRef) (st : State) : State :=
  match wrappedScope st with
  | [] => st
  | scope :: upper =>
      if negb (NodeRef_eqb (fn scope) fn0) then st else
      mkState
        ({| fn := fn scope; callee := callee scope;
            typeParameters := typeParameters scope;
            inFn := true;
            unwrappedFns := unwrappedFns scope;
            wrappedFns := wrappedFns scope |} :: upper)
        (reported st)
  end.

(** The expression looked at by [onUnwrapCall]: [arg.argument] under one
    [await], else [arg] itself; with its position below the unwrap call. *)
Definition callExprOf (here : NodeRef) (arg : Node) : NodeRef * Node :=
  match arg with
  | AwaitExpression argument => (here ++ [arguments_ 0; argument_], argument)
  | _ => (here ++ [arguments_ 0], arg)
  end.

(** [onUnwrapCall(node)] *)
Definition onUnwrapCall (opts : Options) (here : NodeRef)
    (callee0 : Node) (arguments0 : list Node) (st : State) : State :=
  match wrappedScope st with
  | [] => st
  | scope :: upper =>
      if negb (inFn scope) then st else
      match callee0 with
      | Identifier name =>
          if negb (String.eqb name (unwrapName opts)) then st else
          match arguments0 with
          | [arg] =>
              let (callExprRef, callExpr) := callExprOf here arg in
              match callExpr with
              | CallExpression (Identifier calleeName) _ _ =>
                  mkState
                    ({| fn := fn scope; callee := callee scope;
                        typeParameters := typeParameters scope;
                        inFn := inFn scope;
                        unwrappedFns :=
                          JsMap.set calleeName callExprRef (unwrappedFns scope);
                        wrappedFns := wrappedFns scope |} :: upper)
                    (reported st)
              | _ => report (mkReport badUnwrapArg here None) st
              end
          | _ => st
          end
      | _ => st
      end
  end.

(** *** Reconciliation at function exit *)

(** The text [`<${fixed}>`] of the fix. *)
Definition fixedText (names : list string) : string :=
  ("<" ++ String.concat " | " (map (String.append "typeof ") names) ++ ">")%string.

(** Local variables of [exitFunction] that its three loops update. *)
Record Reconciliation : Type := mkRecon {
  needFix : bool;
  declared : JsMap.t NodeRef;   (* the scope's [wrappedFns] *)
  emitted : list Report
}.

Definition flag (m : MessageId) (anchor : NodeRef) (r : Reconciliation)
  : Reconciliation :=
  mkRecon true (declared r) (emitted r ++ [mkReport m anchor None]).

(** [types]: the members of a union, or the parameter alone. *)
Definition members (param : TSType) : list TSType :=
  match param with
  | TSUnionType types => types
  | _ => [param]
  end.

(** Position of member [i] below the type-parameter list at [tp]. *)
Definition memberRef (tp : NodeRef) (param : TSType) (i : nat) : NodeRef :=
  match param with
  | TSUnionType _ => tp ++ [params_ 0; types_ i]
  | _ => tp ++ [params_ 0]
  end.

Definition typesOf (tp : NodeRef) (param : TSType) : list (NodeRef * TSType) :=
  combine (map (memberRef tp param) (seq 0 (length (members param))))
          (members param).

(** Body of [types.forEach((tnode) => ...)]. *)
Definition checkType (r : Reconciliation) (member : NodeRef * TSType)
  : Reconciliation :=
  let (tref, tnode) := member in
  match tnode with
  | TSTypeQuery (EntityIdentifier name) =>
      if JsMap.has name (declared r)
      then flag duplicatedWrapArg tref r
      else mkRecon (needFix r) (JsMap.set name tref (declared r)) (emitted r)
  | _ => flag badWrapTypeArg tref r
  end.

(** The first [if]/[else] of [exitFunction]. *)
Definition checkTypeParameters (scope : WrapScope) (r : Reconciliation)
  : Reconciliation :=
  match typeParameters scope with
  | Some (mkTypeParameters tp [param]) =>
      fold_left checkType (typesOf tp param) r
  | _ => flag missingTypeParamInWrap (callee scope) r
  end.

(** [unwrappedFns.forEach(...)] *)
Definition checkUnwrapped (scope : WrapScope) (r : Reconciliation)
  : Reconciliation :=
  JsMap.forEach
    (fun acc anchor fnName =>
       if negb (JsMap.has fnName (declared acc))
       then flag unwrapNotInWrap anchor acc else acc)
    (unwrappedFns scope) r.

(** [wrappedFns.forEach(...)] *)
Definition checkWrapped (scope : WrapScope) (r : Reconciliation)
  : Reconciliation :=
  JsMap.forEach
    (fun acc anchor fnName =>
       if negb (JsMap.has fnName (unwrappedFns scope))
       then flag wrappedFnNotUnwrapped anchor acc else acc)
    (declared r) r.

Definition fixStrategy (scope : WrapScope) : FixKind * NodeRef :=
  match typeParameters scope with
  | None => (after, callee scope)
  | Some tp => (replace, tp_ref tp)
  end.

(** The fix closure of the [badWrap] report. *)
Definition synthesizeFix (scope : WrapScope) : Fix :=
  let fixed := fixedText (JsMap.keys (unwrappedFns scope)) in
  mkFix (fst (fixStrategy scope)) (snd (fixStrategy scope)) fixed.

(** Everything [exitFunction] reports for the scope it closes. *)
Definition reconcile (scope : WrapScope) : list Report :=
  let r := mkRecon false (wrappedFns scope) [] in
  let r := checkTypeParameters scope r in
  let r := checkUnwrapped scope r in
  let r := checkWrapped scope r in
  if needFix r
  then emitted r ++ [mkReport badWrap (callee scope) (Some (synthesizeFix scope))]
  else emitted r.

(** [exitFunction(fn)] *)
Definition exitFunction (fn0 : NodeRef) (st : State) : State :=
  match wrappedScope st with
  | [] => st
  | scope :: upper =>
      if negb (NodeRef_eqb (fn scope) fn0) then st else
      mkState upper (reported st ++ reconcile scope)
  end.

(* ===================================================================== *)
(** ** The host's walk *)
(* ===================================================================== *)

(** Visit the elements of a child list in order; element [i] sits at
    position [at_ i]. *)
Definition visitEach (visit : NodeRef -> Node -> State -> State)
    (at_ : nat -> NodeRef) : nat -> list Node -> State -> State :=
  fix go (i : nat) (l : list Node) (st : State) : State :=
    match l with
    | [] => st
    | c :: r => go (S i) r (visit (at_ i) c st)
    end.

(** Depth-first walk calling the rule's listeners:
    [CallExpression] runs [onWrapCall] then [onUnwrapCall] on entry;
    function literals run [enterFunction] on entry and [exitFunction] on
    exit.  Children are visited in visitor-key order. *)
Fixpoint traverse (opts : Options) (parent : option (NodeRef * Node))
    (here : NodeRef) (n : Node) (st : State) {struct n} : State :=
  let me := Some (here, n) in
  match n with
  | Identifier _ | Literal _ => st
  | CallExpression c tps args =>
      let st := onWrapCall opts here c tps parent st in
      let st := onUnwrapCall opts here c args st in
      let st := traverse opts me (here ++ [callee_]) c st in
      visitEach (traverse opts me) (fun i => here ++ [arguments_ i]) 0 args st
  | AwaitExpression a => traverse opts me (here ++ [argument_]) a st
  | MemberExpression o p =>
      let st := traverse opts me (here ++ [object_]) o st in
      traverse opts me (here ++ [property_]) p st
  | FunctionExpression _ ps b | ArrowFunctionExpression _ ps b =>
      let st := enterFunction here st in
      let st :=
        visitEach (traverse opts me) (fun i => here ++ [params_ i]) 0 ps st in
      let st := traverse opts me (here ++ [body_]) b st in
      exitFunction here st
  | OtherNode cs =>
      visitEach (traverse opts me) (fun i => here ++ [children_ i]) 0 cs st
  end.

(** Linting a whole program. *)
Definition lint (opts : Options) (program : Node) : list Report :=
  reported (traverse opts None [] program initial).

(* ===================================================================== *)
(** ** Vocabulary for the statements *)
(* ===================================================================== *)

(** A well-formed declared member: [typeof name]. *)
Definition typeofId (name : string) : TSType :=
  TSTypeQuery (EntityIdentifier name).

Definition nonEmpty {A} (l : list A) : bool :=
  match l with [] => false | _ => true end.

Definition anchored (m : MessageId) (kv : string * NodeRef) : Report :=
  mkReport m (snd kv) None.

(** Entries of [m] whose key is missing from [other]. *)
Definition missingFrom {V W} (other : JsMap.t W) (m : JsMap.t V) : JsMap.t V :=
  filter (fun kv => negb (JsMap.has (fst kv) other)) m.

(** The shape [onUnwrapCall] accepts: a call whose callee is a bare
    identifier. *)
Definition isNamedCall (n : Node) : bool :=
  match n with
  | CallExpression (Identifier _) _ _ => true
  | _ => false
  end.

(** How many reports of a list carry message [m]. *)
Definition countOf (m : MessageId) (l : list Report) : nat :=
  length (filter (fun r => MessageId_eqb (messageId r) m) l).

(** The [CallExpression] listener: [onWrapCall(node); onUnwrapCall(node)]. *)
Definition visitCallExpression (opts : Options) (here : NodeRef)
    (callee0 : Node) (typeParameters0 : option (list TSType))
    (arguments0 : list Node) (parent : option (NodeRef * Node))
    (st : State) : State :=
  onUnwrapCall opts here callee0 arguments0
    (onWrapCall opts here callee0 typeParameters0 parent st).

(** An unwrap call at [fst site] with the single argument [snd site]. *)
Definition unwrapCallAt (opts : Options) (st : State) (site : NodeRef * Node)
  : State :=
  onUnwrapCall opts (fst site) (Identifier (unwrapName opts)) [snd site] st.


(** The type-parameter list that the text of a fix denotes: nothing for no
    name, one type query for one name, one union of type queries else. *)
Definition fixedTypeParameters (names : list string) : list TSType :=
  match names with
  | [] => []
  | [name] => [typeofId name]
  | _ => [TSUnionType (map typeofId names)]
  end.





(** An unwrap call site whose argument is of the wrong shape, and the
    report it gets. *)
Definition isBadSite (site : NodeRef * Node) : bool :=
  negb (isNamedCall (snd (callExprOf (fst site) (snd site)))).

Definition badUnwrapArgAt (site : NodeRef * Node) : Report :=
  mkReport badUnwrapArg (fst site) None.

(** *** Positions and the scope chain during a walk *)

(** [r] lies strictly inside the subtree rooted at [here]. *)
Definition strictlyBelow (here r : NodeRef) : Prop :=
  exists x rest, r = here ++ x :: rest.

(** No open scope belongs to a function strictly inside the subtree at
    [here]: the walk has not been there yet. *)
Definition clear (here : NodeRef) (chain : list WrapScope) : Prop :=
  forall s, In s chain -> ~ strictlyBelow here (fn s).

(** [here] is a child position of the parent the host passes along. *)
Definition childOf (parent : option (NodeRef * Node)) (here : NodeRef) : Prop :=
  match parent with
  | None => True
  | Some (parentRef, _) => exists x, here = parentRef ++ [x]
  end.

(** The wrap-open predicate of [onWrapCall], on a node and its parent. *)
Definition opensWrap (opts : Options) (n : Node)
    (parent : option (NodeRef * Node)) : bool :=
  match n, parent with
  | CallExpression (Identifier name) _ _,
    Some (_, CallExpression _ _ [fn0]) =>
      String.eqb name (wrapName opts) && isFunctionLiteral fn0 && isAsync fn0
  | _, _ => false
  end.

(** The scope [onWrapCall] creates for the call at [here] whose parent
    call sits at [parentRef]. *)
Definition openedScope (here : NodeRef) (typeParameters0 : option (list TSType))
    (parentRef : NodeRef) : WrapScope :=
  {| fn := parentRef ++ [arguments_ 0];
     callee := here ++ [callee_];
     typeParameters :=
       option_map (mkTypeParameters (here ++ [typeParameters_])) typeParameters0;
     inFn := false;
     unwrappedFns := JsMap.empty;
     wrappedFns := JsMap.empty |}.

Definition typeParametersOf (n : Node) : option (list TSType) :=
  match n with
  | CallExpression _ tps _ => tps
  | _ => None
  end.

Definition parentRefOf (parent : option (NodeRef * Node)) : NodeRef :=
  match parent with
  | Some (parentRef, _) => parentRef
  | None => []
  end.

(** The current scope is the one opened for the function at [here]. *)
Definition topIs (here : NodeRef) (chain : list WrapScope) : bool :=
  match chain with
  | s :: _ => NodeRef_eqb (fn s) here
  | [] => false
  end.

(** [s'] is [s] except possibly for more recorded unwrap calls, which
    needs [s] to be entered. *)
Definition sameButUnwrapped (s s' : WrapScope) : Prop :=
  fn s' = fn s /\ callee s' = callee s
  /\ typeParameters s' = typeParameters s /\ inFn s' = inFn s
  /\ wrappedFns s' = wrappedFns s
  /\ (inFn s = false -> unwrappedFns s' = unwrappedFns s)
  /\ (NoDup (JsMap.keys (unwrappedFns s)) ->
      NoDup (JsMap.keys (unwrappedFns s'))).

(** The chain has the same scopes; only the current one may have recorded
    unwrap calls. *)
Definition frame (chain chain' : list WrapScope) : Prop :=
  match chain, chain' with
  | [], [] => True
  | s :: upper, s' :: upper' => upper' = upper /\ sameButUnwrapped s s'
  | _, _ => False
  end.

(** A recognised wrap construct: [wrapName<tps>(args0)<ptps>(fnLit)]. *)
Definition wrapConstruct (opts : Options) (tps : option (list TSType))
    (args0 : list Node) (ptps : option (list TSType)) (fnLit : Node) : Node :=
  CallExpression (CallExpression (Identifier (wrapName opts)) tps args0)
                 ptps [fnLit].


(** The scope after [enterFunction] has matched it. *)
Definition entered (s : WrapScope) : WrapScope :=
  {| fn := fn s; callee := callee s; typeParameters := typeParameters s;
     inFn := true;
     unwrappedFns := unwrappedFns s; wrappedFns := wrappedFns s |}.

(** How walking the subtree [n] at [here] may change the scope chain:
    a wrap callee pushes its scope; the function literal the current scope
    was opened for pops it; anything else leaves the chain in place. *)
Definition chainAfter (opts : Options) (n : Node)
    (parent : option (NodeRef * Node)) (here : NodeRef)
    (chain chain' : list WrapScope) : Prop :=
  if opensWrap opts n parent
  then chain' = openedScope here (typeParametersOf n) (parentRefOf parent) :: chain
  else if isFunctionLiteral n && topIs here chain
       then chain' = tl chain
       else frame chain chain'.

Definition walksWell (opts : Options) (n : Node) : Prop :=
  forall parent here st,
    childOf parent here ->
    clear here (wrappedScope st) ->
    chainAfter opts n parent here (wrappedScope st)
               (wrappedScope (traverse opts parent here n st)).


(** *** Changing the type-parameter list of one construct *)

(** [r] lies in the subtree rooted at [here] ([here] included). *)
Definition within (here r : NodeRef) : Prop := exists rest, r = here ++ rest.

(** The scope of the construct whose wrap identifier sits at [c0], with
    the type-parameter list [tp] instead of its own. *)
Definition retype (c0 : NodeRef) (tp : option TSTypeParameterInstantiation)
    (s : WrapScope) : WrapScope :=
  if NodeRef_eqb (callee s) c0
  then mkScope (fn s) (callee s) tp (inFn s) (unwrappedFns s) (wrappedFns s)
  else s.

Definition retypeState (c0 : NodeRef) (tp : option TSTypeParameterInstantiation)
    (st : State) : State :=
  mkState (map (retype c0 tp) (wrappedScope st)) (reported st).

(** Functions of the open scopes that belong to the construct at [c0]. *)
Definition fnsOf (c0 : NodeRef) (chain : list WrapScope) : list NodeRef :=
  map fn (filter (fun s => NodeRef_eqb (callee s) c0) chain).

(** The scopes of the construct at [c0] are not closed inside [here]. *)
Definition apart (c0 here : NodeRef) (chain : list WrapScope) : Prop :=
  forall r, In r (fnsOf c0 chain) -> ~ within here r.

(** Walking [n] away from the construct at [c0] does not look at that
    construct's type-parameter list. *)
Definition commutes (opts : Options) (c0 : NodeRef)
    (tp : option TSTypeParameterInstantiation) (n : Node) : Prop :=
  forall parent here st,
    ~ within here c0 ->
    apart c0 here (wrappedScope st) ->
    traverse opts parent here n (retypeState c0 tp st)
    = retypeState c0 tp (traverse opts parent here n st)
    /\ incl (fnsOf c0 (wrappedScope (traverse opts parent here n st)))
            (fnsOf c0 (wrappedScope st)).


(** The scope of the wrap construct at [here] as its function exits, having
    recorded the unwrap calls [recorded]. *)
Definition closingScope (here : NodeRef) (tps : option (list TSType))
    (recorded : JsMap.t NodeRef) : WrapScope :=
  {| fn := here ++ [arguments_ 0];
     callee := (here ++ [callee_]) ++ [callee_];
     typeParameters :=
       option_map (mkTypeParameters ((here ++ [callee_]) ++ [typeParameters_])) tps;
     inFn := true;
     unwrappedFns := recorded;
     wrappedFns := JsMap.empty |}.

(** *** Applying a fix to the tree

    Both [insertTextAfter(callee, text)] and [replaceText(typeParameters,
    text)] leave the call that owns the target with the type-parameter
    list the text denotes. *)
Fixpoint updateAt {A} (i : nat) (f : A -> A) (l : list A) : list A :=
  match l, i with
  | [], _ => []
  | x :: r, 0 => f x :: r
  | x :: r, S j => x :: updateAt j f r
  end.

Fixpoint editAt (path : NodeRef) (f : Node -> Node) (n : Node) : Node :=
  match path with
  | [] => f n
  | x :: rest =>
      match x, n with
      | callee_, CallExpression c tps args =>
          CallExpression (editAt rest f c) tps args
      | arguments_ i, CallExpression c tps args =>
          CallExpression c tps (updateAt i (editAt rest f) args)
      | argument_, AwaitExpression a => AwaitExpression (editAt rest f a)
      | object_, MemberExpression o p => MemberExpression (editAt rest f o) p
      | property_, MemberExpression o p => MemberExpression o (editAt rest f p)
      | params_ i, FunctionExpression a ps b =>
          FunctionExpression a (updateAt i (editAt rest f) ps) b
      | body_, FunctionExpression a ps b =>
          FunctionExpression a ps (editAt rest f b)
      | params_ i, ArrowFunctionExpression a ps b =>
          ArrowFunctionExpression a (updateAt i (editAt rest f) ps) b
      | body_, ArrowFunctionExpression a ps b =>
          ArrowFunctionExpression a ps (editAt rest f b)
      | children_ i, OtherNode cs => OtherNode (updateAt i (editAt rest f) cs)
      | _, _ => n
      end
  end.

Definition setTypeParameters (parsed : list TSType) (n : Node) : Node :=
  match n with
  | CallExpression c _ args => CallExpression c (Some parsed) args
  | _ => n
  end.


(** Reports are only ever added. *)
Definition extends (st st' : State) : Prop :=
  exists more, reported st' = reported st ++ more.


(** *** The walk seen node by node *)

(** The children of a list field, with their selectors. *)
Fixpoint indexed (mk : nat -> Step) (i : nat) (l : list Node)
  : list (Step * Node) :=
  match l with
  | [] => []
  | c :: r => (mk i, c) :: indexed mk (S i) r
  end.

(** The children of a node in the order the walk visits them. *)
Definition kids (n : Node) : list (Step * Node) :=
  match n with
  | Identifier _ | Literal _ => []
  | CallExpression c _ args => (callee_, c) :: indexed arguments_ 0 args
  | AwaitExpression a => [(argument_, a)]
  | MemberExpression o p => [(object_, o); (property_, p)]
  | FunctionExpression _ ps b | ArrowFunctionExpression _ ps b =>
      indexed params_ 0 ps ++ [(body_, b)]
  | OtherNode cs => indexed children_ 0 cs
  end.

(** The listeners run on entering a node, and on leaving it. *)
Definition arrive (opts : Options) (parent : option (NodeRef * Node))
    (here : NodeRef) (n : Node) (st : State) : State :=
  match n with
  | CallExpression c tps args =>
      onUnwrapCall opts here c args (onWrapCall opts here c tps parent st)
  | FunctionExpression _ _ _ | ArrowFunctionExpression _ _ _ =>
      enterFunction here st
  | _ => st
  end.

Definition leave (here : NodeRef) (n : Node) (st : State) : State :=
  match n with
  | FunctionExpression _ _ _ | ArrowFunctionExpression _ _ _ =>
      exitFunction here st
  | _ => st
  end.

Definition walkKids (opts : Options) (me : option (NodeRef * Node))
    (here : NodeRef) (ks : list (Step * Node)) (st : State) : State :=
  fold_left (fun s k => traverse opts me (here ++ [fst k]) (snd k) s) ks st.

(** The child of [n] under selector [x], and the subtree at a path. *)
Definition childAt (x : Step) (n : Node) : option Node :=
  match x, n with
  | callee_, CallExpression c _ _ => Some c
  | arguments_ i, CallExpression _ _ args => nth_error args i
  | argument_, AwaitExpression a => Some a
  | object_, MemberExpression o _ => Some o
  | property_, MemberExpression _ p => Some p
  | params_ i, FunctionExpression _ ps _ => nth_error ps i
  | body_, FunctionExpression _ _ b => Some b
  | params_ i, ArrowFunctionExpression _ ps _ => nth_error ps i
  | body_, ArrowFunctionExpression _ _ b => Some b
  | children_ i, OtherNode cs => nth_error cs i
  | _, _ => None
  end.

Fixpoint subtreeAt (path : NodeRef) (n : Node) : option Node :=
  match path with
  | [] => Some n
  | x :: rest =>
      match childAt x n with
      | Some c => subtreeAt rest c
      | None => None
      end
  end.

(** What [onWrapCall] asks of the parent: a call on one asynchronous
    function literal. *)
Definition wrapShape (m : Node) : bool :=
  match m with
  | CallExpression _ _ [fn0] => isFunctionLiteral fn0 && isAsync fn0
  | _ => false
  end.

(** Parents the listeners cannot tell apart. *)
Definition alike (p p' : option (NodeRef * Node)) : Prop :=
  match p, p' with
  | None, None => True
  | Some (r, m), Some (r', m') => r = r' /\ wrapShape m = wrapShape m'
  | _, _ => False
  end.

(** What the listeners can see of a callee, and of an unwrap argument. *)
Definition calleeName (n : Node) : option string :=
  match n with
  | Identifier name => Some name
  | _ => None
  end.

Definition namedCallee (n : Node) : option string :=
  match n with
  | CallExpression c _ _ => calleeName c
  | _ => None
  end.

Definition seenArgument (arg : Node) : bool * option string :=
  match arg with
  | AwaitExpression a => (true, namedCallee a)
  | _ => (false, namedCallee arg)
  end.

Definition seenArguments (args : list Node) : option (bool * option string) :=
  match args with
  | [arg] => Some (seenArgument arg)
  | _ => None
  end.

(** Reports put in front of those of a state. *)
Definition prepend (front : list Report) (st : State) : State :=
  mkState (wrappedScope st) (front ++ reported st).

(** A scope that the walk of the subtree at [h] cannot confuse with one of
    its own: its function is not strictly inside, its wrap identifier not
    inside. *)
Definition foreign (h : NodeRef) (s : WrapScope) : Prop :=
  ~ strictlyBelow h (fn s) /\ ~ within h (callee s).

(** [onUnwrapCall] in terms of what it can see of the call. *)
Definition onUnwrapSeen (opts : Options) (here : NodeRef)
    (calleeSeen : option string) (argsSeen : option (bool * option string))
    (st : State) : State :=
  match wrappedScope st with
  | [] => st
  | scope :: upper =>
      if negb (inFn scope) then st else
      match calleeSeen with
      | Some name =>
          if negb (String.eqb name (unwrapName opts)) then st else
          match argsSeen with
          | Some (awaited, Some calleeName0) =>
              mkState
                (mkScope (fn scope) (callee scope) (typeParameters scope)
                   (inFn scope)
                   (JsMap.set calleeName0
                      (here ++ (if awaited then [arguments_ 0; argument_]
                                else [arguments_ 0]))
                      (unwrappedFns scope))
                   (wrappedFns scope) :: upper)
                (reported st)
          | Some (_, None) => report (mkReport badUnwrapArg here None) st
          | None => st
          end
      | None => st
      end
  end.

(** All that the listeners of the nodes around [n] can see of [n]. *)
Definition seen (n : Node)
  : option string * option string * (bool * option string) * bool :=
  (calleeName n, namedCallee n, seenArgument n,
   isFunctionLiteral n && isAsync n).

(** The scopes that can be open while the children of [n] are walked:
    those that were open on entry, the one [n] opened itself, and the one
    its callee opened. *)
Definition mine (opts : Options) (parent : option (NodeRef * Node))
    (here : NodeRef) (n : Node) (walked : list (Step * Node))
    (s : WrapScope) : Prop :=
  foreign here s
  \/ (opensWrap opts n parent = true
      /\ fn s = parentRefOf parent ++ [arguments_ 0]
      /\ callee s = here ++ [callee_])
  \/ (In callee_ (map fst walked)
      /\ fn s = here ++ [arguments_ 0]
      /\ callee s = (here ++ [callee_]) ++ [callee_]).

(** Two chains with the same scopes as far as positions go. *)
Definition sameRefs (chain chain' : list WrapScope) : Prop :=
  Forall2 (fun s s' => fn s' = fn s /\ callee s' = callee s) chain chain'.

(** *** Sample programs *)

Module Samples.

(** [unwrap(f())] and [unwrap(await f())]. *)
Definition unwrapOf (f : string) : Node :=
  CallExpression (Identifier "unwrap") None [CallExpression (Identifier f) None []].

Definition unwrapAwait (f : string) : Node :=
  CallExpression (Identifier "unwrap") None
    [AwaitExpression (CallExpression (Identifier f) None [])].

(** [wrap<declared>()(async () => { body })]. *)
Definition wrapped (declared : option (list TSType)) (body : list Node) : Node :=
  wrapConstruct defaultOptions declared [] None
    (ArrowFunctionExpression true [] (OtherNode body)).

End Samples.

(** What holds of every scope on the chain during a walk: its declared map
    has not been filled yet (that happens at its exit, after which it is
    dropped), and no name is recorded twice. *)
Definition pristine (s : WrapScope) : Prop :=
  wrappedFns s = JsMap.empty /\ NoDup (JsMap.keys (unwrappedFns s)).

(** *** Vocabulary for reconciliation and for whole programs *)

(** The name a declared member contributes, when it has the shape
    [typeof identifier]. *)
Definition declaredName (t : TSType) : option string :=
  match t with
  | TSTypeQuery (EntityIdentifier name) => Some name
  | _ => None
  end.

Definition isDeclaredName (t : TSType) : bool :=
  match declaredName t with Some _ => true | None => false end.

(** The names of the well-formed members, in the order they are written. *)
Fixpoint declaredNames (l : list TSType) : list string :=
  match l with
  | [] => []
  | t :: r =>
      match declaredName t with
      | Some name => name :: declaredNames r
      | None => declaredNames r
      end
  end.

(** A report that carries no fix. *)
Definition plain (r : Report) : Prop := fix_ r = None.

(** The [badWrap] report of a scope. *)
Definition badWrapOf (scope : WrapScope) : Report :=
  mkReport badWrap (callee scope) (Some (synthesizeFix scope)).

(** A recognised wrap construct, seen from its outer call: the callee is a
    call of the wrap identifier, the only argument an asynchronous function
    literal. *)
Definition isConstruct (opts : Options) (n : Node) : bool :=
  match n with
  | CallExpression (CallExpression (Identifier name) _ _) _ [fn0] =>
      String.eqb name (wrapName opts) && isFunctionLiteral fn0 && isAsync fn0
  | _ => false
  end.

(** How many recognised wrap constructs a tree holds. *)
Fixpoint constructs (opts : Options) (n : Node) : nat :=
  (if isConstruct opts n then 1 else 0)
  + match n with
    | Identifier _ | Literal _ => 0
    | CallExpression c _ args =>
        constructs opts c + list_sum (map (constructs opts) args)
    | AwaitExpression a => constructs opts a
    | MemberExpression o p => constructs opts o + constructs opts p
    | FunctionExpression _ ps b | ArrowFunctionExpression _ ps b =>
        list_sum (map (constructs opts) ps) + constructs opts b
    | OtherNode cs => list_sum (map (constructs opts) cs)
    end.

(** The three diagnostics of the type-parameter check. *)
Definition typeParameterKind (m : MessageId) : bool :=
  match m with
  | missingTypeParamInWrap | badWrapTypeArg | duplicatedWrapArg => true
  | _ => false
  end.

Definition typeParameterReport (r : Report) : Prop :=
  plain r /\ typeParameterKind (messageId r) = true.

(** *** Where the walk is, relative to the whole program *)

(** The parent the host passes along is the node one step up. *)
Definition parentAt (program : Node) (parent : option (NodeRef * Node))
    (here : NodeRef) : Prop :=
  match parent with
  | None => True
  | Some (parentRef, p) =>
      subtreeAt parentRef program = Some p /\ exists x, here = parentRef ++ [x]
  end.

(** A call of the wrap identifier sits at [h], with type parameters [tps]. *)
Definition wrapCallAt (opts : Options) (program : Node) (h : NodeRef)
    (tps : option (list TSType)) : Prop :=
  exists args,
    subtreeAt h program
    = Some (CallExpression (Identifier (wrapName opts)) tps args).

(** The call [ref] is what an unwrap call of the program unwraps: its
    argument, or what its argument awaits; and it calls [name]. *)
Definition unwrappedAt (opts : Options) (program : Node) (name : string)
    (ref : NodeRef) : Prop :=
  exists u utps arg tps args,
    subtreeAt u program
    = Some (CallExpression (Identifier (unwrapName opts)) utps [arg])
    /\ callExprOf u arg = (ref, CallExpression (Identifier name) tps args)
    /\ subtreeAt ref program = Some (CallExpression (Identifier name) tps args).

(** The member of a single type parameter found under [rest]. *)
Definition memberAt (param : TSType) (rest : NodeRef) : option TSType :=
  match param, rest with
  | TSUnionType types, [types_ i] => nth_error types i
  | TSUnionType _, _ => None
  | _, [] => Some param
  | _, _ => None
  end.

(** The member [t] of the one type parameter of the wrap call at [h] sits
    at [ref]. *)
Definition declaredAt (opts : Options) (program : Node) (ref : NodeRef)
    (t : TSType) : Prop :=
  exists h param rest,
    wrapCallAt opts program h (Some [param])
    /\ ref = (h ++ [typeParameters_]) ++ params_ 0 :: rest
    /\ memberAt param rest = Some t.

(** What the walk keeps true of every open scope. *)
Definition locatedScope (opts : Options) (program : Node) (s : WrapScope)
  : Prop :=
  (exists h tps,
      callee s = h ++ [callee_]
      /\ wrapCallAt opts program h tps
      /\ typeParameters s
         = option_map (mkTypeParameters (h ++ [typeParameters_])) tps)
  /\ (forall k ref, In (k, ref) (unwrappedFns s) ->
                    unwrappedAt opts program k ref)
  /\ pristine s.

(** What the walk keeps true of every report, by message. *)
Definition placed (opts : Options) (program : Node) (r : Report) : Prop :=
  match messageId r with
  | badUnwrap => False
  | badUnwrapArg =>
      plain r
      /\ exists tps arg,
           subtreeAt (node r) program
           = Some (CallExpression (Identifier (unwrapName opts)) tps [arg])
           /\ isNamedCall (snd (callExprOf (node r) arg)) = false
  | unwrapNotInWrap =>
      plain r /\ exists name, unwrappedAt opts program name (node r)
  | missingTypeParamInWrap =>
      plain r
      /\ exists h tps,
           node r = h ++ [callee_]
           /\ wrapCallAt opts program h tps
           /\ forall param, tps <> Some [param]
  | badWrapTypeArg =>
      plain r
      /\ exists t, declaredAt opts program (node r) t
                   /\ isDeclaredName t = false
  | duplicatedWrapArg | wrappedFnNotUnwrapped =>
      plain r
      /\ exists name, declaredAt opts program (node r) (typeofId name)
  | badWrap =>
      exists h tps f names,
        node r = h ++ [callee_]
        /\ wrapCallAt opts program h tps
        /\ fix_ r = Some f
        /\ match tps with
           | None => fixKind f = after /\ fixTarget f = h ++ [callee_]
           | Some _ => fixKind f = replace
                       /\ fixTarget f = h ++ [typeParameters_]
           end
        /\ fixText f = fixedText names
        /\ NoDup names
        /\ forall name, In name names ->
                        exists ref, unwrappedAt opts program name ref
  end.

Module MoreSamples.
Import Samples.

(** [unwrap(5)]: the argument is not a call. *)
Definition unwrapLiteral : Node :=
  CallExpression (Identifier "unwrap") None [Literal "5"].

(** A construct with a repeated member, a member that is no [typeof], an
    undeclared unwrap call, and an unwrap call on a literal. *)
Definition untidy : Node :=
  wrapped
    (Some [TSUnionType [typeofId "f"; typeofId "f"; TSKeyword "string";
                        typeofId "g"]])
    [unwrapOf "h"; unwrapLiteral; unwrapAwait "f"].

(** A construct without type parameters. *)
Definition undeclared : Node := wrapped None [unwrapOf "f"].

(** The first wrapped function of the package's own tests
    ([typescript-typed-errors/tests/utils.spec.ts]):

    [wrap<typeof maybeManyErrors | typeof maybeError>()(async (n: number) => {
       const value1 = unwrap(await maybeManyErrors(n))
       expect(value1).toBe(n === 0)
       const value2 = unwrap(await maybeManyErrors(n + 1))
       const value3 = unwrap(await maybeError(true))
       expect(value3).not.toBeDefined()
       if (value1 === false) { return Err({ code: 'value1===false' }) }
       if (value2 === false) { return Err({ code: 'value2===false' }) }
       expect(value2).not.toBeDefined()
       return Ok(true)
     })]

    Declarations, statements, operators and object literals are
    [OtherNode]s over their sub-expressions. *)
Definition call (f : string) (args : list Node) : Node :=
  CallExpression (Identifier f) None args.

Definition method (object : Node) (name : string) (args : list Node) : Node :=
  CallExpression (MemberExpression object (Identifier name)) None args.

Definition const (name : string) (init : Node) : Node :=
  OtherNode [OtherNode [Identifier name; init]].

Definition returnErr (code : string) : Node :=
  OtherNode [call "Err" [OtherNode [OtherNode [Identifier "code"; Literal code]]]].

Definition ifFalse (name : string) (consequent : Node) : Node :=
  OtherNode [OtherNode [Identifier name; Literal "false"]; OtherNode [consequent]].

Definition wrappedFunction : Node :=
  wrapConstruct defaultOptions
    (Some [TSUnionType [typeofId "maybeManyErrors"; typeofId "maybeError"]])
    [] None
    (ArrowFunctionExpression true [Identifier "n"]
       (OtherNode
          [const "value1"
             (call "unwrap"
                [AwaitExpression (call "maybeManyErrors" [Identifier "n"])]);
           OtherNode
             [method (call "expect" [Identifier "value1"]) "toBe"
                     [OtherNode [Identifier "n"; Literal "0"]]];
           const "value2"
             (call "unwrap"
                [AwaitExpression
                   (call "maybeManyErrors"
                         [OtherNode [Identifier "n"; Literal "1"]])]);
           const "value3"
             (call "unwrap"
                [AwaitExpression (call "maybeError" [Literal "true"])]);
           OtherNode
             [method (MemberExpression (call "expect" [Identifier "value3"])
                                       (Identifier "not"))
                     "toBeDefined" []];
           ifFalse "value1" (returnErr "value1===false");
           ifFalse "value2" (returnErr "value2===false");
           OtherNode
             [method (MemberExpression (call "expect" [Identifier "value2"])
                                       (Identifier "not"))
                     "toBeDefined" []];
           OtherNode [call "Ok" [Literal "true"]]])).

End MoreSamples.

(** What the bound on [badWrap] counts in a state: the [badWrap] reports
    made, and the scopes still to close. *)
Definition pending (st : State) : nat :=
  countOf badWrap (reported st) + length (wrappedScope st).

Definition opening (opts : Options) (n : Node)
    (parent : option (NodeRef * Node)) : nat :=
  if opensWrap opts n parent then 1 else 0.

(** The name an unwrap call site records, if its argument has the shape
    [onUnwrapCall] accepts. *)
Definition siteName (site : NodeRef * Node) : option string :=
  namedCallee (snd (callExprOf (fst site) (snd site))).

(** The names recorded by the current scope. *)
Definition recordedNames (st : State) : list string :=
  match wrappedScope st with
  | s :: _ => JsMap.keys (unwrappedFns s)
  | [] => []
  end.

(* ===================================================================== *)
(** ** The rule on sample programs *)
(* ===================================================================== *)

Module SampleRuns.
Import Samples.

(** Declared and unwrapped names agree. *)
Example lint_consistent :
  lint defaultOptions
    (wrapped (Some [TSUnionType [typeofId "f"; typeofId "g"]])
             [unwrapAwait "g"; unwrapOf "f"])
  = [].
Proof. reflexivity. Qed.

(** A member declared twice is reported once, with the umbrella report;
    it is not also reported as not unwrapped. *)
Example lint_duplicate :
  lint defaultOptions
    (wrapped (Some [TSUnionType [typeofId "f"; typeofId "f"]]) [unwrapOf "f"])
  = [mkReport duplicatedWrapArg
       [callee_; typeParameters_; params_ 0; types_ 1] None;
     mkReport badWrap [callee_; callee_]
       (Some (mkFix replace [callee_; typeParameters_] "<typeof f>"))].
Proof. reflexivity. Qed.

(** A member that is not [typeof identifier]. *)
Example lint_bad_member :
  lint defaultOptions
    (wrapped (Some [TSTypeReference (EntityIdentifier "F")]) [unwrapOf "f"])
  = [mkReport badWrapTypeArg [callee_; typeParameters_; params_ 0] None;
     mkReport unwrapNotInWrap
       [arguments_ 0; body_; children_ 0; arguments_ 0] None;
     mkReport badWrap [callee_; callee_]
       (Some (mkFix replace [callee_; typeParameters_] "<typeof f>"))].
Proof. reflexivity. Qed.

(** A function that is not asynchronous does not make a wrap construct:
    nothing is opened, and the unwrap calls in it are ignored. *)
Example lint_not_async :
  lint defaultOptions
    (wrapConstruct defaultOptions None [] None
       (ArrowFunctionExpression false [] (OtherNode [unwrapOf "f"])))
  = [].
Proof. reflexivity. Qed.

(** An unwrap call among the arguments of the wrap call itself comes
    before the body is entered and is ignored. *)
Example lint_before_body :
  lint defaultOptions
    (wrapConstruct defaultOptions (Some [typeofId "f"])
       [CallExpression (Identifier "unwrap") None [Literal "5"]] None
       (ArrowFunctionExpression true [] (OtherNode [unwrapOf "f"])))
  = [].
Proof. reflexivity. Qed.

(** A nested construct keeps its names to itself. *)
Example lint_nested :
  lint defaultOptions
    (wrapped (Some [typeofId "f"])
       [unwrapOf "f"; wrapped (Some [typeofId "g"]) [unwrapOf "g"]; unwrapOf "f"])
  = [].
Proof. reflexivity. Qed.

End SampleRuns.

(* ===================================================================== *)
(** ** Basic facts *)
(* ===================================================================== *)

Lemma Step_eqb_eq (a b : Step) : Step_eqb a b = true <-> a = b.
Proof.
  destruct a, b; simpl; try (split; [discriminate | congruence]);
    try (split; reflexivity);
    rewrite Nat.eqb_eq; split; congruence.
Qed.

Lemma NodeRef_eqb_eq (a b : NodeRef) : NodeRef_eqb a b = true <-> a = b.
Proof.
  revert b; induction a as [|x a IH]; intros [|y b]; simpl;
    try (split; [discriminate | congruence]); try (split; reflexivity).
  rewrite andb_true_iff, Step_eqb_eq, IH. split.
  - intros [-> ->]; reflexivity.
  - intros H; inversion H; auto.
Qed.

Lemma NodeRef_eqb_refl (a : NodeRef) : NodeRef_eqb a a = true.
Proof. apply NodeRef_eqb_eq; reflexivity. Qed.

Lemma NodeRef_eqb_neq (a b : NodeRef) : NodeRef_eqb a b = false <-> a <> b.
Proof.
  rewrite <- NodeRef_eqb_eq. destruct (NodeRef_eqb a b); split; congruence.
Qed.

Module JsMapFacts.
Import JsMap.

Section WithValues.
Context {V : Type}.
Implicit Types (m : t V) (k : string) (v : V).

Lemma has_In k m : has k m = true <-> In k (keys m).
Proof.
  induction m as [|[k' v'] m IH]; simpl.
  - split; [discriminate | tauto].
  - destruct (String.eqb_spec k k') as [->|Hne].
    + split; auto.
    + rewrite IH. split; [auto | intros [E|H]; congruence].
Qed.

Lemma has_false_In k m : has k m = false <-> ~ In k (keys m).
Proof.
  rewrite <- has_In. destruct (has k m); split; congruence.
Qed.

(** A key that is absent is appended. *)
Lemma set_new k v m : has k m = false -> set k v m = m ++ [(k, v)].
Proof.
  induction m as [|[k' v'] m IH]; simpl; [reflexivity|].
  destruct (String.eqb k k'); [discriminate|].
  intros H; rewrite IH by assumption; reflexivity.
Qed.

(** A key that is present keeps its position. *)
Lemma keys_set_present k v m : has k m = true -> keys (set k v m) = keys m.
Proof.
  induction m as [|[k' v'] m IH]; simpl; [discriminate|].
  destruct (String.eqb_spec k k') as [->|Hne]; simpl; [reflexivity|].
  intros H; rewrite IH by assumption; reflexivity.
Qed.

Lemma keys_set k v m :
  keys (set k v m) = if has k m then keys m else keys m ++ [k].
Proof.
  destruct (has k m) eqn:E.
  - apply keys_set_present; assumption.
  - rewrite set_new by assumption. unfold keys. rewrite map_app. reflexivity.
Qed.

Lemma get_set_same k v m : get k (set k v m) = Some v.
Proof.
  induction m as [|[k' v'] m IH]; simpl.
  - rewrite String.eqb_refl; reflexivity.
  - destruct (String.eqb k k') eqn:E; simpl.
    + rewrite String.eqb_refl; reflexivity.
    + rewrite E; exact IH.
Qed.

Lemma get_set_other k k' v m : k' <> k -> get k' (set k v m) = get k' m.
Proof.
  intros Hne. induction m as [|[k0 v0] m IH]; simpl.
  - apply String.eqb_neq in Hne. rewrite Hne. reflexivity.
  - destruct (String.eqb_spec k k0) as [->|Hk]; simpl.
    + apply String.eqb_neq in Hne. rewrite Hne. reflexivity.
    + destruct (String.eqb k' k0); [reflexivity | exact IH].
Qed.

Lemma has_set k k' v m :
  has k' (set k v m) = (String.eqb k' k || has k' m)%bool.
Proof.
  induction m as [|[k0 v0] m IH]; simpl.
  - destruct (String.eqb k' k); reflexivity.
  - destruct (String.eqb_spec k k0) as [->|Hk]; simpl.
    + destruct (String.eqb k' k0); reflexivity.
    + rewrite IH. destruct (String.eqb_spec k' k0) as [->|Hk'].
      * rewrite orb_true_r; reflexivity.
      * reflexivity.
Qed.

(** [set] never creates a second entry for a key. *)
Lemma NoDup_keys_set k v m : NoDup (keys m) -> NoDup (keys (set k v m)).
Proof.
  intros H. rewrite keys_set. destruct (has k m) eqn:E; [assumption|].
  apply has_false_In in E.
  apply NoDup_app; [assumption | repeat constructor; simpl; tauto |].
  intros x Hx [<-|[]]. contradiction.
Qed.

End WithValues.
End JsMapFacts.

(* ===================================================================== *)
(** ** What the reconciliation loops compute *)
(* ===================================================================== *)

Section Loops.
Import JsMap JsMapFacts.

Lemma keys_combine {V} (names : list string) :
  forall vs : list V,
    length names = length vs -> keys (combine names vs) = names.
Proof.
  unfold keys. induction names as [|n ns IH]; intros [|x xs] Hl; simpl in *;
    try discriminate; try reflexivity.
  f_equal. apply IH. lia.
Qed.

Lemma missingFrom_nil {V W} (other : t W) (m : t V) :
  (forall k, In k (keys m) -> has k other = true) -> missingFrom other m = [].
Proof.
  induction m as [|[k v] m IH]; simpl; intros H; [reflexivity|].
  rewrite (H k) by auto. simpl. apply IH. intros; apply H; auto.
Qed.

Lemma missingFrom_empty {V W} (m : t V) : missingFrom (@empty W) m = m.
Proof.
  induction m as [|[k v] m IH]; simpl; [reflexivity|]. f_equal; exact IH.
Qed.

(** Well-formed, pairwise distinct, not yet declared members are all
    added to the declared map, and nothing is reported. *)
Lemma checkType_wellformed (names : list string) :
  forall (refs : list NodeRef) (r : Reconciliation),
    length refs = length names ->
    NoDup names ->
    (forall n, In n names -> has n (declared r) = false) ->
    fold_left checkType (combine refs (map typeofId names)) r
    = mkRecon (needFix r) (declared r ++ combine names refs) (emitted r).
Proof.
  induction names as [|n names IH]; intros [|x refs] r Hlen Hnd Hfresh;
    simpl in *; try discriminate.
  - rewrite app_nil_r. destruct r; reflexivity.
  - rewrite (Hfresh n) by auto. inversion Hnd as [|? ? Hn Hnd']; subst.
    rewrite IH; simpl.
    + rewrite set_new by (apply Hfresh; auto).
      rewrite <- app_assoc. reflexivity.
    + lia.
    + assumption.
    + intros k Hk. rewrite has_set. rewrite (Hfresh k) by auto.
      destruct (String.eqb_spec k n) as [->|]; [contradiction | reflexivity].
Qed.

Lemma checkUnwrapped_spec (scope : WrapScope) (r : Reconciliation) :
  checkUnwrapped scope r
  = let bad := missingFrom (declared r) (unwrappedFns scope) in
    mkRecon (needFix r || nonEmpty bad) (declared r)
            (emitted r ++ map (anchored unwrapNotInWrap) bad).
Proof.
  unfold checkUnwrapped, forEach. generalize (unwrappedFns scope) as m.
  intros m; revert r; induction m as [|[k v] m IH]; intros r; simpl.
  - rewrite orb_false_r, app_nil_r. destruct r; reflexivity.
  - rewrite IH. destruct (has k (declared r)); simpl; [reflexivity|].
    rewrite <- app_assoc, orb_true_r. reflexivity.
Qed.

Lemma sweepWrapped_spec (scope : WrapScope) (m : t NodeRef) :
  forall r : Reconciliation,
    forEach
      (fun acc anchor fnName =>
         if negb (has fnName (unwrappedFns scope))
         then flag wrappedFnNotUnwrapped anchor acc else acc) m r
    = let bad := missingFrom (unwrappedFns scope) m in
      mkRecon (needFix r || nonEmpty bad) (declared r)
              (emitted r ++ map (anchored wrappedFnNotUnwrapped) bad).
Proof.
  unfold forEach. induction m as [|[k v] m IH]; intros r; simpl.
  - rewrite orb_false_r, app_nil_r. destruct r; reflexivity.
  - rewrite IH. destruct (has k (unwrappedFns scope)); simpl; [reflexivity|].
    rewrite <- app_assoc, orb_true_r. reflexivity.
Qed.

Lemma checkWrapped_spec (scope : WrapScope) (r : Reconciliation) :
  checkWrapped scope r
  = let bad := missingFrom (unwrappedFns scope) (declared r) in
    mkRecon (needFix r || nonEmpty bad) (declared r)
            (emitted r ++ map (anchored wrappedFnNotUnwrapped) bad).
Proof. apply sweepWrapped_spec. Qed.

End Loops.

(** [exitFunction] on the scope it was opened for. *)
Lemma exitFunction_match (st : State) (scope : WrapScope) (upper : list WrapScope) :
  wrappedScope st = scope :: upper ->
  exitFunction (fn scope) st = mkState upper (reported st ++ reconcile scope).
Proof.
  intros H. unfold exitFunction. rewrite H, NodeRef_eqb_refl. reflexivity.
Qed.

(** Declared and unwrapped names agree: nothing to report. *)
Lemma reconcile_consistent (scope : WrapScope) (tp : NodeRef) (param : TSType)
    (names : list string) :
  wrappedFns scope = JsMap.empty ->
  typeParameters scope = Some (mkTypeParameters tp [param]) ->
  members param = map typeofId names ->
  NoDup names ->
  (forall x, In x names <-> In x (JsMap.keys (unwrappedFns scope))) ->
  reconcile scope = [].
Proof.
  intros Hw Htp Hm Hnd Hset. unfold reconcile.
  unfold checkTypeParameters. rewrite Htp, Hw. unfold typesOf. rewrite Hm.
  rewrite checkType_wellformed; simpl;
    [ | rewrite length_map, length_seq, length_map; reflexivity
      | assumption | reflexivity ].
  set (refs := map _ _).
  assert (Hlen : length names = length refs).
  { unfold refs. rewrite length_map, length_seq, length_map. reflexivity. }
  assert (Hkeys : JsMap.keys (combine names refs) = names)
    by (apply keys_combine; assumption).
  rewrite checkUnwrapped_spec; simpl.
  rewrite missingFrom_nil.
  2:{ intros k Hk. apply JsMapFacts.has_In. rewrite Hkeys. apply Hset, Hk. }
  rewrite checkWrapped_spec; simpl.
  rewrite missingFrom_nil.
  2:{ intros k Hk. apply JsMapFacts.has_In. apply Hset. rewrite <- Hkeys. exact Hk. }
  reflexivity.
Qed.

(* ===================================================================== *)
(** ** Reconciliation at the matching function exit *)
(* ===================================================================== *)

(** C1.  When the single type parameter lists well-formed [typeof name]
    members without repetition and exactly the names recorded in
    [unwrappedFns] (in any order), the matching [exitFunction] pops the
    scope and reports nothing. *)
Theorem exit_consistent_reports_nothing
    (st : State) (scope : WrapScope) (upper : list WrapScope)
    (tp : NodeRef) (param : TSType) (names : list string) :
  wrappedScope st = scope :: upper ->
  wrappedFns scope = JsMap.empty ->
  typeParameters scope = Some (mkTypeParameters tp [param]) ->
  members param = map typeofId names ->
  NoDup names ->
  (forall x, In x names <-> In x (JsMap.keys (unwrappedFns scope))) ->
  exitFunction (fn scope) st = mkState upper (reported st).
Proof.
  intros Hst Hw Htp Hm Hnd Hset.
  rewrite (exitFunction_match st scope upper Hst).
  rewrite (reconcile_consistent scope tp param names) by assumption.
  rewrite app_nil_r. reflexivity.
Qed.

Lemma exit_consistent_reports_nothing_witness :
  let scope :=
    mkScope [arguments_ 0] [callee_; callee_]
      (Some (mkTypeParameters [callee_; typeParameters_]
               [TSUnionType [typeofId "f"; typeofId "g"]]))
      true
      [("g", [arguments_ 0; body_; children_ 0; arguments_ 0]);
       ("f", [arguments_ 0; body_; children_ 1; arguments_ 0; argument_])]
      [] in
  exitFunction [arguments_ 0] (mkState [scope] []) = mkState [] [].
Proof.
  intros scope.
  refine (exit_consistent_reports_nothing (mkState [scope] []) scope []
            [callee_; typeParameters_]
            (TSUnionType [typeofId "f"; typeofId "g"]) ["f"; "g"]
            eq_refl eq_refl eq_refl eq_refl _ _).
  - repeat constructor; simpl; intuition discriminate.
  - intros x; simpl; tauto.
Defined.

Lemma countOf_app (m : MessageId) (l1 l2 : list Report) :
  countOf m (l1 ++ l2) = countOf m l1 + countOf m l2.
Proof. unfold countOf. rewrite filter_app, length_app. reflexivity. Qed.

Lemma countOf_anchored (m m' : MessageId) (l : JsMap.t NodeRef) :
  MessageId_eqb m' m = false -> countOf m (map (anchored m') l) = 0.
Proof.
  intros H. unfold countOf. induction l as [|kv l IH]; simpl; [reflexivity|].
  rewrite H. exact IH.
Qed.

(** What [reconcile] reports when the type-parameter list is absent or
    does not hold exactly one parameter. *)
Lemma reconcile_missing (scope : WrapScope) :
  wrappedFns scope = JsMap.empty ->
  match typeParameters scope with
  | None => True
  | Some tp => length (tp_params tp) <> 1
  end ->
  reconcile scope
  = [mkReport missingTypeParamInWrap (callee scope) None]
      ++ map (anchored unwrapNotInWrap) (unwrappedFns scope)
      ++ [mkReport badWrap (callee scope) (Some (synthesizeFix scope))]
  /\ declared (checkTypeParameters scope (mkRecon false (wrappedFns scope) []))
     = JsMap.empty.
Proof.
  intros Hw Htp. unfold reconcile.
  assert (E : checkTypeParameters scope (mkRecon false (wrappedFns scope) [])
              = mkRecon true JsMap.empty
                  [mkReport missingTypeParamInWrap (callee scope) None]).
  { unfold checkTypeParameters. rewrite Hw.
    destruct (typeParameters scope) as [[r [|p [|q ps]]]|]; simpl in *;
      try reflexivity. congruence. }
  cbv zeta. rewrite E. split; [|reflexivity].
  rewrite checkWrapped_spec, checkUnwrapped_spec. cbv zeta; simpl.
  rewrite missingFrom_empty, app_nil_r. reflexivity.
Qed.

(** C5.  Without an explicit type-parameter list, or with a list that does
    not hold exactly one parameter, the matching [exitFunction] reports
    [missingTypeParamInWrap] once, at the wrap callee, and [badWrap] once,
    with a fix; between them it reports [unwrapNotInWrap] for every
    recorded unwrap call, and the declared map stays empty. *)
Theorem exit_missing_type_parameter
    (st : State) (scope : WrapScope) (upper : list WrapScope) :
  wrappedScope st = scope :: upper ->
  wrappedFns scope = JsMap.empty ->
  match typeParameters scope with
  | None => True
  | Some tp => length (tp_params tp) <> 1
  end ->
  let emitted := reconcile scope in
  exitFunction (fn scope) st = mkState upper (reported st ++ emitted)
  /\ emitted
     = [mkReport missingTypeParamInWrap (callee scope) None]
         ++ map (anchored unwrapNotInWrap) (unwrappedFns scope)
         ++ [mkReport badWrap (callee scope) (Some (synthesizeFix scope))]
  /\ countOf missingTypeParamInWrap emitted = 1
  /\ countOf badWrap emitted = 1
  /\ declared (checkTypeParameters scope (mkRecon false (wrappedFns scope) []))
     = JsMap.empty.
Proof.
  intros Hst Hw Htp emitted.
  destruct (reconcile_missing scope Hw Htp) as [E D].
  split; [apply exitFunction_match; assumption|].
  split; [exact E|].
  unfold emitted. rewrite E.
  rewrite !countOf_app, !countOf_anchored by reflexivity.
  repeat split; try reflexivity. exact D.
Qed.

Lemma exit_missing_type_parameter_witness :
  let scope :=
    mkScope [arguments_ 0] [callee_; callee_] None true
      [("f", [arguments_ 0; body_; arguments_ 0])] [] in
  reported (exitFunction [arguments_ 0] (mkState [scope] []))
  = [mkReport missingTypeParamInWrap [callee_; callee_] None;
     mkReport unwrapNotInWrap [arguments_ 0; body_; arguments_ 0] None;
     mkReport badWrap [callee_; callee_]
       (Some (mkFix after [callee_; callee_] "<typeof f>"))].
Proof.
  intros scope.
  destruct (exit_missing_type_parameter (mkState [scope] []) scope []
              eq_refl eq_refl I) as [E _].
  change (fn scope) with [arguments_ 0] in E. rewrite E. reflexivity.
Defined.

(* ===================================================================== *)
(** ** Recognition of unwrap calls *)
(* ===================================================================== *)

(** [onUnwrapCall] in an entered scope, on a call to the unwrap identifier
    with one argument, by the shape of that argument. *)
Lemma onUnwrapCall_entered (opts : Options) (here : NodeRef) (arg : Node)
    (st : State) (scope : WrapScope) (upper : list WrapScope) :
  wrappedScope st = scope :: upper ->
  inFn scope = true ->
  onUnwrapCall opts here (Identifier (unwrapName opts)) [arg] st
  = match snd (callExprOf here arg) with
    | CallExpression (Identifier calleeName) _ _ =>
        mkState
          (mkScope (fn scope) (callee scope) (typeParameters scope) (inFn scope)
             (JsMap.set calleeName (fst (callExprOf here arg)) (unwrappedFns scope))
             (wrappedFns scope) :: upper)
          (reported st)
    | _ => report (mkReport badUnwrapArg here None) st
    end.
Proof.
  intros Hst Hin. unfold onUnwrapCall. rewrite Hst, Hin, String.eqb_refl. simpl.
  destruct (callExprOf here arg) as [r ce]. reflexivity.
Qed.



Lemma onWrapCall_other_name (opts : Options) (here : NodeRef) (name : string)
    (tps : option (list TSType)) (parent : option (NodeRef * Node)) (st : State) :
  name <> wrapName opts ->
  onWrapCall opts here (Identifier name) tps parent st = st.
Proof.
  intros H. unfold onWrapCall. apply String.eqb_neq in H. rewrite H. reflexivity.
Qed.

(** C8.  With no open scope, or before the body of the current scope has
    been entered, [onUnwrapCall] returns the state it was given, whatever
    the call looks like: no report, no change to any scope.  When the two
    configured names differ, the same holds for the whole [CallExpression]
    listener on a call to the unwrap identifier. *)
Theorem unwrap_outside_body_ignored
    (opts : Options) (here : NodeRef) (callee0 : Node)
    (tps : option (list TSType)) (args : list Node)
    (parent : option (NodeRef * Node)) (st : State) :
  match wrappedScope st with
  | [] => True
  | scope :: _ => inFn scope = false
  end ->
  onUnwrapCall opts here callee0 args st = st
  /\ (wrapName opts <> unwrapName opts ->
      visitCallExpression opts here (Identifier (unwrapName opts)) tps args
                          parent st = st).
Proof.
  intros H.
  assert (E : forall c, onUnwrapCall opts here c args st = st).
  { intros c. unfold onUnwrapCall.
    destruct (wrappedScope st) as [|scope upper]; [reflexivity|].
    rewrite H. reflexivity. }
  split; [apply E|].
  intros Hne. unfold visitCallExpression.
  rewrite onWrapCall_other_name by congruence. apply E.
Qed.

Lemma unwrap_outside_body_ignored_witness :
  let pending :=
    mkScope [arguments_ 0] [callee_; callee_] None false [] [] in
  let call := CallExpression (Identifier "f") None [] in
  onUnwrapCall defaultOptions [callee_; arguments_ 0] (Identifier "unwrap")
               [call] initial = initial
  /\ onUnwrapCall defaultOptions [callee_; arguments_ 0] (Identifier "unwrap")
               [Literal "5"] (mkState [pending] []) = mkState [pending] [].
Proof.
  intros pending call. split.
  - exact (proj1 (unwrap_outside_body_ignored defaultOptions
                    [callee_; arguments_ 0] (Identifier "unwrap") None [call]
                    None initial I)).
  - exact (proj1 (unwrap_outside_body_ignored defaultOptions
                    [callee_; arguments_ 0] (Identifier "unwrap") None
                    [Literal "5"] None (mkState [pending] []) eq_refl)).
Defined.

(** C9.  A call with no argument, or with two or more, is left alone by
    [onUnwrapCall] in every state: no report, in particular no
    [badUnwrapArg], and no entry added to [unwrappedFns].  When the two
    configured names differ, the same holds for the whole [CallExpression]
    listener on a call to the unwrap identifier. *)
Theorem unwrap_wrong_arity_ignored
    (opts : Options) (here : NodeRef) (callee0 : Node)
    (tps : option (list TSType)) (args : list Node)
    (parent : option (NodeRef * Node)) (st : State) :
  length args <> 1 ->
  onUnwrapCall opts here callee0 args st = st
  /\ (wrapName opts <> unwrapName opts ->
      visitCallExpression opts here (Identifier (unwrapName opts)) tps args
                          parent st = st).
Proof.
  intros H.
  assert (E : forall c, onUnwrapCall opts here c args st = st).
  { intros c. unfold onUnwrapCall.
    destruct (wrappedScope st) as [|scope upper]; [reflexivity|].
    destruct (inFn scope); [|reflexivity]. simpl.
    destruct c; try reflexivity.
    destruct (String.eqb name (unwrapName opts)); [|reflexivity]. simpl.
    destruct args as [|a [|b args]]; simpl in *; try reflexivity.
    congruence. }
  split; [apply E|].
  intros Hne. unfold visitCallExpression.
  rewrite onWrapCall_other_name by congruence. apply E.
Qed.

Lemma unwrap_wrong_arity_ignored_witness :
  let scope :=
    mkScope [arguments_ 0] [callee_; callee_] None true [] [] in
  let call := CallExpression (Identifier "f") None [] in
  onUnwrapCall defaultOptions [arguments_ 0; body_] (Identifier "unwrap")
               [call; Literal "5"] (mkState [scope] []) = mkState [scope] []
  /\ onUnwrapCall defaultOptions [arguments_ 0; body_] (Identifier "unwrap")
               [] (mkState [scope] []) = mkState [scope] [].
Proof.
  intros scope call. split.
  - refine (proj1 (unwrap_wrong_arity_ignored defaultOptions
                     [arguments_ 0; body_] (Identifier "unwrap") None
                     [call; Literal "5"] None (mkState [scope] []) _)).
    simpl; lia.
  - refine (proj1 (unwrap_wrong_arity_ignored defaultOptions
                     [arguments_ 0; body_] (Identifier "unwrap") None
                     [] None (mkState [scope] []) _)).
    simpl; lia.
Defined.

(** A run of unwrap calls in an entered scope: the calls of the right shape
    are recorded in the scope, the others are reported; nothing else
    changes. *)
Lemma unwrap_calls_run (opts : Options) (sites : list (NodeRef * Node)) :
  forall (st : State) (scope : WrapScope) (upper : list WrapScope),
    wrappedScope st = scope :: upper ->
    inFn scope = true ->
    exists recorded,
      fold_left (unwrapCallAt opts) sites st
      = mkState
          (mkScope (fn scope) (callee scope) (typeParameters scope) true
                   recorded (wrappedFns scope) :: upper)
          (reported st ++ map badUnwrapArgAt (filter isBadSite sites)).
Proof.
  induction sites as [|[h a] sites IH]; intros st scope upper Hst Hin; simpl.
  - exists (unwrappedFns scope). rewrite app_nil_r.
    destruct st as [ch rp]; simpl in *. subst ch.
    destruct scope; simpl in *; subst; reflexivity.
  - unfold unwrapCallAt at 2; simpl.
    rewrite (onUnwrapCall_entered opts h a st scope upper Hst Hin).
    unfold isBadSite at 1; simpl.
    destruct (snd (callExprOf h a)) as [| |c ? ?| | | | |] eqn:E; simpl;
      try (destruct (IH (report (mkReport badUnwrapArg h None) st) scope upper
                        Hst Hin) as [U HU];
           exists U; rewrite HU; simpl; rewrite <- app_assoc; reflexivity).
    destruct c; simpl;
      try (destruct (IH (report (mkReport badUnwrapArg h None) st) scope upper
                        Hst Hin) as [U HU];
           exists U; rewrite HU; simpl; rewrite <- app_assoc; reflexivity).
    match goal with
    | |- context [fold_left _ sites (mkState (?sc :: upper) ?rp)] =>
        destruct (IH (mkState (sc :: upper) rp) sc upper eq_refl Hin) as [U HU]
    end.
    exists U. rewrite HU. reflexivity.
Qed.

(** C10.  [badUnwrapArg] reports do not feed the needs-fix flag.  After any
    run of unwrap calls in an entered scope, some recorded and some
    reported for the shape of their argument, a scope whose declared and
    recorded names agree exits with those [badUnwrapArg] reports only:
    without [badWrap] and without a fix. *)
Theorem bad_unwrap_argument_needs_no_fix
    (opts : Options) (sites : list (NodeRef * Node))
    (st : State) (scope final : WrapScope) (upper rest : list WrapScope)
    (tp : NodeRef) (param : TSType) (names : list string) :
  wrappedScope st = scope :: upper ->
  inFn scope = true ->
  wrappedScope (fold_left (unwrapCallAt opts) sites st) = final :: rest ->
  wrappedFns final = JsMap.empty ->
  typeParameters final = Some (mkTypeParameters tp [param]) ->
  members param = map typeofId names ->
  NoDup names ->
  (forall x, In x names <-> In x (JsMap.keys (unwrappedFns final))) ->
  let closed := exitFunction (fn scope) (fold_left (unwrapCallAt opts) sites st) in
  closed
  = mkState upper
      (reported st ++ map badUnwrapArgAt (filter isBadSite sites))
  /\ countOf badWrap (skipn (length (reported st)) (reported closed)) = 0
  /\ Forall (fun r => fix_ r = None)
            (skipn (length (reported st)) (reported closed)).
Proof.
  intros Hst Hin Hfinal Hw Htp Hm Hnd Hset closed.
  destruct (unwrap_calls_run opts sites st scope upper Hst Hin) as [U HU].
  assert (E : closed
              = mkState upper
                  (reported st ++ map badUnwrapArgAt (filter isBadSite sites))).
  { unfold closed. rewrite HU in Hfinal |- *. simpl in Hfinal.
    inversion Hfinal; subst final rest.
    match goal with
    | |- exitFunction _ (mkState (?s :: _) _) = _ =>
        rewrite (exitFunction_match (mkState (s :: upper) _) s upper eq_refl)
    end.
    simpl. rewrite (reconcile_consistent _ tp param names) by assumption.
    rewrite app_nil_r. reflexivity. }
  split; [exact E|]. rewrite E; simpl.
  rewrite skipn_app, skipn_all, Nat.sub_diag; simpl.
  split.
  - unfold countOf. generalize (filter isBadSite sites) as l.
    intros l. induction l as [|x l IH]; simpl; auto.
  - apply Forall_forall. intros r Hr. apply in_map_iff in Hr.
    destruct Hr as [site [<- _]]. reflexivity.
Qed.

Lemma bad_unwrap_argument_needs_no_fix_witness :
  let scope :=
    mkScope [arguments_ 0] [callee_; callee_]
      (Some (mkTypeParameters [callee_; typeParameters_] [typeofId "f"]))
      true [] [] in
  let bad := ([arguments_ 0; body_; children_ 0], Literal "5") in
  let good :=
    ([arguments_ 0; body_; children_ 1],
     CallExpression (Identifier "f") None []) in
  exitFunction [arguments_ 0]
    (fold_left (unwrapCallAt defaultOptions) [bad; good; bad]
               (mkState [scope] []))
  = mkState [] [badUnwrapArgAt bad; badUnwrapArgAt bad].
Proof.
  intros scope bad good.
  refine (proj1 (bad_unwrap_argument_needs_no_fix defaultOptions
                   [bad; good; bad] (mkState [scope] []) scope _ [] []
                   [callee_; typeParameters_] (typeofId "f") ["f"]
                   eq_refl eq_refl eq_refl eq_refl eq_refl eq_refl _ _)).
  - repeat constructor; simpl; tauto.
  - intros x; simpl; tauto.
Defined.

(** C3 (as the code has it).  A recognised unwrap call stores its own call
    expression under the callee name: the latest call site replaces the
    one recorded before, a name seen before keeps its place in the key
    order, a new name goes last, and the entries of other names are not
    touched. *)
Theorem unwrap_records_latest_call_site
    (opts : Options) (here : NodeRef) (arg : Node)
    (st : State) (scope : WrapScope) (upper : list WrapScope)
    (name : string) (tps : option (list TSType)) (args : list Node) :
  wrappedScope st = scope :: upper ->
  inFn scope = true ->
  snd (callExprOf here arg) = CallExpression (Identifier name) tps args ->
  exists scope',
    onUnwrapCall opts here (Identifier (unwrapName opts)) [arg] st
    = mkState (scope' :: upper) (reported st)
    /\ JsMap.get name (unwrappedFns scope') = Some (fst (callExprOf here arg))
    /\ JsMap.keys (unwrappedFns scope')
       = (if JsMap.has name (unwrappedFns scope)
          then JsMap.keys (unwrappedFns scope)
          else JsMap.keys (unwrappedFns scope) ++ [name])
    /\ forall other, other <> name ->
         JsMap.get other (unwrappedFns scope')
         = JsMap.get other (unwrappedFns scope).
Proof.
  intros Hst Hin Hce.
  rewrite (onUnwrapCall_entered opts here arg st scope upper Hst Hin), Hce.
  eexists; split; [reflexivity|]; simpl.
  split; [apply JsMapFacts.get_set_same|].
  split; [apply JsMapFacts.keys_set|].
  intros other Hne. apply JsMapFacts.get_set_other; assumption.
Qed.

Lemma unwrap_records_latest_call_site_witness :
  let first := [arguments_ 0; body_; children_ 0] in
  let second := [arguments_ 0; body_; children_ 1] in
  let scope :=
    mkScope [arguments_ 0] [callee_; callee_] None true
      [("f", first ++ [arguments_ 0])] [] in
  exists scope',
    onUnwrapCall defaultOptions second (Identifier "unwrap")
      [CallExpression (Identifier "f") None []] (mkState [scope] [])
    = mkState [scope'] []
    /\ JsMap.get "f" (unwrappedFns scope') = Some (second ++ [arguments_ 0])
    /\ JsMap.keys (unwrappedFns scope') = ["f"].
Proof.
  intros first second scope.
  destruct (unwrap_records_latest_call_site defaultOptions second
              (CallExpression (Identifier "f") None []) (mkState [scope] [])
              scope [] "f" None [] eq_refl eq_refl eq_refl)
    as [scope' [E [G [K _]]]].
  exists scope'. repeat split; assumption.
Defined.

(** C3, refuted as stated: the second unwrap of [f] replaces the call site
    recorded by the first, so the entry changes and the first occurrence
    does not win. *)
Lemma first_unwrap_call_site_does_not_win :
  let first := [arguments_ 0; body_; children_ 0] in
  let second := [arguments_ 0; body_; children_ 1] in
  let call := CallExpression (Identifier "f") None [] in
  let entered :=
    mkState [mkScope [arguments_ 0] [callee_; callee_] None true [] []] [] in
  let st1 := onUnwrapCall defaultOptions first (Identifier "unwrap") [call] entered in
  let st2 := onUnwrapCall defaultOptions second (Identifier "unwrap") [call] st1 in
  map unwrappedFns (wrappedScope st1) = [[("f", first ++ [arguments_ 0])]]
  /\ map unwrappedFns (wrappedScope st2) = [[("f", second ++ [arguments_ 0])]]
  /\ st2 <> st1
  /\ reported
       (traverse defaultOptions None []
          (CallExpression (CallExpression (Identifier "wrap") None []) None
             [ArrowFunctionExpression true []
                (OtherNode [CallExpression (Identifier "unwrap") None [call];
                            CallExpression (Identifier "unwrap") None [call]])])
          initial)
     = [mkReport missingTypeParamInWrap [callee_; callee_] None;
        mkReport unwrapNotInWrap (second ++ [arguments_ 0]) None;
        mkReport badWrap [callee_; callee_]
          (Some (mkFix after [callee_; callee_] "<typeof f>"))].
Proof.
  intros first second call entered st1 st2.
  repeat split; try reflexivity.
  intros H. apply (f_equal (fun s => map unwrappedFns (wrappedScope s))) in H.
  vm_compute in H. discriminate.
Qed.





(* ===================================================================== *)
(** ** Scope-chain discipline of the walk *)
(* ===================================================================== *)

Lemma list_all_Forall {A} (P : A -> Prop) (l : list A) :
  list_all A P l -> Forall P l.
Proof. induction 1; constructor; auto. Qed.

Lemma strictlyBelow_child (here r : NodeRef) (x : Step) :
  strictlyBelow (here ++ [x]) r -> strictlyBelow here r.
Proof.
  intros [y [rest ->]]. exists x, (y :: rest). rewrite <- app_assoc. reflexivity.
Qed.

Lemma not_strictlyBelow_self (here : NodeRef) : ~ strictlyBelow here here.
Proof.
  intros [x [rest H]]. apply (f_equal (@length Step)) in H.
  rewrite length_app in H. simpl in H. lia.
Qed.

Lemma strictlyBelow_direct_child (here : NodeRef) (x : Step) :
  strictlyBelow here (here ++ [x]).
Proof. exists x, []. reflexivity. Qed.

Lemma clear_child (here : NodeRef) (x : Step) (chain : list WrapScope) :
  clear here chain -> clear (here ++ [x]) chain.
Proof.
  intros H s Hs Hb. apply (H s Hs). eapply strictlyBelow_child; eassumption.
Qed.

Lemma clear_cons (here : NodeRef) (s : WrapScope) (chain : list WrapScope) :
  ~ strictlyBelow here (fn s) -> clear here chain -> clear here (s :: chain).
Proof. intros H1 H2 s' [<-|Hs]; auto. Qed.

Lemma sameButUnwrapped_refl (s : WrapScope) : sameButUnwrapped s s.
Proof. repeat split; auto. Qed.

Lemma sameButUnwrapped_trans (a b c : WrapScope) :
  sameButUnwrapped a b -> sameButUnwrapped b c -> sameButUnwrapped a c.
Proof.
  intros (F1 & C1 & T1 & I1 & W1 & U1 & N1) (F2 & C2 & T2 & I2 & W2 & U2 & N2).
  repeat split; try congruence; auto.
  intros H. rewrite U2, U1; auto. congruence.
Qed.

Lemma sameButUnwrapped_idle (s s' : WrapScope) :
  sameButUnwrapped s s' -> inFn s = false -> s' = s.
Proof.
  intros (F & C & T & I & W & U & _) H. specialize (U H).
  destruct s, s'; simpl in *; congruence.
Qed.

Lemma frame_refl (chain : list WrapScope) : frame chain chain.
Proof. destruct chain; simpl; auto using sameButUnwrapped_refl. Qed.

Lemma frame_trans (a b c : list WrapScope) : frame a b -> frame b c -> frame a c.
Proof.
  destruct a, b, c; simpl; try tauto.
  intros [-> H1] [-> H2]. split; [reflexivity|].
  eapply sameButUnwrapped_trans; eassumption.
Qed.

Lemma frame_clear (here : NodeRef) (chain chain' : list WrapScope) :
  frame chain chain' -> clear here chain -> clear here chain'.
Proof.
  destruct chain as [|s u], chain' as [|s' u']; simpl; try tauto.
  intros [-> (F & _)] H x [<-|Hx].
  - rewrite F. apply H. left; reflexivity.
  - apply H. right; exact Hx.
Qed.

Lemma frame_topIs (here : NodeRef) (chain chain' : list WrapScope) :
  frame chain chain' -> topIs here chain' = topIs here chain.
Proof.
  destruct chain as [|s u], chain' as [|s' u']; simpl; try tauto.
  intros [_ (F & _)]. rewrite F. reflexivity.
Qed.

Lemma frame_idle (chain chain' : list WrapScope) :
  frame chain chain' ->
  match chain with [] => True | s :: _ => inFn s = false end ->
  chain' = chain.
Proof.
  destruct chain as [|s u], chain' as [|s' u']; simpl; try tauto.
  intros [-> H] Hi. f_equal. apply sameButUnwrapped_idle; assumption.
Qed.

Lemma topIs_clear_child (here : NodeRef) (x : Step) (chain : list WrapScope) :
  clear here chain -> topIs (here ++ [x]) chain = false.
Proof.
  destruct chain as [|s u]; simpl; [reflexivity|]. intros H.
  apply NodeRef_eqb_neq. intros E. apply (H s (or_introl eq_refl)).
  rewrite E. apply strictlyBelow_direct_child.
Qed.

(** *** The callbacks, one by one *)

Lemma opensWrap_inv (opts : Options) (n : Node) (parent : option (NodeRef * Node)) :
  opensWrap opts n parent = true ->
  exists tps args parentRef pc ptps fn0,
    n = CallExpression (Identifier (wrapName opts)) tps args
    /\ parent = Some (parentRef, CallExpression pc ptps [fn0])
    /\ isFunctionLiteral fn0 = true /\ isAsync fn0 = true.
Proof.
  unfold opensWrap.
  destruct n as [| |c tps args| | | | |]; try discriminate.
  destruct c; try discriminate.
  destruct parent as [[parentRef p]|]; try discriminate.
  destruct p as [| |pc ptps pargs| | | | |]; try discriminate.
  destruct pargs as [|fn0 [|? ?]]; try discriminate.
  rewrite !andb_true_iff. intros [[E F] A].
  apply String.eqb_eq in E. subst name.
  exists tps, args, parentRef, pc, ptps, fn0. auto.
Qed.

Lemma onWrapCall_spec (opts : Options) (here : NodeRef) (c : Node)
    (tps : option (list TSType)) (args : list Node)
    (parent : option (NodeRef * Node)) (st : State) :
  onWrapCall opts here c tps parent st
  = if opensWrap opts (CallExpression c tps args) parent
    then mkState (openedScope here tps (parentRefOf parent) :: wrappedScope st)
                 (reported st)
    else st.
Proof.
  unfold onWrapCall, opensWrap.
  destruct c; try reflexivity.
  destruct parent as [[parentRef p]|];
    [|destruct (String.eqb name (wrapName opts)); reflexivity].
  destruct p as [| |pc ptps pargs| | | | |];
    try (destruct (String.eqb name (wrapName opts)); reflexivity).
  destruct pargs as [|fn0 [|? ?]];
    try (destruct (String.eqb name (wrapName opts)); reflexivity).
  destruct (String.eqb name (wrapName opts)); simpl; [|reflexivity].
  destruct (isFunctionLiteral fn0); simpl; [|reflexivity].
  destruct (isAsync fn0); reflexivity.
Qed.

(** An argument of a call never opens a wrap scope against that call. *)
Lemma argument_never_opens (opts : Options) (here : NodeRef) (c : Node)
    (tps : option (list TSType)) (args : list Node) (child : Node) :
  In child args ->
  opensWrap opts child (Some (here, CallExpression c tps args)) = false.
Proof.
  intros Hin. destruct (opensWrap opts child _) eqn:E; [|reflexivity].
  apply opensWrap_inv in E.
  destruct E as (tps' & args' & pr & pc & ptps & fn0 & Hc & Hp & Hf & _).
  inversion Hp; subst. destruct Hin as [Heq|[]]. subst fn0. discriminate.
Qed.

Lemma onUnwrapCall_frame (opts : Options) (here : NodeRef) (c : Node)
    (args : list Node) (st : State) :
  frame (wrappedScope st) (wrappedScope (onUnwrapCall opts here c args st)).
Proof.
  unfold onUnwrapCall.
  destruct (wrappedScope st) as [|scope upper] eqn:Hst; [rewrite Hst; exact I|].
  assert (Hsame : frame (scope :: upper) (wrappedScope st))
    by (rewrite Hst; apply frame_refl).
  destruct (inFn scope) eqn:Hin; [|exact Hsame].
  destruct c; try exact Hsame.
  destruct (String.eqb name (unwrapName opts)); [|exact Hsame].
  destruct args as [|arg [|? ?]]; try exact Hsame.
  cbn [negb].
  destruct (callExprOf here arg) as [r ce].
  destruct ce as [| |cc ? ?| | | | |]; try exact Hsame.
  destruct cc; try exact Hsame.
  split; [reflexivity|].
  repeat split; simpl; auto; try congruence.
  apply JsMapFacts.NoDup_keys_set.
Qed.

Lemma onUnwrapCall_idle (opts : Options) (here : NodeRef) (c : Node)
    (args : list Node) (st : State) :
  match wrappedScope st with [] => True | s :: _ => inFn s = false end ->
  onUnwrapCall opts here c args st = st.
Proof.
  intros H. unfold onUnwrapCall.
  destruct (wrappedScope st) as [|scope upper]; [reflexivity|].
  rewrite H. reflexivity.
Qed.

Lemma enterFunction_other (here : NodeRef) (st : State) :
  topIs here (wrappedScope st) = false -> enterFunction here st = st.
Proof.
  unfold enterFunction, topIs.
  destruct (wrappedScope st) as [|s u]; [reflexivity|].
  intros ->. reflexivity.
Qed.

Lemma enterFunction_match (here : NodeRef) (st : State) :
  topIs here (wrappedScope st) = true ->
  exists s upper,
    wrappedScope st = s :: upper /\ fn s = here
    /\ enterFunction here st = mkState (entered s :: upper) (reported st).
Proof.
  unfold enterFunction, topIs.
  destruct (wrappedScope st) as [|s u]; [discriminate|].
  intros H. rewrite H. apply NodeRef_eqb_eq in H.
  exists s, u. auto.
Qed.

Lemma exitFunction_other (here : NodeRef) (st : State) :
  topIs here (wrappedScope st) = false -> exitFunction here st = st.
Proof.
  unfold exitFunction, topIs.
  destruct (wrappedScope st) as [|s u]; [reflexivity|].
  intros ->. reflexivity.
Qed.

Lemma opensWrap_parent_call (opts : Options) (c : Node) (r : NodeRef) (p : Node) :
  opensWrap opts c (Some (r, p)) = true ->
  exists pc ptps fn0, p = CallExpression pc ptps [fn0].
Proof.
  intros H. apply opensWrap_inv in H.
  destruct H as (_ & _ & pr & pc & ptps & fn0 & _ & Hp & _).
  inversion Hp; subst. eauto.
Qed.

Lemma opensWrap_is_call (opts : Options) (n : Node)
    (parent : option (NodeRef * Node)) :
  isFunctionLiteral n = true -> opensWrap opts n parent = false.
Proof. destruct n; try discriminate; reflexivity. Qed.

(** *** Unfolding the walk *)

Lemma traverse_call (opts : Options) (parent : option (NodeRef * Node))
    (here : NodeRef) (c : Node) (tps : option (list TSType))
    (args : list Node) (st : State) :
  traverse opts parent here (CallExpression c tps args) st
  = let me := Some (here, CallExpression c tps args) in
    visitEach (traverse opts me) (fun i => here ++ [arguments_ i]) 0 args
      (traverse opts me (here ++ [callee_]) c
         (onUnwrapCall opts here c args (onWrapCall opts here c tps parent st))).
Proof. reflexivity. Qed.

Lemma child_frame (opts : Options) (me : Node) (here : NodeRef) (x : Step)
    (c : Node) (st : State) :
  walksWell opts c ->
  opensWrap opts c (Some (here, me)) = false ->
  clear here (wrappedScope st) ->
  frame (wrappedScope st)
        (wrappedScope (traverse opts (Some (here, me)) (here ++ [x]) c st)).
Proof.
  intros W Ho Hc.
  specialize (W (Some (here, me)) (here ++ [x]) st).
  unfold chainAfter in W. rewrite Ho in W.
  rewrite (topIs_clear_child here x _ Hc), andb_false_r in W.
  apply W; [exists x; reflexivity | apply clear_child; exact Hc].
Qed.

Lemma children_frame (opts : Options) (me : Node) (here : NodeRef)
    (mk : nat -> Step) (l : list Node) :
  Forall (walksWell opts) l ->
  (forall c, In c l -> opensWrap opts c (Some (here, me)) = false) ->
  forall (i : nat) (st : State),
    clear here (wrappedScope st) ->
    frame (wrappedScope st)
          (wrappedScope
             (visitEach (traverse opts (Some (here, me)))
                        (fun i => here ++ [mk i]) i l st)).
Proof.
  induction 1 as [|c l Wc Wl IH]; intros Ho i st Hc; simpl.
  - apply frame_refl.
  - assert (F : frame (wrappedScope st)
                  (wrappedScope
                     (traverse opts (Some (here, me)) (here ++ [mk i]) c st)))
      by (apply child_frame; auto using in_eq).
    eapply frame_trans; [exact F|].
    apply IH; [intros; apply Ho; right; assumption|].
    eapply frame_clear; eassumption.
Qed.

(** A function literal: the scope opened for it, if it is the current one,
    is entered, survives the walk of parameters and body, and is popped. *)
Lemma function_walksWell (opts : Options) (n : Node) (ps : list Node) (b : Node) :
  (forall parent here st,
      traverse opts parent here n st
      = exitFunction here
          (traverse opts (Some (here, n)) (here ++ [body_]) b
             (visitEach (traverse opts (Some (here, n)))
                        (fun i => here ++ [params_ i]) 0 ps
                        (enterFunction here st)))) ->
  isFunctionLiteral n = true ->
  Forall (walksWell opts) ps ->
  walksWell opts b ->
  walksWell opts n.
Proof.
  intros Hun Hfun Wps Wb parent here st Hchild Hclear.
  unfold chainAfter. rewrite (opensWrap_is_call opts n parent Hfun), Hfun, Hun.
  simpl andb.
  assert (Hno : forall c, opensWrap opts c (Some (here, n)) = false).
  { intros c. destruct (opensWrap opts c (Some (here, n))) eqn:E; [|reflexivity].
    apply opensWrap_parent_call in E. destruct E as (pc & ptps & fn0 & ->).
    discriminate. }
  assert (Hbody : forall st1,
             clear here (wrappedScope st1) ->
             frame (wrappedScope st1)
               (wrappedScope
                  (traverse opts (Some (here, n)) (here ++ [body_]) b
                     (visitEach (traverse opts (Some (here, n)))
                        (fun i => here ++ [params_ i]) 0 ps st1)))).
  { intros st1 Hc1.
    assert (F1 := children_frame opts n here params_ ps Wps
                    (fun c _ => Hno c) 0 st1 Hc1).
    eapply frame_trans; [exact F1|].
    apply child_frame; auto. eapply frame_clear; eassumption. }
  destruct (topIs here (wrappedScope st)) eqn:Ht.
  - destruct (enterFunction_match here st Ht) as (s & upper & Hst & Hfn & He).
    rewrite He, Hst. simpl tl.
    specialize (Hbody (mkState (entered s :: upper) (reported st))).
    simpl wrappedScope in Hbody at 1 2.
    match type of Hbody with _ -> frame _ (wrappedScope ?X) => set (st3 := X) in * end.
    assert (Hc1 : clear here (entered s :: upper)).
    { rewrite Hst in Hclear. intros x [<-|Hx]; [|apply Hclear; right; exact Hx].
      simpl. rewrite Hfn. apply not_strictlyBelow_self. }
    specialize (Hbody Hc1).
    destruct (wrappedScope st3) as [|s3 u3] eqn:H3; simpl in Hbody; [tauto|].
    destruct Hbody as [-> (F & _)]. simpl in F.
    unfold exitFunction. rewrite H3, F, Hfn, NodeRef_eqb_refl. reflexivity.
  - rewrite (enterFunction_other here st Ht).
    specialize (Hbody st Hclear).
    rewrite exitFunction_other; [exact Hbody|].
    rewrite (frame_topIs here _ _ Hbody). exact Ht.
Qed.

(** Stack discipline of the walk, for every subtree. *)
Lemma traverse_walksWell (opts : Options) (n : Node) : walksWell opts n.
Proof.
  induction n as [name|raw|c IHc tps args IHargs|a IHa|o IHo p IHp
                  |async ps IHps b IHb|async ps IHps b IHb|cs IHcs].
  - intros parent here st _ _. unfold chainAfter.
    rewrite andb_false_l.
    replace (opensWrap opts (Identifier name) parent) with false
      by (destruct parent as [[? ?]|]; reflexivity).
    apply frame_refl.
  - intros parent here st _ _. unfold chainAfter.
    rewrite andb_false_l.
    replace (opensWrap opts (Literal raw) parent) with false
      by (destruct parent as [[? ?]|]; reflexivity).
    apply frame_refl.
  - (* CallExpression *)
    apply list_all_Forall in IHargs.
    intros parent here st Hchild Hclear. unfold chainAfter.
    rewrite andb_false_l, traverse_call. cbv zeta.
    rewrite (onWrapCall_spec opts here c tps args parent st).
    set (me := CallExpression c tps args) in *.
    assert (Hargs : forall child, In child args ->
                                  opensWrap opts child (Some (here, me)) = false)
      by (intros; apply argument_never_opens; assumption).
    destruct (opensWrap opts me parent) eqn:Ho.
    + (* the callee of a wrap construct: its scope is pushed and stays *)
      pose proof (opensWrap_inv _ _ _ Ho)
        as (tps' & args' & pr & pc & ptps & fn0 & Hme & Hp & _).
      unfold me in Hme. inversion Hme; subst c tps' args'. subst parent.
      destruct Hchild as [x Hx]. simpl parentRefOf. simpl typeParametersOf.
      set (st1 := mkState (openedScope here tps pr :: wrappedScope st) (reported st)).
      rewrite (onUnwrapCall_idle opts here (Identifier (wrapName opts)) args st1)
        by reflexivity.
      change (traverse opts (Some (here, me)) (here ++ [callee_])
                (Identifier (wrapName opts)) st1) with st1.
      assert (Hc1 : clear here (wrappedScope st1)).
      { apply clear_cons; [|exact Hclear]. simpl. subst here.
        intros (y & rest & E). rewrite <- app_assoc in E.
        apply app_inv_head in E. discriminate. }
      pose proof (children_frame opts me here arguments_ args IHargs Hargs 0 st1 Hc1)
        as F.
      apply (frame_idle _ _ F). reflexivity.
    + set (st2 := onUnwrapCall opts here c args st).
      assert (F2 : frame (wrappedScope st) (wrappedScope st2))
        by apply onUnwrapCall_frame.
      assert (Hc2 : clear here (wrappedScope st2))
        by (eapply frame_clear; eassumption).
      destruct (opensWrap opts c (Some (here, me))) eqn:Hoc.
      * (* a wrap construct: pushed by the callee, popped by the function *)
        pose proof (opensWrap_inv _ _ _ Hoc)
          as (tps' & args' & pr & pc & ptps & fn0 & Hc & Hp & Hf & _).
        inversion Hp; subst pr pc ptps args.
        pose proof (IHc (Some (here, me)) (here ++ [callee_]) st2
                      (ex_intro _ callee_ eq_refl) (clear_child _ _ _ Hc2)) as W.
        unfold chainAfter in W. rewrite Hoc in W. simpl parentRefOf in W.
        set (st3 := traverse opts (Some (here, me)) (here ++ [callee_]) c st2) in *.
        simpl visitEach.
        inversion IHargs as [|? ? Wfn _]; subst.
        pose proof (Wfn (Some (here, me)) (here ++ [arguments_ 0]) st3
                      (ex_intro _ (arguments_ 0) eq_refl)) as W3.
        unfold chainAfter in W3.
        rewrite (opensWrap_is_call _ _ _ Hf), Hf, W in W3.
        simpl in W3. rewrite NodeRef_eqb_refl in W3.
        rewrite W3; [exact F2|].
        apply clear_cons; [apply not_strictlyBelow_self|].
        apply clear_child; exact Hc2.
      * pose proof (child_frame opts me here callee_ c st2 IHc Hoc Hc2) as F3.
        eapply frame_trans; [exact F2|]. eapply frame_trans; [exact F3|].
        apply children_frame; auto. eapply frame_clear; eassumption.
  - (* AwaitExpression *)
    intros parent here st Hchild Hclear. unfold chainAfter.
    rewrite andb_false_l.
    replace (opensWrap opts (AwaitExpression a) parent) with false
      by (destruct parent as [[? ?]|]; reflexivity).
    apply (child_frame opts (AwaitExpression a) here argument_ a st); auto.
    destruct (opensWrap opts a _) eqn:E; [|reflexivity].
    apply opensWrap_parent_call in E. destruct E as (? & ? & ? & E). discriminate.
  - (* MemberExpression *)
    intros parent here st Hchild Hclear. unfold chainAfter.
    rewrite andb_false_l.
    replace (opensWrap opts (MemberExpression o p) parent) with false
      by (destruct parent as [[? ?]|]; reflexivity).
    assert (Hno : forall c, opensWrap opts c (Some (here, MemberExpression o p)) = false).
    { intros c. destruct (opensWrap opts c _) eqn:E; [|reflexivity].
      apply opensWrap_parent_call in E. destruct E as (? & ? & ? & E). discriminate. }
    pose proof (child_frame opts (MemberExpression o p) here object_ o st IHo
                  (Hno o) Hclear) as F1.
    eapply frame_trans; [exact F1|].
    apply (child_frame opts (MemberExpression o p) here property_ p); auto.
    eapply frame_clear; eassumption.
  - apply (function_walksWell opts _ ps b); auto using list_all_Forall.
  - apply (function_walksWell opts _ ps b); auto using list_all_Forall.
  - (* OtherNode *)
    apply list_all_Forall in IHcs.
    intros parent here st Hchild Hclear. unfold chainAfter.
    rewrite andb_false_l.
    replace (opensWrap opts (OtherNode cs) parent) with false
      by (destruct parent as [[? ?]|]; reflexivity).
    apply (children_frame opts (OtherNode cs) here children_ cs); auto.
    intros c _. destruct (opensWrap opts c _) eqn:E; [|reflexivity].
    apply opensWrap_parent_call in E. destruct E as (? & ? & ? & E). discriminate.
Qed.

Lemma onUnwrapCall_not_identifier (opts : Options) (here : NodeRef) (c : Node)
    (args : list Node) (st : State) :
  (forall name, c <> Identifier name) ->
  onUnwrapCall opts here c args st = st.
Proof.
  intros H. unfold onUnwrapCall.
  destruct (wrappedScope st) as [|s u]; [reflexivity|].
  destruct (inFn s); [|reflexivity].
  destruct c; try reflexivity. exfalso. eapply H; reflexivity.
Qed.

(** Walking a recognised wrap construct step by step: the outer call does
    nothing itself, its callee pushes the scope, the function literal
    enters and finally pops it. *)
Lemma traverse_wrapConstruct (opts : Options) (tps : option (list TSType))
    (args0 : list Node) (ptps : option (list TSType)) (fnLit : Node)
    (parent : option (NodeRef * Node)) (here : NodeRef) (st : State) :
  isFunctionLiteral fnLit = true ->
  isAsync fnLit = true ->
  let me := wrapConstruct opts tps args0 ptps fnLit in
  let inner := CallExpression (Identifier (wrapName opts)) tps args0 in
  traverse opts parent here me st
  = traverse opts (Some (here, me)) (here ++ [arguments_ 0]) fnLit
      (visitEach (traverse opts (Some (here ++ [callee_], inner)))
         (fun i => (here ++ [callee_]) ++ [arguments_ i]) 0 args0
         (mkState
            (openedScope (here ++ [callee_]) tps here :: wrappedScope st)
            (reported st))).
Proof.
  intros Hf Ha me inner. unfold me, inner, wrapConstruct.
  rewrite traverse_call. cbv zeta.
  rewrite (onWrapCall_spec opts here _ ptps [fnLit] parent st).
  match goal with
  | |- context [opensWrap opts ?n parent] =>
      replace (opensWrap opts n parent) with false
        by (destruct parent as [[? ?]|]; reflexivity)
  end.
  rewrite onUnwrapCall_not_identifier by (intros name; discriminate).
  rewrite traverse_call. cbv zeta.
  rewrite (onWrapCall_spec opts (here ++ [callee_]) _ tps args0).
  match goal with
  | |- context [opensWrap opts ?n (Some ?p)] =>
      replace (opensWrap opts n (Some p)) with true
        by (simpl; rewrite String.eqb_refl, Hf, Ha; reflexivity)
  end.
  simpl parentRefOf.
  rewrite (onUnwrapCall_idle opts (here ++ [callee_])) by reflexivity.
  reflexivity.
Qed.

(** Walking a recognised wrap construct gives back the very scope chain
    it started from, so the scope that was current before reports at its
    own exit what it would have reported without the construct. *)
Lemma wrapConstruct_gives_chain_back
    (opts : Options) (tps : option (list TSType)) (args0 : list Node)
    (ptps : option (list TSType)) (fnLit : Node)
    (parent : option (NodeRef * Node)) (here : NodeRef) (st : State) :
  isFunctionLiteral fnLit = true ->
  isAsync fnLit = true ->
  clear here (wrappedScope st) ->
  let st' := traverse opts parent here (wrapConstruct opts tps args0 ptps fnLit) st in
  wrappedScope st' = wrappedScope st
  /\ forall outer upper,
       wrappedScope st = outer :: upper ->
       exitFunction (fn outer) st'
       = mkState upper (reported st' ++ reconcile outer).
Proof.
  intros Hf Ha Hclear st'.
  assert (E : wrappedScope st' = wrappedScope st).
  { unfold st'. rewrite traverse_wrapConstruct by assumption. cbv zeta.
    set (me := wrapConstruct opts tps args0 ptps fnLit).
    set (inner := CallExpression (Identifier (wrapName opts)) tps args0).
    set (st1 := mkState _ _).
    assert (Hc1 : clear (here ++ [callee_]) (wrappedScope st1)).
    { apply clear_cons; [|apply clear_child; exact Hclear]. simpl.
      intros (y & rest & E). rewrite <- app_assoc in E.
      apply app_inv_head in E. discriminate. }
    pose proof (children_frame opts inner (here ++ [callee_]) arguments_ args0
                  (proj2 (Forall_forall _ _)
                         (fun n _ => traverse_walksWell opts n))
                  (fun c Hc => argument_never_opens opts _ _ tps args0 c Hc)
                  0 st1 Hc1) as F.
    apply frame_idle in F; [|reflexivity].
    set (st2 := visitEach _ _ _ _ st1) in *.
    pose proof (traverse_walksWell opts fnLit (Some (here, me))
                  (here ++ [arguments_ 0]) st2
                  (ex_intro _ (arguments_ 0) eq_refl)) as W.
    unfold chainAfter in W.
    rewrite (opensWrap_is_call _ _ _ Hf), Hf, F in W. simpl in W.
    rewrite NodeRef_eqb_refl in W. apply W.
    apply clear_cons; [apply not_strictlyBelow_self|].
    apply clear_child; exact Hclear. }
  split; [exact E|].
  intros outer upper Hst. apply exitFunction_match. congruence.
Qed.

(* ===================================================================== *)
(** ** The walk does not depend on a construct's type parameters *)
(* ===================================================================== *)

Lemma within_child (here r : NodeRef) (x : Step) :
  within (here ++ [x]) r -> within here r.
Proof. intros [rest ->]. exists (x :: rest). rewrite <- app_assoc. reflexivity. Qed.

Lemma within_refl (here : NodeRef) : within here here.
Proof. exists []. rewrite app_nil_r. reflexivity. Qed.

Lemma apart_child (c0 here : NodeRef) (x : Step) (chain : list WrapScope) :
  apart c0 here chain -> apart c0 (here ++ [x]) chain.
Proof. intros H r Hr Hw. apply (H r Hr). eapply within_child; eassumption. Qed.

Lemma apart_incl (c0 here : NodeRef) (chain chain' : list WrapScope) :
  incl (fnsOf c0 chain') (fnsOf c0 chain) ->
  apart c0 here chain -> apart c0 here chain'.
Proof. intros Hi H r Hr. apply H, Hi, Hr. Qed.

Lemma frame_fnsOf (c0 : NodeRef) (chain chain' : list WrapScope) :
  frame chain chain' -> fnsOf c0 chain' = fnsOf c0 chain.
Proof.
  destruct chain as [|s u], chain' as [|s' u']; simpl; try tauto.
  intros [-> (F & C & _)]. unfold fnsOf; simpl. rewrite C.
  destruct (NodeRef_eqb (callee s) c0); simpl; congruence.
Qed.

Lemma retype_other (c0 : NodeRef) (tp : option TSTypeParameterInstantiation)
    (s : WrapScope) :
  callee s <> c0 -> retype c0 tp s = s.
Proof.
  intros H. unfold retype. apply NodeRef_eqb_neq in H. rewrite H. reflexivity.
Qed.

Lemma retype_fields (c0 : NodeRef) (tp : option TSTypeParameterInstantiation)
    (s : WrapScope) :
  fn (retype c0 tp s) = fn s /\ callee (retype c0 tp s) = callee s
  /\ inFn (retype c0 tp s) = inFn s
  /\ unwrappedFns (retype c0 tp s) = unwrappedFns s
  /\ wrappedFns (retype c0 tp s) = wrappedFns s.
Proof.
  unfold retype. destruct (NodeRef_eqb (callee s) c0); simpl; auto.
Qed.

Lemma retype_onWrapCall (opts : Options) (c0 : NodeRef)
    (tp : option TSTypeParameterInstantiation) (here : NodeRef) (c : Node)
    (tps : option (list TSType)) (parent : option (NodeRef * Node)) (st : State) :
  here ++ [callee_] <> c0 ->
  onWrapCall opts here c tps parent (retypeState c0 tp st)
  = retypeState c0 tp (onWrapCall opts here c tps parent st).
Proof.
  intros H. rewrite !(onWrapCall_spec opts here c tps []).
  destruct (opensWrap opts _ parent); [|reflexivity].
  unfold retypeState; simpl. rewrite retype_other by exact H. reflexivity.
Qed.

Lemma fnsOf_onWrapCall (opts : Options) (c0 : NodeRef) (here : NodeRef) (c : Node)
    (tps : option (list TSType)) (parent : option (NodeRef * Node)) (st : State) :
  here ++ [callee_] <> c0 ->
  fnsOf c0 (wrappedScope (onWrapCall opts here c tps parent st))
  = fnsOf c0 (wrappedScope st).
Proof.
  intros H. rewrite (onWrapCall_spec opts here c tps []).
  destruct (opensWrap opts _ parent); [|reflexivity].
  unfold fnsOf; simpl. apply NodeRef_eqb_neq in H. rewrite H. reflexivity.
Qed.

Lemma retype_onUnwrapCall (opts : Options) (c0 : NodeRef)
    (tp : option TSTypeParameterInstantiation) (here : NodeRef) (c : Node)
    (args : list Node) (st : State) :
  onUnwrapCall opts here c args (retypeState c0 tp st)
  = retypeState c0 tp (onUnwrapCall opts here c args st).
Proof.
  unfold onUnwrapCall, retypeState; simpl.
  destruct (wrappedScope st) as [|s u] eqn:Hst; simpl;
    [rewrite Hst; reflexivity|].
  destruct (retype_fields c0 tp s) as (F & C & I & U & W).
  rewrite I.
  destruct (inFn s) eqn:Hin; simpl; [|rewrite Hst; reflexivity].
  destruct c; try (rewrite Hst; reflexivity).
  destruct (String.eqb name (unwrapName opts)); simpl;
    [|rewrite Hst; reflexivity].
  destruct args as [|arg [|? ?]]; try (rewrite Hst; reflexivity).
  destruct (callExprOf here arg) as [r ce].
  destruct ce as [| |cc ? ?| | | | |];
    try (unfold report; simpl; rewrite Hst; reflexivity).
  destruct cc; try (unfold report; simpl; rewrite Hst; reflexivity).
  simpl. f_equal. f_equal.
  unfold retype; simpl. destruct (NodeRef_eqb (callee s) c0); simpl;
    rewrite ?Hin; reflexivity.
Qed.

Lemma retype_enterFunction (c0 : NodeRef)
    (tp : option TSTypeParameterInstantiation) (here : NodeRef) (st : State) :
  enterFunction here (retypeState c0 tp st)
  = retypeState c0 tp (enterFunction here st).
Proof.
  unfold enterFunction, retypeState; simpl.
  destruct (wrappedScope st) as [|s u] eqn:Hst; simpl;
    [rewrite Hst; reflexivity|].
  destruct (retype_fields c0 tp s) as (F & C & I & U & W).
  rewrite F. destruct (NodeRef_eqb (fn s) here); simpl;
    [|rewrite Hst; reflexivity].
  f_equal. f_equal.
  unfold retype; simpl. destruct (NodeRef_eqb (callee s) c0); reflexivity.
Qed.

Lemma fnsOf_enterFunction (c0 here : NodeRef) (st : State) :
  fnsOf c0 (wrappedScope (enterFunction here st)) = fnsOf c0 (wrappedScope st).
Proof.
  unfold enterFunction.
  destruct (wrappedScope st) as [|s u] eqn:Hst; [rewrite Hst; reflexivity|].
  destruct (NodeRef_eqb (fn s) here); simpl; [|rewrite Hst; reflexivity].
  unfold fnsOf; simpl. destruct (NodeRef_eqb (callee s) c0); reflexivity.
Qed.

Lemma retype_exitFunction (c0 : NodeRef)
    (tp : option TSTypeParameterInstantiation) (here : NodeRef) (st : State) :
  apart c0 here (wrappedScope st) ->
  exitFunction here (retypeState c0 tp st)
  = retypeState c0 tp (exitFunction here st).
Proof.
  intros Ha. unfold exitFunction, retypeState; simpl.
  destruct (wrappedScope st) as [|s u] eqn:Hst; simpl;
    [rewrite Hst; reflexivity|].
  destruct (retype_fields c0 tp s) as (F & C & I & U & W).
  rewrite F. destruct (NodeRef_eqb (fn s) here) eqn:E; simpl;
    [|rewrite Hst; reflexivity].
  apply NodeRef_eqb_eq in E.
  rewrite retype_other; [reflexivity|].
  intros Hc. apply (Ha (fn s)).
  - unfold fnsOf; simpl. apply NodeRef_eqb_eq in Hc. rewrite Hc. left; reflexivity.
  - rewrite E. apply within_refl.
Qed.

Lemma fnsOf_exitFunction (c0 here : NodeRef) (st : State) :
  incl (fnsOf c0 (wrappedScope (exitFunction here st)))
       (fnsOf c0 (wrappedScope st)).
Proof.
  unfold exitFunction.
  destruct (wrappedScope st) as [|s u] eqn:Hst;
    [rewrite Hst; apply incl_refl|].
  destruct (NodeRef_eqb (fn s) here); simpl; [|rewrite Hst; apply incl_refl].
  unfold fnsOf; simpl. destruct (NodeRef_eqb (callee s) c0); simpl;
    [apply incl_tl|]; apply incl_refl.
Qed.

Lemma not_within_child (here c0 : NodeRef) (x : Step) :
  ~ within here c0 -> ~ within (here ++ [x]) c0.
Proof. intros H Hw. apply H. eapply within_child; eassumption. Qed.

Lemma not_within_callee (here c0 : NodeRef) :
  ~ within here c0 -> here ++ [callee_] <> c0.
Proof. intros H E. apply H. exists [callee_]. auto. Qed.

Lemma child_commutes (opts : Options) (c0 : NodeRef)
    (tp : option TSTypeParameterInstantiation)
    (me : option (NodeRef * Node)) (here : NodeRef) (x : Step) (c : Node)
    (st : State) :
  commutes opts c0 tp c ->
  ~ within here c0 ->
  apart c0 here (wrappedScope st) ->
  traverse opts me (here ++ [x]) c (retypeState c0 tp st)
  = retypeState c0 tp (traverse opts me (here ++ [x]) c st)
  /\ incl (fnsOf c0 (wrappedScope (traverse opts me (here ++ [x]) c st)))
          (fnsOf c0 (wrappedScope st)).
Proof.
  intros H Hw Ha. apply H; [apply not_within_child | apply apart_child]; assumption.
Qed.

Lemma children_commute_at (opts : Options) (c0 : NodeRef)
    (tp : option TSTypeParameterInstantiation)
    (me : option (NodeRef * Node)) (here : NodeRef) (mk : nat -> Step)
    (l : list Node) :
  Forall (commutes opts c0 tp) l ->
  (forall j, ~ within (here ++ [mk j]) c0) ->
  forall (i : nat) (st : State),
    (forall j, apart c0 (here ++ [mk j]) (wrappedScope st)) ->
    visitEach (traverse opts me) (fun i => here ++ [mk i]) i l
              (retypeState c0 tp st)
    = retypeState c0 tp
        (visitEach (traverse opts me) (fun i => here ++ [mk i]) i l st)
    /\ incl (fnsOf c0
               (wrappedScope
                  (visitEach (traverse opts me) (fun i => here ++ [mk i]) i l st)))
            (fnsOf c0 (wrappedScope st)).
Proof.
  induction 1 as [|c l Hc Hl IH]; intros Hw i st Ha; simpl.
  - split; [reflexivity | apply incl_refl].
  - destruct (Hc me (here ++ [mk i]) st (Hw i) (Ha i)) as [E I].
    rewrite E.
    destruct (IH Hw (S i) (traverse opts me (here ++ [mk i]) c st)
                 (fun j => apart_incl _ _ _ _ I (Ha j))) as [E' I'].
    split; [exact E' | eapply incl_tran; eassumption].
Qed.

Lemma children_commute (opts : Options) (c0 : NodeRef)
    (tp : option TSTypeParameterInstantiation)
    (me : option (NodeRef * Node)) (here : NodeRef) (mk : nat -> Step)
    (l : list Node) :
  Forall (commutes opts c0 tp) l ->
  ~ within here c0 ->
  forall (i : nat) (st : State),
    apart c0 here (wrappedScope st) ->
    visitEach (traverse opts me) (fun i => here ++ [mk i]) i l
              (retypeState c0 tp st)
    = retypeState c0 tp
        (visitEach (traverse opts me) (fun i => here ++ [mk i]) i l st)
    /\ incl (fnsOf c0
               (wrappedScope
                  (visitEach (traverse opts me) (fun i => here ++ [mk i]) i l st)))
            (fnsOf c0 (wrappedScope st)).
Proof.
  intros Hl Hw i st Ha. apply children_commute_at; auto.
  - intros j. apply not_within_child; exact Hw.
  - intros j. apply apart_child; exact Ha.
Qed.

Lemma function_commutes (opts : Options) (c0 : NodeRef)
    (tp : option TSTypeParameterInstantiation) (n : Node) (ps : list Node)
    (b : Node) :
  (forall parent here st,
      traverse opts parent here n st
      = exitFunction here
          (traverse opts (Some (here, n)) (here ++ [body_]) b
             (visitEach (traverse opts (Some (here, n)))
                        (fun i => here ++ [params_ i]) 0 ps
                        (enterFunction here st)))) ->
  Forall (commutes opts c0 tp) ps ->
  commutes opts c0 tp b ->
  commutes opts c0 tp n.
Proof.
  intros Hun Hps Hb parent here st Hw Ha. rewrite !Hun.
  rewrite retype_enterFunction.
  assert (A1 : apart c0 here (wrappedScope (enterFunction here st))).
  { intros r Hr. apply Ha. rewrite <- (fnsOf_enterFunction c0 here st). exact Hr. }
  destruct (children_commute opts c0 tp (Some (here, n)) here params_ ps Hps Hw
              0 _ A1) as [E2 I2].
  rewrite E2.
  set (st2 := visitEach _ _ 0 ps (enterFunction here st)) in *.
  assert (A2 : apart c0 here (wrappedScope st2))
    by (eapply apart_incl; eassumption).
  destruct (child_commutes opts c0 tp (Some (here, n)) here body_ b st2 Hb Hw A2)
    as [E3 I3].
  rewrite E3.
  set (st3 := traverse opts _ (here ++ [body_]) b st2) in *.
  assert (A3 : apart c0 here (wrappedScope st3))
    by (eapply apart_incl; eassumption).
  split; [apply retype_exitFunction; exact A3|].
  eapply incl_tran; [apply fnsOf_exitFunction|].
  eapply incl_tran; [exact I3|]. eapply incl_tran; [exact I2|].
  rewrite fnsOf_enterFunction. apply incl_refl.
Qed.

(** The walk of any subtree that does not contain the construct at [c0]
    runs the same whatever that construct's type-parameter list is. *)
Lemma traverse_commutes (opts : Options) (c0 : NodeRef)
    (tp : option TSTypeParameterInstantiation) (n : Node) :
  commutes opts c0 tp n.
Proof.
  induction n as [name|raw|c IHc tps args IHargs|a IHa|o IHo p IHp
                  |async ps IHps b IHb|async ps IHps b IHb|cs IHcs].
  - intros parent here st _ _. split; [reflexivity | apply incl_refl].
  - intros parent here st _ _. split; [reflexivity | apply incl_refl].
  - apply list_all_Forall in IHargs.
    intros parent here st Hw Ha. rewrite !traverse_call. cbv zeta.
    rewrite retype_onWrapCall by (apply not_within_callee; exact Hw).
    rewrite retype_onUnwrapCall.
    set (st2 := onUnwrapCall opts here c args (onWrapCall opts here c tps parent st)).
    assert (F2 : fnsOf c0 (wrappedScope st2) = fnsOf c0 (wrappedScope st)).
    { unfold st2. rewrite (frame_fnsOf c0 _ _ (onUnwrapCall_frame _ _ _ _ _)).
      apply fnsOf_onWrapCall. apply not_within_callee; exact Hw. }
    assert (A2 : apart c0 here (wrappedScope st2))
      by (intros r Hr; apply Ha; rewrite <- F2; exact Hr).
    destruct (child_commutes opts c0 tp (Some (here, CallExpression c tps args))
                here callee_ c st2 IHc Hw A2) as [E3 I3].
    rewrite E3.
    set (st3 := traverse opts _ (here ++ [callee_]) c st2) in *.
    assert (A3 : apart c0 here (wrappedScope st3))
      by (eapply apart_incl; eassumption).
    destruct (children_commute opts c0 tp (Some (here, CallExpression c tps args))
                here arguments_ args IHargs Hw 0 st3 A3) as [E4 I4].
    split; [exact E4|].
    eapply incl_tran; [exact I4|]. eapply incl_tran; [exact I3|].
    rewrite F2. apply incl_refl.
  - intros parent here st Hw Ha.
    apply (child_commutes opts c0 tp (Some (here, AwaitExpression a))
             here argument_ a st IHa Hw Ha).
  - intros parent here st Hw Ha.
    destruct (child_commutes opts c0 tp (Some (here, MemberExpression o p))
                here object_ o st IHo Hw Ha) as [E1 I1].
    change (traverse opts parent here (MemberExpression o p))
      with (fun s =>
              traverse opts (Some (here, MemberExpression o p)) (here ++ [property_]) p
                (traverse opts (Some (here, MemberExpression o p)) (here ++ [object_]) o s)).
    cbv beta. rewrite E1.
    destruct (child_commutes opts c0 tp (Some (here, MemberExpression o p))
                here property_ p _ IHp Hw (apart_incl _ _ _ _ I1 Ha)) as [E2 I2].
    split; [exact E2 | eapply incl_tran; eassumption].
  - apply (function_commutes opts c0 tp _ ps b); auto using list_all_Forall.
  - apply (function_commutes opts c0 tp _ ps b); auto using list_all_Forall.
  - apply list_all_Forall in IHcs.
    intros parent here st Hw Ha.
    apply (children_commute opts c0 tp (Some (here, OtherNode cs)) here
             children_ cs IHcs Hw 0 st Ha).
Qed.

(* ===================================================================== *)
(** ** Properties kept by every callback are kept by the walk *)
(* ===================================================================== *)

Section Preserved.
Variable opts : Options.
Variable R : State -> State -> Prop.
Hypothesis R_refl : forall st, R st st.
Hypothesis R_trans : forall a b c, R a b -> R b c -> R a c.
Hypothesis R_onWrapCall :
  forall here c tps parent st, R st (onWrapCall opts here c tps parent st).
Hypothesis R_onUnwrapCall :
  forall here c args st, R st (onUnwrapCall opts here c args st).
Hypothesis R_enterFunction : forall here st, R st (enterFunction here st).
Hypothesis R_exitFunction : forall here st, R st (exitFunction here st).

Lemma visitEach_preserved (visit : NodeRef -> Node -> State -> State)
    (at_ : nat -> NodeRef) (l : list Node) :
  Forall (fun c => forall h st, R st (visit h c st)) l ->
  forall i st, R st (visitEach visit at_ i l st).
Proof.
  induction 1 as [|c l Hc Hl IH]; intros i st; simpl; [apply R_refl|].
  eapply R_trans; [apply Hc | apply IH].
Qed.

Lemma traverse_preserved (n : Node) :
  forall parent here st, R st (traverse opts parent here n st).
Proof.
  induction n as [name|raw|c IHc tps args IHargs|a IHa|o IHo p IHp
                  |async ps IHps b IHb|async ps IHps b IHb|cs IHcs];
    intros parent here st.
  - apply R_refl.
  - apply R_refl.
  - rewrite traverse_call. cbv zeta.
    eapply R_trans; [apply R_onWrapCall|].
    eapply R_trans; [apply R_onUnwrapCall|].
    eapply R_trans; [apply IHc|].
    apply visitEach_preserved. apply list_all_Forall in IHargs.
    eapply Forall_impl; [|exact IHargs]. intros x Hx h s. apply Hx.
  - apply IHa.
  - simpl. eapply R_trans; [apply IHo | apply IHp].
  - simpl. eapply R_trans; [apply R_enterFunction|].
    eapply R_trans; [|apply R_exitFunction].
    eapply R_trans; [|apply IHb].
    apply visitEach_preserved. apply list_all_Forall in IHps.
    eapply Forall_impl; [|exact IHps]. intros x Hx h s. apply Hx.
  - simpl. eapply R_trans; [apply R_enterFunction|].
    eapply R_trans; [|apply R_exitFunction].
    eapply R_trans; [|apply IHb].
    apply visitEach_preserved. apply list_all_Forall in IHps.
    eapply Forall_impl; [|exact IHps]. intros x Hx h s. apply Hx.
  - simpl. apply visitEach_preserved. apply list_all_Forall in IHcs.
    eapply Forall_impl; [|exact IHcs]. intros x Hx h s. apply Hx.
Qed.

End Preserved.

Lemma extends_refl (st : State) : extends st st.
Proof. exists []. rewrite app_nil_r. reflexivity. Qed.

Lemma extends_trans (a b c : State) : extends a b -> extends b c -> extends a c.
Proof.
  intros [x Hx] [y Hy]. exists (x ++ y). rewrite Hy, Hx, app_assoc. reflexivity.
Qed.

(** The walk never retracts a report. *)
Lemma traverse_extends (opts : Options) (n : Node)
    (parent : option (NodeRef * Node)) (here : NodeRef) (st : State) :
  extends st (traverse opts parent here n st).
Proof.
  apply traverse_preserved.
  - apply extends_refl.
  - apply extends_trans.
  - intros h c tps p s. rewrite (onWrapCall_spec opts h c tps []).
    destruct (opensWrap opts _ p); [|apply extends_refl].
    exists []. simpl. rewrite app_nil_r. reflexivity.
  - intros h c args s. unfold onUnwrapCall.
    destruct (wrappedScope s) as [|sc u]; [apply extends_refl|].
    destruct (inFn sc); [|apply extends_refl].
    destruct c; try apply extends_refl.
    destruct (String.eqb name (unwrapName opts)); [|apply extends_refl].
    destruct args as [|arg [|? ?]]; try apply extends_refl.
    cbn [negb]. destruct (callExprOf h arg) as [r ce].
    destruct ce as [| |cc ? ?| | | | |];
      try (eexists; reflexivity).
    destruct cc; try (eexists; reflexivity).
    exists []. simpl. rewrite app_nil_r. reflexivity.
  - intros h s. unfold enterFunction.
    destruct (wrappedScope s) as [|sc u]; [apply extends_refl|].
    destruct (NodeRef_eqb (fn sc) h); [|apply extends_refl].
    exists []. simpl. rewrite app_nil_r. reflexivity.
  - intros h s. unfold exitFunction.
    destruct (wrappedScope s) as [|sc u]; [apply extends_refl|].
    destruct (NodeRef_eqb (fn sc) h); [eexists; reflexivity | apply extends_refl].
Qed.

Lemma visitEach_extends (opts : Options) (me : option (NodeRef * Node))
    (at_ : nat -> NodeRef) (l : list Node) (i : nat) (st : State) :
  extends st (visitEach (traverse opts me) at_ i l st).
Proof.
  apply visitEach_preserved;
    [apply extends_refl | apply extends_trans |].
  apply Forall_forall. intros c _ h s. apply traverse_extends.
Qed.

(** Every scope on the chain stays pristine throughout a walk, so the
    assumptions on [wrappedFns] made at function exit hold there. *)
Lemma traverse_pristine (opts : Options) (n : Node)
    (parent : option (NodeRef * Node)) (here : NodeRef) (st : State) :
  Forall pristine (wrappedScope st) ->
  Forall pristine (wrappedScope (traverse opts parent here n st)).
Proof.
  apply (traverse_preserved opts
           (fun a b => Forall pristine (wrappedScope a) ->
                       Forall pristine (wrappedScope b))).
  - auto.
  - auto.
  - intros h c tps p s H. rewrite (onWrapCall_spec opts h c tps []).
    destruct (opensWrap opts _ p); [|exact H].
    constructor; [|exact H]. split; [reflexivity | constructor].
  - intros h c args s H.
    pose proof (onUnwrapCall_frame opts h c args s) as F.
    destruct (wrappedScope s) as [|a u],
             (wrappedScope (onUnwrapCall opts h c args s)) as [|a' u'];
      simpl in F; try tauto.
    destruct F as [-> (_ & _ & _ & _ & W & _ & N)].
    inversion H as [|? ? [Ha1 Ha2] Hu]; subst.
    constructor; [|exact Hu]. split; [congruence | auto].
  - intros h s H. unfold enterFunction.
    destruct (wrappedScope s) as [|a u] eqn:E; [rewrite E; exact H|].
    destruct (NodeRef_eqb (fn a) h); simpl; [|rewrite E; exact H].
    inversion H; subst. constructor; assumption.
  - intros h s H. unfold exitFunction.
    destruct (wrappedScope s) as [|a u] eqn:E; [rewrite E; exact H|].
    destruct (NodeRef_eqb (fn a) h); simpl; [|rewrite E; exact H].
    inversion H; assumption.
Qed.


(* ===================================================================== *)
(** ** Walking one wrap construct, for any type-parameter list *)
(* ===================================================================== *)

(** Only the arguments of the parent call matter to the walk of a child. *)
Lemma traverse_parent_arguments (opts : Options) (r : NodeRef)
    (pc pc' : Node) (ptps ptps' : option (list TSType)) (pargs : list Node)
    (here : NodeRef) (n : Node) (st : State) :
  traverse opts (Some (r, CallExpression pc ptps pargs)) here n st
  = traverse opts (Some (r, CallExpression pc' ptps' pargs)) here n st.
Proof.
  destruct n as [| |c tps args| | | | |]; reflexivity.
Qed.

Lemma visitEach_ext (f g : NodeRef -> Node -> State -> State)
    (at_ : nat -> NodeRef) (l : list Node) :
  (forall h c st, f h c st = g h c st) ->
  forall i st, visitEach f at_ i l st = visitEach g at_ i l st.
Proof.
  intros H. induction l as [|c l IH]; intros i st; simpl; [reflexivity|].
  rewrite H. apply IH.
Qed.

Lemma function_traverse (opts : Options) (fnLit : Node) :
  isFunctionLiteral fnLit = true ->
  exists ps b,
    forall parent here st,
      traverse opts parent here fnLit st
      = exitFunction here
          (traverse opts (Some (here, fnLit)) (here ++ [body_]) b
             (visitEach (traverse opts (Some (here, fnLit)))
                        (fun i => here ++ [params_ i]) 0 ps
                        (enterFunction here st))).
Proof.
  destruct fnLit; try discriminate; intros _; eexists; eexists; reflexivity.
Qed.

(** Parameters and body of a function literal leave the chain in place. *)
Lemma function_inside_frame (opts : Options) (n : Node) (ps : list Node)
    (b : Node) (here : NodeRef) (st : State) :
  isFunctionLiteral n = true ->
  clear here (wrappedScope st) ->
  frame (wrappedScope st)
        (wrappedScope
           (traverse opts (Some (here, n)) (here ++ [body_]) b
              (visitEach (traverse opts (Some (here, n)))
                         (fun i => here ++ [params_ i]) 0 ps st))).
Proof.
  intros Hfun Hc.
  assert (Hno : forall c, opensWrap opts c (Some (here, n)) = false).
  { intros c. destruct (opensWrap opts c (Some (here, n))) eqn:E; [|reflexivity].
    apply opensWrap_parent_call in E. destruct E as (pc & ptps & fn0 & ->).
    discriminate. }
  assert (F1 := children_frame opts n here params_ ps
                  (proj2 (Forall_forall _ _)
                         (fun c _ => traverse_walksWell opts c))
                  (fun c _ => Hno c) 0 st Hc).
  eapply frame_trans; [exact F1|].
  apply child_frame; auto using traverse_walksWell.
  eapply frame_clear; eassumption.
Qed.

Lemma fnsOf_none (c0 : NodeRef) (chain : list WrapScope) :
  (forall s, In s chain -> callee s <> c0) -> fnsOf c0 chain = [].
Proof.
  unfold fnsOf. induction chain as [|s u IH]; intros H; simpl; [reflexivity|].
  pose proof (H s (or_introl eq_refl)) as Hs. apply NodeRef_eqb_neq in Hs.
  rewrite Hs. apply IH. intros x Hx. apply H. right; exact Hx.
Qed.

Lemma retype_none (c0 : NodeRef) (tp : option TSTypeParameterInstantiation)
    (chain : list WrapScope) :
  (forall s, In s chain -> callee s <> c0) -> map (retype c0 tp) chain = chain.
Proof.
  induction chain as [|s u IH]; intros H; simpl; [reflexivity|].
  rewrite retype_other by (apply H; left; reflexivity).
  rewrite IH; [reflexivity|]. intros x Hx. apply H. right; exact Hx.
Qed.


(** With nothing recorded the fix text is [<>]: the list it denotes is
    empty and is reported like a missing one. *)
Lemma reconcile_fixed_empty (scope : WrapScope) (tp : NodeRef) :
  wrappedFns scope = JsMap.empty ->
  unwrappedFns scope = [] ->
  typeParameters scope = Some (mkTypeParameters tp (fixedTypeParameters [])) ->
  fixText (synthesizeFix scope) = "<>"
  /\ reconcile scope
     = [mkReport missingTypeParamInWrap (callee scope) None;
        mkReport badWrap (callee scope) (Some (synthesizeFix scope))].
Proof.
  intros Hw Hu Htp. split.
  - unfold synthesizeFix. rewrite Hu. reflexivity.
  - destruct (reconcile_missing scope Hw) as [E _].
    + rewrite Htp. simpl. discriminate.
    + rewrite E, Hu. reflexivity.
Qed.

Ltac path_absurd :=
  let E := fresh "E" in
  intros [? E]; repeat rewrite <- app_assoc in E; simpl in E;
  first [ apply app_inv_head in E; discriminate
        | apply (f_equal (@length Step)) in E;
          rewrite !length_app in E; simpl in E; lia ].

(** The walk of a wrap construct splits into reports that do not depend
    on its type-parameter list, followed by the reconciliation of its
    closing scope; the chain is given back unchanged. *)
Lemma traverse_wrapConstruct_split (opts : Options) (args0 : list Node)
    (ptps : option (list TSType)) (fnLit : Node)
    (parent : option (NodeRef * Node)) (here : NodeRef) (st : State) :
  isFunctionLiteral fnLit = true ->
  isAsync fnLit = true ->
  clear here (wrappedScope st) ->
  (forall s, In s (wrappedScope st) ->
             callee s <> (here ++ [callee_]) ++ [callee_]) ->
  exists (inside : list Report) (recorded : JsMap.t NodeRef),
    NoDup (JsMap.keys recorded)
    /\ forall tps,
         traverse opts parent here (wrapConstruct opts tps args0 ptps fnLit) st
         = mkState (wrappedScope st)
             (reported st ++ inside
                ++ reconcile (closingScope here tps recorded)).
Proof.
  intros Hf Ha Hclear Hfresh.
  set (c0 := (here ++ [callee_]) ++ [callee_]) in *.
  set (fnpos := (here ++ [arguments_ 0] : NodeRef)).
  set (inner0 := CallExpression (Identifier (wrapName opts)) None args0).
  set (me0 := wrapConstruct opts None args0 ptps fnLit).
  set (st1 := mkState
                (openedScope (here ++ [callee_]) None here :: wrappedScope st)
                (reported st)).
  set (st2 := visitEach (traverse opts (Some (here ++ [callee_], inner0)))
                (fun i => (here ++ [callee_]) ++ [arguments_ i]) 0 args0 st1).
  destruct (function_traverse opts fnLit Hf) as (ps & b & Hun).
  set (st3 := traverse opts (Some (fnpos, fnLit)) (fnpos ++ [body_]) b
                (visitEach (traverse opts (Some (fnpos, fnLit)))
                   (fun i => fnpos ++ [params_ i]) 0 ps
                   (enterFunction fnpos st2))).
  (* the chain along the walk for the empty list *)
  assert (C2 : wrappedScope st2 = wrappedScope st1).
  { apply frame_idle; [|reflexivity].
    apply (children_frame opts inner0 (here ++ [callee_]) arguments_ args0).
    - apply Forall_forall. intros c _. apply traverse_walksWell.
    - intros c Hc. apply argument_never_opens; exact Hc.
    - apply clear_cons; [|apply clear_child; exact Hclear].
      simpl. intros (y & rest & E). rewrite <- app_assoc in E.
      apply app_inv_head in E. discriminate. }
  assert (E2 : enterFunction fnpos st2
               = mkState (entered (openedScope (here ++ [callee_]) None here)
                            :: wrappedScope st)
                         (reported st2)).
  { unfold enterFunction. rewrite C2. simpl.
    fold fnpos. rewrite NodeRef_eqb_refl. reflexivity. }
  assert (F3 : frame (wrappedScope (enterFunction fnpos st2)) (wrappedScope st3)).
  { apply function_inside_frame; [exact Hf|]. rewrite E2. simpl.
    apply clear_cons; [apply not_strictlyBelow_self|].
    apply clear_child; exact Hclear. }
  rewrite E2 in F3. simpl in F3.
  destruct (wrappedScope st3) as [|s3 u3] eqn:C3; [contradiction|].
  destruct F3 as [-> (G1 & G2 & G3 & G4 & G5 & _ & G7)].
  simpl in G1, G2, G3, G4, G5, G7.
  assert (S3 : s3 = closingScope here None (unwrappedFns s3)).
  { destruct s3; unfold closingScope; simpl in *; congruence. }
  assert (X3 : extends st st3).
  { apply (extends_trans st st1);
      [exists []; simpl; rewrite app_nil_r; reflexivity|].
    apply (extends_trans st1 st2); [apply visitEach_extends|].
    apply (extends_trans st2 (enterFunction fnpos st2)).
    - rewrite E2. exists []. simpl. rewrite app_nil_r. reflexivity.
    - eapply extends_trans; [apply visitEach_extends | apply traverse_extends]. }
  destruct X3 as [inside Hinside].
  exists inside, (unwrappedFns s3).
  split; [apply G7; constructor|].
  intros tps.
  set (tp := option_map
               (mkTypeParameters ((here ++ [callee_]) ++ [typeParameters_])) tps).
  rewrite traverse_wrapConstruct by assumption. cbv zeta.
  (* the state after the push is the retyped state of the empty-list walk *)
  assert (R1 : mkState
                 (openedScope (here ++ [callee_]) tps here :: wrappedScope st)
                 (reported st)
               = retypeState c0 tp st1).
  { unfold retypeState, st1; simpl.
    rewrite (retype_none c0 tp _ Hfresh).
    unfold retype; simpl. fold c0. rewrite NodeRef_eqb_refl. reflexivity. }
  rewrite R1.
  rewrite (visitEach_ext _ (traverse opts (Some (here ++ [callee_], inner0))))
    by (intros; apply traverse_parent_arguments).
  unfold wrapConstruct.
  rewrite (traverse_parent_arguments opts here _ (CallExpression
             (Identifier (wrapName opts)) None args0) ptps ptps [fnLit]).
  assert (A1 : fnsOf c0 (wrappedScope st1) = [fnpos]).
  { unfold fnsOf, st1; simpl. fold c0. rewrite NodeRef_eqb_refl. simpl.
    fold (fnsOf c0 (wrappedScope st)). rewrite (fnsOf_none c0 _ Hfresh).
    reflexivity. }
  destruct (children_commute_at opts c0 tp (Some (here ++ [callee_], inner0))
              (here ++ [callee_]) arguments_ args0
              (proj2 (Forall_forall _ _)
                     (fun c _ => traverse_commutes opts c0 tp c))) 
    with (i := 0) (st := st1) as [K2 I2].
  { intros j. unfold c0. path_absurd. }
  { intros j r Hr. rewrite A1 in Hr. destruct Hr as [<-|[]].
    unfold fnpos. path_absurd. }
  fold st2 in K2, I2. rewrite K2.
  rewrite Hun, retype_enterFunction. fold fnpos.
  assert (A2 : incl (fnsOf c0 (wrappedScope (enterFunction fnpos st2))) [fnpos]).
  { rewrite fnsOf_enterFunction, <- A1. exact I2. }
  destruct (children_commute_at opts c0 tp (Some (fnpos, fnLit)) fnpos params_ ps
              (proj2 (Forall_forall _ _)
                     (fun c _ => traverse_commutes opts c0 tp c)))
    with (i := 0) (st := enterFunction fnpos st2) as [K3 I3].
  { intros j. unfold c0, fnpos. path_absurd. }
  { intros j r Hr. apply A2 in Hr. destruct Hr as [<-|[]].
    unfold fnpos. path_absurd. }
  rewrite K3.
  destruct (traverse_commutes opts c0 tp b (Some (fnpos, fnLit)) (fnpos ++ [body_])
              (visitEach (traverse opts (Some (fnpos, fnLit)))
                 (fun i => fnpos ++ [params_ i]) 0 ps (enterFunction fnpos st2)))
    as [K4 _].
  { unfold c0, fnpos. path_absurd. }
  { intros r Hr. apply I3, A2 in Hr. destruct Hr as [<-|[]].
    unfold fnpos. path_absurd. }
  rewrite K4. fold st3.
  unfold exitFunction, retypeState. simpl. rewrite C3. simpl.
  destruct (retype_fields c0 tp s3) as (F & _).
  rewrite F, G1. fold fnpos. rewrite NodeRef_eqb_refl. simpl.
  rewrite (retype_none c0 tp _ Hfresh), Hinside, <- app_assoc.
  f_equal. f_equal. f_equal.
  rewrite S3. unfold retype, closingScope. simpl. fold c0.
  rewrite NodeRef_eqb_refl. reflexivity.
Qed.

(* ===================================================================== *)
(** ** The walk, node by node *)
(* ===================================================================== *)

Lemma visitEach_indexed (opts : Options) (me : option (NodeRef * Node))
    (here : NodeRef) (mk : nat -> Step) (l : list Node) :
  forall i st,
    visitEach (traverse opts me) (fun i => here ++ [mk i]) i l st
    = walkKids opts me here (indexed mk i l) st.
Proof.
  induction l as [|c l IH]; intros i st; simpl; [reflexivity|]. apply IH.
Qed.

Lemma walkKids_app (opts : Options) (me : option (NodeRef * Node))
    (here : NodeRef) (ks1 ks2 : list (Step * Node)) (st : State) :
  walkKids opts me here (ks1 ++ ks2) st
  = walkKids opts me here ks2 (walkKids opts me here ks1 st).
Proof. unfold walkKids. apply fold_left_app. Qed.

Lemma traverse_unfold (opts : Options) (parent : option (NodeRef * Node))
    (here : NodeRef) (n : Node) (st : State) :
  traverse opts parent here n st
  = leave here n
      (walkKids opts (Some (here, n)) here (kids n)
         (arrive opts parent here n st)).
Proof.
  destruct n; simpl; rewrite ?visitEach_indexed, ?walkKids_app; reflexivity.
Qed.

(* ===================================================================== *)
(** ** Reports already made do not influence the walk *)
(* ===================================================================== *)

Section Commuting.
Variable opts : Options.
Variable T : State -> State.
Hypothesis T_onWrapCall :
  forall here c tps parent st,
    onWrapCall opts here c tps parent (T st)
    = T (onWrapCall opts here c tps parent st).
Hypothesis T_onUnwrapCall :
  forall here c args st,
    onUnwrapCall opts here c args (T st) = T (onUnwrapCall opts here c args st).
Hypothesis T_enterFunction :
  forall here st, enterFunction here (T st) = T (enterFunction here st).
Hypothesis T_exitFunction :
  forall here st, exitFunction here (T st) = T (exitFunction here st).

Lemma visitEach_commuting (visit : NodeRef -> Node -> State -> State)
    (at_ : nat -> NodeRef) (l : list Node) :
  Forall (fun c => forall h st, visit h c (T st) = T (visit h c st)) l ->
  forall i st, visitEach visit at_ i l (T st) = T (visitEach visit at_ i l st).
Proof.
  induction 1 as [|c l Hc Hl IH]; intros i st; simpl; [reflexivity|].
  rewrite Hc. apply IH.
Qed.

Lemma traverse_commuting (n : Node) :
  forall parent here st,
    traverse opts parent here n (T st) = T (traverse opts parent here n st).
Proof.
  induction n as [name|raw|c IHc tps args IHargs|a IHa|o IHo p IHp
                  |async ps IHps b IHb|async ps IHps b IHb|cs IHcs];
    intros parent here st; try reflexivity.
  - rewrite !traverse_call. cbv zeta.
    rewrite T_onWrapCall, T_onUnwrapCall, IHc.
    apply visitEach_commuting. apply list_all_Forall in IHargs.
    eapply Forall_impl; [|exact IHargs]. intros x Hx h s. apply Hx.
  - apply IHa.
  - simpl. rewrite IHo. apply IHp.
  - simpl. rewrite T_enterFunction.
    rewrite visitEach_commuting, IHb; [apply T_exitFunction|].
    apply list_all_Forall in IHps.
    eapply Forall_impl; [|exact IHps]. intros x Hx h s. apply Hx.
  - simpl. rewrite T_enterFunction.
    rewrite visitEach_commuting, IHb; [apply T_exitFunction|].
    apply list_all_Forall in IHps.
    eapply Forall_impl; [|exact IHps]. intros x Hx h s. apply Hx.
  - simpl. apply visitEach_commuting. apply list_all_Forall in IHcs.
    eapply Forall_impl; [|exact IHcs]. intros x Hx h s. apply Hx.
Qed.

End Commuting.

Lemma prepend_onWrapCall (opts : Options) (front : list Report)
    (here : NodeRef) (c : Node) (tps : option (list TSType))
    (parent : option (NodeRef * Node)) (st : State) :
  onWrapCall opts here c tps parent (prepend front st)
  = prepend front (onWrapCall opts here c tps parent st).
Proof.
  rewrite !(onWrapCall_spec opts here c tps []).
  destruct (opensWrap opts _ parent); reflexivity.
Qed.

Lemma prepend_onUnwrapCall (opts : Options) (front : list Report)
    (here : NodeRef) (c : Node) (args : list Node) (st : State) :
  onUnwrapCall opts here c args (prepend front st)
  = prepend front (onUnwrapCall opts here c args st).
Proof.
  unfold onUnwrapCall, prepend; simpl.
  destruct (wrappedScope st) as [|s u] eqn:Hst; [rewrite Hst; reflexivity|].
  destruct (inFn s); simpl; [|rewrite Hst; reflexivity].
  destruct c; try (rewrite Hst; reflexivity).
  destruct (String.eqb name (unwrapName opts)); simpl;
    [|rewrite Hst; reflexivity].
  destruct args as [|arg [|? ?]]; try (rewrite Hst; reflexivity).
  destruct (callExprOf here arg) as [r ce].
  destruct ce as [| |cc ? ?| | | | |];
    try (unfold report; simpl; rewrite Hst, <- app_assoc; reflexivity).
  destruct cc;
    try (unfold report; simpl; rewrite Hst, <- app_assoc; reflexivity).
  reflexivity.
Qed.

Lemma prepend_enterFunction (front : list Report) (here : NodeRef) (st : State) :
  enterFunction here (prepend front st) = prepend front (enterFunction here st).
Proof.
  unfold enterFunction, prepend; simpl.
  destruct (wrappedScope st) as [|s u] eqn:Hst; [rewrite Hst; reflexivity|].
  destruct (NodeRef_eqb (fn s) here); simpl; [|rewrite Hst]; reflexivity.
Qed.

Lemma prepend_exitFunction (front : list Report) (here : NodeRef) (st : State) :
  exitFunction here (prepend front st) = prepend front (exitFunction here st).
Proof.
  unfold exitFunction, prepend; simpl.
  destruct (wrappedScope st) as [|s u] eqn:Hst; [rewrite Hst; reflexivity|].
  destruct (NodeRef_eqb (fn s) here); simpl;
    [rewrite <- app_assoc | rewrite Hst]; reflexivity.
Qed.

Lemma prepend_traverse (opts : Options) (front : list Report) (n : Node)
    (parent : option (NodeRef * Node)) (here : NodeRef) (st : State) :
  traverse opts parent here n (prepend front st)
  = prepend front (traverse opts parent here n st).
Proof.
  apply traverse_commuting.
  - apply prepend_onWrapCall.
  - apply prepend_onUnwrapCall.
  - apply prepend_enterFunction.
  - apply prepend_exitFunction.
Qed.

Lemma prepend_walkKids (opts : Options) (front : list Report)
    (me : option (NodeRef * Node)) (here : NodeRef) (ks : list (Step * Node)) :
  forall st,
    walkKids opts me here ks (prepend front st)
    = prepend front (walkKids opts me here ks st).
Proof.
  induction ks as [|k ks IH]; intros st; [reflexivity|].
  unfold walkKids in *; simpl. rewrite prepend_traverse. apply IH.
Qed.

Lemma prepend_leave (front : list Report) (here : NodeRef) (n : Node) (st : State) :
  leave here n (prepend front st) = prepend front (leave here n st).
Proof. destruct n; try reflexivity; apply prepend_exitFunction. Qed.

(* ===================================================================== *)
(** ** What the listeners see of the tree *)
(* ===================================================================== *)

Lemma onUnwrapCall_seen (opts : Options) (here : NodeRef) (c : Node)
    (args : list Node) (st : State) :
  onUnwrapCall opts here c args st
  = onUnwrapSeen opts here (calleeName c) (seenArguments args) st.
Proof.
  unfold onUnwrapCall, onUnwrapSeen.
  destruct (wrappedScope st) as [|s u]; [reflexivity|].
  destruct (inFn s); [|reflexivity]. cbn [negb].
  destruct c; try reflexivity. cbn [calleeName].
  destruct (String.eqb name (unwrapName opts)); [|reflexivity]. cbn [negb].
  destruct args as [|arg [|? ?]]; try reflexivity.
  destruct arg as [| |cc ? ?|a| | | |]; try reflexivity.
  - destruct cc; reflexivity.
  - destruct a as [| |cc ? ?| | | | |]; try reflexivity.
    destruct cc; reflexivity.
Qed.

Lemma opensWrap_seen (opts : Options) (c : Node) (tps : option (list TSType))
    (args : list Node) (parent : option (NodeRef * Node)) :
  opensWrap opts (CallExpression c tps args) parent
  = match calleeName c, parent with
    | Some name, Some (_, m) => String.eqb name (wrapName opts) && wrapShape m
    | _, _ => false
    end.
Proof.
  destruct c; try reflexivity. simpl.
  destruct parent as [[r m]|]; [|reflexivity].
  destruct m as [| |pc ptps pargs| | | | |];
    try (rewrite andb_false_r; reflexivity).
  destruct pargs as [|fn0 [|? ?]]; simpl;
    rewrite ?andb_false_r, ?andb_assoc; reflexivity.
Qed.

Lemma alike_parentRefOf (p p' : option (NodeRef * Node)) :
  alike p p' -> parentRefOf p = parentRefOf p'.
Proof.
  destruct p as [[r m]|], p' as [[r' m']|]; simpl; tauto.
Qed.

Lemma onWrapCall_alike (opts : Options) (here : NodeRef) (c c' : Node)
    (tps : option (list TSType)) (p p' : option (NodeRef * Node)) (st : State) :
  calleeName c = calleeName c' ->
  alike p p' ->
  onWrapCall opts here c tps p st = onWrapCall opts here c' tps p' st.
Proof.
  intros Hc Hp.
  rewrite (onWrapCall_spec opts here c tps []), (onWrapCall_spec opts here c' tps []).
  rewrite !opensWrap_seen, Hc, (alike_parentRefOf _ _ Hp).
  destruct (calleeName c'); [|reflexivity].
  destruct p as [[r m]|], p' as [[r' m']|]; simpl in Hp; try tauto.
  destruct Hp as [_ ->]. reflexivity.
Qed.

Lemma arrive_alike (opts : Options) (p p' : option (NodeRef * Node))
    (here : NodeRef) (n : Node) (st : State) :
  alike p p' -> arrive opts p here n st = arrive opts p' here n st.
Proof.
  intros Hp. destruct n; try reflexivity. simpl.
  rewrite (onWrapCall_alike opts here n n _ p p'); auto.
Qed.

(** The walk of a node depends on its parent only by what [alike] keeps. *)
Lemma traverse_alike (opts : Options) (p p' : option (NodeRef * Node))
    (here : NodeRef) (n : Node) (st : State) :
  alike p p' -> traverse opts p here n st = traverse opts p' here n st.
Proof.
  intros Hp. rewrite !traverse_unfold, (arrive_alike opts p p'); auto.
Qed.

Lemma walkKids_alike (opts : Options) (p p' : option (NodeRef * Node))
    (here : NodeRef) (ks : list (Step * Node)) :
  alike p p' ->
  forall st, walkKids opts p here ks st = walkKids opts p' here ks st.
Proof.
  intros Hp. induction ks as [|k ks IH]; intros st; [reflexivity|].
  unfold walkKids in *; simpl. rewrite (traverse_alike opts p p'); auto.
Qed.

(** *** Editing below a node *)

Lemma updateAt_split {A} (g : A -> A) (l1 l2 : list A) (c : A) :
  updateAt (length l1) g (l1 ++ c :: l2) = l1 ++ g c :: l2.
Proof. induction l1 as [|a l1 IH]; simpl; [reflexivity|]. f_equal. exact IH. Qed.

Lemma indexed_app (mk : nat -> Step) (l1 l2 : list Node) :
  forall i,
    indexed mk i (l1 ++ l2) = indexed mk i l1 ++ indexed mk (i + length l1) l2.
Proof.
  induction l1 as [|a l1 IH]; intros i; simpl.
  - rewrite Nat.add_0_r. reflexivity.
  - rewrite IH. replace (S i + length l1) with (i + S (length l1)) by lia.
    reflexivity.
Qed.

Lemma indexed_at (mk : nat -> Step) (l : list Node) (i : nat) (c : Node) :
  nth_error l i = Some c ->
  exists l1 l2,
    l = l1 ++ c :: l2 /\ length l1 = i
    /\ indexed mk 0 l = indexed mk 0 l1 ++ (mk i, c) :: indexed mk (S i) l2.
Proof.
  intros H. apply nth_error_split in H. destruct H as (l1 & l2 & -> & <-).
  exists l1, l2. repeat split. rewrite indexed_app. reflexivity.
Qed.

(** The children of an edited node: the one on the path is edited, the
    others stay. *)
Lemma kids_editAt (x : Step) (n c : Node) :
  childAt x n = Some c ->
  exists before after,
    kids n = before ++ (x, c) :: after
    /\ (forall rest f,
           kids (editAt (x :: rest) f n)
           = before ++ (x, editAt rest f c) :: after)
    /\ (In callee_ (map fst before) -> x <> callee_).
Proof.
  intros H.
  destruct n as [nm|raw|cc tp0 args|a0|o0 p0|as0 ps b0|as0 ps b0|cs];
    destruct x; simpl in H; try discriminate.
  - (* the callee of a call *)
    inversion H; subst. exists [], (indexed arguments_ 0 args). simpl.
    repeat split. tauto.
  - (* an argument of a call *)
    destruct (indexed_at arguments_ _ _ _ H) as (l1 & l2 & -> & <- & E).
    exists ((callee_, cc) :: indexed arguments_ 0 l1),
           (indexed arguments_ (S (length l1)) l2).
    simpl. rewrite E. repeat split; [|discriminate].
    intros rest f. rewrite updateAt_split, indexed_app. reflexivity.
  - inversion H; subst. exists [], []. simpl. repeat split. tauto.
  - inversion H; subst. exists [], [(property_, p0)]. simpl. repeat split. tauto.
  - inversion H; subst. exists [(object_, o0)], []. simpl. repeat split.
    discriminate.
  - destruct (indexed_at params_ _ _ _ H) as (l1 & l2 & -> & <- & E).
    exists (indexed params_ 0 l1),
           (indexed params_ (S (length l1)) l2 ++ [(body_, b0)]).
    simpl. rewrite E, <- !app_assoc. repeat split; [|discriminate].
    intros rest f. rewrite updateAt_split, indexed_app, <- !app_assoc.
    reflexivity.
  - inversion H; subst. exists (indexed params_ 0 ps), []. simpl.
    repeat split. discriminate.
  - destruct (indexed_at params_ _ _ _ H) as (l1 & l2 & -> & <- & E).
    exists (indexed params_ 0 l1),
           (indexed params_ (S (length l1)) l2 ++ [(body_, b0)]).
    simpl. rewrite E, <- !app_assoc. repeat split; [|discriminate].
    intros rest f. rewrite updateAt_split, indexed_app, <- !app_assoc.
    reflexivity.
  - inversion H; subst. exists (indexed params_ 0 ps), []. simpl.
    repeat split. discriminate.
  - destruct (indexed_at children_ _ _ _ H) as (l1 & l2 & -> & <- & E).
    exists (indexed children_ 0 l1), (indexed children_ (S (length l1)) l2).
    simpl. rewrite E. repeat split; [|discriminate].
    intros rest f. rewrite updateAt_split, indexed_app. reflexivity.
Qed.

(** *** Replacing a subtree by one that looks the same from outside *)

Section OnPath.
Variable opts : Options.
Variables target r : Node.
Hypothesis r_seen : seen r = seen target.

Local Abbreviation swap := (fun _ : Node => r).

Lemma seen_onPath (rest : NodeRef) :
  forall c, subtreeAt rest c = Some target -> seen (editAt rest swap c) = seen c.
Proof.
  induction rest as [|y rest IH]; intros c; simpl.
  - intros H; inversion H; subst. exact r_seen.
  - destruct (childAt y c) as [d|] eqn:Hd; [|discriminate]. intros H.
    specialize (IH d H). unfold seen in IH.
    destruct y, c; simpl in Hd; try discriminate; try reflexivity;
      inversion Hd; subst; unfold seen; simpl.
    + inversion IH as [[E1 E2 E3 E4]]. rewrite E1. reflexivity.
    + inversion IH as [[E1 E2 E3 E4]]. rewrite E2. reflexivity.
Qed.

Lemma calleeName_onPath (rest : NodeRef) (c : Node) :
  subtreeAt rest c = Some target ->
  calleeName (editAt rest swap c) = calleeName c.
Proof.
  intros H. pose proof (seen_onPath rest c H) as E. unfold seen in E.
  inversion E; reflexivity.
Qed.

Lemma seenArguments_onPath (rest : NodeRef) (args : list Node) (i : nat)
    (c : Node) :
  nth_error args i = Some c ->
  subtreeAt rest c = Some target ->
  seenArguments (updateAt i (editAt rest swap) args) = seenArguments args.
Proof.
  intros Hn H. apply nth_error_split in Hn.
  destruct Hn as (l1 & l2 & -> & <-). rewrite updateAt_split.
  destruct l1 as [|a [|b l1]], l2 as [|d l2]; simpl; try reflexivity.
  f_equal. pose proof (seen_onPath rest c H) as E. unfold seen in E.
  inversion E; reflexivity.
Qed.

Lemma wrapShape_onPath (x : Step) (rest : NodeRef) (n c : Node) :
  childAt x n = Some c ->
  subtreeAt rest c = Some target ->
  wrapShape (editAt (x :: rest) swap n) = wrapShape n.
Proof.
  intros Hc H.
  destruct x, n; simpl in Hc; try discriminate; try reflexivity.
  apply nth_error_split in Hc. destruct Hc as (l1 & l2 & -> & <-).
  simpl. rewrite updateAt_split.
  destruct l1 as [|a [|b l1]], l2 as [|d l2]; simpl; try reflexivity.
  pose proof (seen_onPath rest c H) as E. unfold seen in E.
  inversion E; reflexivity.
Qed.

Lemma alike_onPath (x : Step) (rest : NodeRef) (n c : Node) (here : NodeRef) :
  childAt x n = Some c ->
  subtreeAt rest c = Some target ->
  alike (Some (here, n)) (Some (here, editAt (x :: rest) swap n)).
Proof.
  intros Hc H. split; [reflexivity|]. symmetry.
  eapply wrapShape_onPath; eassumption.
Qed.

Lemma arrive_onPath (x : Step) (rest : NodeRef) (n c : Node)
    (p p' : option (NodeRef * Node)) (here : NodeRef) (st : State) :
  childAt x n = Some c ->
  subtreeAt rest c = Some target ->
  alike p p' ->
  arrive opts p' here (editAt (x :: rest) swap n) st = arrive opts p here n st.
Proof.
  intros Hc H Hp.
  assert (Hp' : alike p' p).
  { destruct p as [[? ?]|], p' as [[? ?]|]; simpl in *; try tauto.
    destruct Hp; split; congruence. }
  destruct n as [nm|raw|cc tp0 args|a0|o0 p0|as0 ps b0|as0 ps b0|cs];
    destruct x as [| |i| | | |i| |i|i];
    simpl in Hc; try discriminate; try reflexivity.
  - inversion Hc; subst. simpl.
    rewrite !onUnwrapCall_seen, (calleeName_onPath rest c H).
    rewrite (onWrapCall_alike opts here _ c tp0 p' p); auto.
    apply calleeName_onPath, H.
  - simpl. rewrite !onUnwrapCall_seen.
    rewrite (seenArguments_onPath rest args i c Hc H).
    rewrite (onWrapCall_alike opts here cc cc tp0 p' p); auto.
Qed.

Lemma leave_onPath (x : Step) (rest : NodeRef) (n : Node) (here : NodeRef)
    (st : State) :
  leave here (editAt (x :: rest) swap n) st = leave here n st.
Proof. destruct x, n; reflexivity. Qed.

(** A node with a non-identifier at or below it is not an identifier. *)
Lemma onPath_not_identifier (rest : NodeRef) (c : Node) :
  calleeName target = None ->
  subtreeAt rest c = Some target -> calleeName c = None.
Proof.
  intros Ht. destruct rest as [|y rest']; simpl.
  - intros H; inversion H; subst. exact Ht.
  - destruct c; try reflexivity. destruct y; discriminate.
Qed.

End OnPath.

(* ===================================================================== *)
(** ** The scopes open on the way down to a node *)
(* ===================================================================== *)

Lemma foreign_child (here : NodeRef) (x : Step) (s : WrapScope) :
  foreign here s -> foreign (here ++ [x]) s.
Proof.
  intros [H1 H2]. split; intros H.
  - apply H1. eapply strictlyBelow_child; eassumption.
  - apply H2. eapply within_child; eassumption.
Qed.

Lemma sameRefs_refl (chain : list WrapScope) : sameRefs chain chain.
Proof. induction chain; constructor; auto. Qed.

Lemma frame_sameRefs (chain chain' : list WrapScope) :
  frame chain chain' -> sameRefs chain chain'.
Proof.
  destruct chain as [|s u], chain' as [|s' u']; simpl; try tauto.
  - constructor.
  - intros [-> (F & C & _)]. constructor; [auto | apply sameRefs_refl].
Qed.

Lemma sameRefs_Forall (P : WrapScope -> Prop) (chain chain' : list WrapScope) :
  (forall s s', fn s' = fn s -> callee s' = callee s -> P s -> P s') ->
  sameRefs chain chain' -> Forall P chain -> Forall P chain'.
Proof.
  intros HP. induction 1 as [|s s' u u' [F C] _ IH]; intros H; [constructor|].
  inversion H; subst. constructor; [eapply HP; eassumption | auto].
Qed.

Lemma enterFunction_sameRefs (here : NodeRef) (st : State) :
  sameRefs (wrappedScope st) (wrappedScope (enterFunction here st)).
Proof.
  unfold enterFunction.
  destruct (wrappedScope st) as [|s u] eqn:Hst; [rewrite Hst; constructor|].
  destruct (NodeRef_eqb (fn s) here); simpl.
  - constructor; [auto | apply sameRefs_refl].
  - rewrite Hst. apply sameRefs_refl.
Qed.

Lemma mine_refs (opts : Options) (parent : option (NodeRef * Node))
    (here : NodeRef) (n : Node) (walked : list (Step * Node))
    (s s' : WrapScope) :
  fn s' = fn s -> callee s' = callee s ->
  mine opts parent here n walked s -> mine opts parent here n walked s'.
Proof.
  unfold mine, foreign. intros -> ->. tauto.
Qed.

Lemma mine_more (opts : Options) (parent : option (NodeRef * Node))
    (here : NodeRef) (n : Node) (walked more : list (Step * Node))
    (s : WrapScope) :
  mine opts parent here n walked s ->
  mine opts parent here n (walked ++ more) s.
Proof.
  unfold mine. intros [H|[H|(H & F & C)]]; auto.
  right; right. repeat split; auto. rewrite map_app. apply in_or_app; auto.
Qed.

Lemma mine_clear (opts : Options) (parent : option (NodeRef * Node))
    (here : NodeRef) (n : Node) (walked : list (Step * Node))
    (chain : list WrapScope) (y : Step) :
  childOf parent here ->
  Forall (mine opts parent here n walked) chain ->
  clear (here ++ [y]) chain.
Proof.
  intros Hchild H s Hs Hb. rewrite Forall_forall in H.
  destruct (H s Hs) as [[H1 _]|[(Ho & F & _)|(_ & F & _)]].
  - apply H1. eapply strictlyBelow_child; eassumption.
  - apply opensWrap_inv in Ho.
    destruct Ho as (t1 & a1 & pr & pc & pt & fn0 & _ & -> & _).
    simpl in *. destruct Hchild as [step0 ->].
    rewrite F in Hb. destruct Hb as (z & rest & E).
    repeat rewrite <- app_assoc in E. apply app_inv_head in E. discriminate.
  - rewrite F in Hb. destruct Hb as (z & rest & E).
    repeat rewrite <- app_assoc in E. apply app_inv_head in E. discriminate.
Qed.

(** After the listeners of [n] have run on entry. *)
Lemma arrive_mine (opts : Options) (parent : option (NodeRef * Node))
    (here : NodeRef) (n : Node) (st : State) :
  Forall (foreign here) (wrappedScope st) ->
  Forall (mine opts parent here n [])
         (wrappedScope (arrive opts parent here n st)).
Proof.
  intros H.
  assert (H0 : Forall (mine opts parent here n []) (wrappedScope st))
    by (eapply Forall_impl; [|exact H]; intros s Hs; left; exact Hs).
  destruct n as [| |c tps args| | | | |]; simpl; try exact H0.
  - eapply sameRefs_Forall;
      [apply mine_refs | apply frame_sameRefs, onUnwrapCall_frame |].
    rewrite (onWrapCall_spec opts here c tps args).
    destruct (opensWrap opts _ parent) eqn:Ho; [|exact H0].
    simpl. constructor; [|exact H0].
    right; left. auto.
  - eapply sameRefs_Forall;
      [apply mine_refs | apply enterFunction_sameRefs | exact H0].
  - eapply sameRefs_Forall;
      [apply mine_refs | apply enterFunction_sameRefs | exact H0].
Qed.

(** Only the callee of a call can open a scope against that call. *)
Lemma opening_kid (opts : Options) (here : NodeRef) (n : Node) (y : Step)
    (cy : Node) :
  In (y, cy) (kids n) ->
  opensWrap opts cy (Some (here, n)) = true ->
  y = callee_.
Proof.
  intros Hin Ho. pose proof (opensWrap_parent_call _ _ _ _ Ho) as (pc & pt & fn0 & ->).
  simpl in Hin. destruct Hin as [E|[E|[]]]; [congruence|].
  inversion E; subst. apply opensWrap_inv in Ho.
  destruct Ho as (t1 & a1 & pr & pc' & pt' & fn1 & Hcy & Hp & Hf & _).
  inversion Hp; subst. discriminate.
Qed.

Lemma kid_mine (opts : Options) (parent : option (NodeRef * Node))
    (here : NodeRef) (n : Node) (walked : list (Step * Node))
    (y : Step) (cy : Node) (st : State) :
  childOf parent here ->
  In (y, cy) (kids n) ->
  Forall (mine opts parent here n walked) (wrappedScope st) ->
  Forall (mine opts parent here n (walked ++ [(y, cy)]))
         (wrappedScope (traverse opts (Some (here, n)) (here ++ [y]) cy st)).
Proof.
  intros Hchild Hin H.
  pose proof (traverse_walksWell opts cy (Some (here, n)) (here ++ [y]) st
                (ex_intro _ y eq_refl)
                (mine_clear opts parent here n walked _ y Hchild H)) as W.
  assert (H' : Forall (mine opts parent here n (walked ++ [(y, cy)]))
                 (wrappedScope st))
    by (eapply Forall_impl; [|exact H]; intros s; apply mine_more).
  unfold chainAfter in W.
  destruct (opensWrap opts cy (Some (here, n))) eqn:Ho.
  - rewrite W. constructor; [|exact H'].
    pose proof (opening_kid opts here n y cy Hin Ho) as ->.
    right; right. simpl. repeat split; auto.
    rewrite map_app. apply in_or_app. right. left. reflexivity.
  - destruct (isFunctionLiteral cy && topIs (here ++ [y]) (wrappedScope st)).
    + rewrite W. destruct (wrappedScope st); simpl; [constructor|].
      inversion H'; assumption.
    + eapply sameRefs_Forall;
        [apply mine_refs | apply frame_sameRefs, W | exact H'].
Qed.

Lemma kids_mine (opts : Options) (parent : option (NodeRef * Node))
    (here : NodeRef) (n : Node) (ks : list (Step * Node)) :
  childOf parent here ->
  forall (walked : list (Step * Node)) (st : State),
    (forall k, In k ks -> In k (kids n)) ->
    Forall (mine opts parent here n walked) (wrappedScope st) ->
    Forall (mine opts parent here n (walked ++ ks))
           (wrappedScope (walkKids opts (Some (here, n)) here ks st)).
Proof.
  intros Hchild. induction ks as [|[y cy] ks IH]; intros walked st Hin H.
  - rewrite app_nil_r. exact H.
  - unfold walkKids; simpl. fold (walkKids opts (Some (here, n)) here ks).
    replace (walked ++ (y, cy) :: ks) with ((walked ++ [(y, cy)]) ++ ks)
      by (rewrite <- app_assoc; reflexivity).
    apply IH; [intros k Hk; apply Hin; right; exact Hk|].
    apply kid_mine; auto. apply Hin. left; reflexivity.
Qed.

(** On the way down: the scopes open when the walk reaches the child [x]
    of [n] are foreign to that child. *)
Lemma descend_foreign (opts : Options) (parent : option (NodeRef * Node))
    (here : NodeRef) (n : Node) (x : Step) (c : Node)
    (before after : list (Step * Node)) (st : State) :
  childOf parent here ->
  Forall (foreign here) (wrappedScope st) ->
  childAt x n = Some c ->
  calleeName c = None ->
  kids n = before ++ (x, c) :: after ->
  (In callee_ (map fst before) -> x <> callee_) ->
  Forall (foreign (here ++ [x]))
         (wrappedScope
            (walkKids opts (Some (here, n)) here before
               (arrive opts parent here n st))).
Proof.
  intros Hchild H Hc Hid Hk Hx.
  pose proof (kids_mine opts parent here n before Hchild []
                (arrive opts parent here n st)) as M.
  simpl in M.
  eapply Forall_impl; [|apply M].
  - intros s [Hs|[(Ho & F & C)|(Hin & F & C)]].
    + apply foreign_child; exact Hs.
    + assert (Hne : x <> callee_).
      { intros ->. apply opensWrap_inv in Ho.
        destruct Ho as (t1 & a1 & pr & pc & pt & fn0 & -> & _).
        simpl in Hc. inversion Hc; subst. discriminate. }
      pose proof (opensWrap_inv _ _ _ Ho)
        as (t1 & a1 & pr & pc & pt & fn0 & _ & -> & _).
      simpl in *. destruct Hchild as [step0 ->].
      split.
      * rewrite F. intros (z & rest & E).
        repeat rewrite <- app_assoc in E. apply app_inv_head in E. discriminate.
      * rewrite C. intros (rest & E).
        repeat rewrite <- app_assoc in E. apply app_inv_head in E.
        apply app_inv_head in E. inversion E; subst. congruence.
    + specialize (Hx Hin). split.
      * rewrite F. intros (z & rest & E).
        repeat rewrite <- app_assoc in E. apply app_inv_head in E. discriminate.
      * rewrite C. intros (rest & E).
        repeat rewrite <- app_assoc in E. apply app_inv_head in E.
        inversion E; subst. congruence.
  - intros k Hin. rewrite Hk. apply in_or_app. left; exact Hin.
  - apply arrive_mine; exact H.
Qed.

(* ===================================================================== *)
(** ** A wrap construct anywhere in a program *)
(* ===================================================================== *)

Lemma walkKids_extends (opts : Options) (me : option (NodeRef * Node))
    (here : NodeRef) (ks : list (Step * Node)) :
  forall st, extends st (walkKids opts me here ks st).
Proof.
  induction ks as [|k ks IH]; intros st; [apply extends_refl|].
  unfold walkKids in *; simpl.
  eapply extends_trans; [apply traverse_extends | apply IH].
Qed.

Lemma kids_extends (opts : Options) (parent : option (NodeRef * Node))
    (here : NodeRef) (n : Node) (before after : list (Step * Node)) (st : State) :
  kids n = before ++ after ->
  extends st (walkKids opts (Some (here, n)) here before
                (arrive opts parent here n st)).
Proof.
  intros Hk. eapply extends_trans; [|apply walkKids_extends].
  destruct n as [| |c tps args| | | | |]; try apply extends_refl.
  - replace (arrive opts parent here (CallExpression c tps args) st)
      with (onUnwrapCall opts here c args (onWrapCall opts here c tps parent st))
      by reflexivity.
    set (st1 := onWrapCall opts here c tps parent st).
    assert (E1 : extends st st1).
    { unfold st1. rewrite (onWrapCall_spec opts here c tps []).
      destruct (opensWrap opts _ parent); [|apply extends_refl].
      exists []. simpl. rewrite app_nil_r. reflexivity. }
    eapply extends_trans; [exact E1|].
    rewrite onUnwrapCall_seen. unfold onUnwrapSeen.
    destruct (wrappedScope st1) as [|s u]; [apply extends_refl|].
    destruct (inFn s); [|apply extends_refl]. cbn [negb].
    destruct (calleeName c) as [name|]; [|apply extends_refl].
    destruct (String.eqb name (unwrapName opts)); [|apply extends_refl].
    cbn [negb].
    destruct (seenArguments args) as [[aw [nm|]]|];
      [ exists []; simpl; rewrite app_nil_r; reflexivity
      | eexists; reflexivity
      | apply extends_refl ].
  - simpl. unfold enterFunction.
    destruct (wrappedScope st) as [|s u]; [apply extends_refl|].
    destruct (NodeRef_eqb (fn s) here); [|apply extends_refl].
    exists []. simpl. rewrite app_nil_r. reflexivity.
  - simpl. unfold enterFunction.
    destruct (wrappedScope st) as [|s u]; [apply extends_refl|].
    destruct (NodeRef_eqb (fn s) here); [|apply extends_refl].
    exists []. simpl. rewrite app_nil_r. reflexivity.
Qed.

Lemma traverse_wrapConstruct_any_parent (opts : Options)
    (tps : option (list TSType)) (args0 : list Node)
    (ptps : option (list TSType)) (fnLit : Node)
    (parent parent' : option (NodeRef * Node)) (here : NodeRef) (st : State) :
  isFunctionLiteral fnLit = true ->
  isAsync fnLit = true ->
  traverse opts parent here (wrapConstruct opts tps args0 ptps fnLit) st
  = traverse opts parent' here (wrapConstruct opts tps args0 ptps fnLit) st.
Proof.
  intros Hf Ha.
  rewrite (traverse_wrapConstruct opts tps args0 ptps fnLit parent) by assumption.
  rewrite (traverse_wrapConstruct opts tps args0 ptps fnLit parent') by assumption.
  reflexivity.
Qed.

(** The walk of a subtree [n] that holds, at [q], a node [target] which
    is not an identifier.  There is one state [arrival] in which the walk
    reaches [q] and one list [post] of reports made after leaving it: any
    node [r] that looks like [target] from outside and whose own walk gives
    the chain back can be put at [q], and the walk of [n] then reports what
    [arrival] holds, what [r] adds, and [post]. *)
Lemma context_walk (opts : Options) (target : Node) (q : NodeRef) :
  calleeName target = None ->
  forall (n : Node),
    subtreeAt q n = Some target ->
    forall (parent : option (NodeRef * Node)) (here : NodeRef) (st : State),
      childOf parent here ->
      Forall (foreign here) (wrappedScope st) ->
      exists (arrival : State) (chain' : list WrapScope) (post : list Report),
        Forall (foreign (here ++ q)) (wrappedScope arrival)
        /\ extends st arrival
        /\ forall (r : Node) (added : list Report) parent',
             seen r = seen target ->
             alike parent parent' ->
             (forall p,
                 traverse opts p (here ++ q) r arrival
                 = mkState (wrappedScope arrival) (reported arrival ++ added)) ->
             traverse opts parent' here (editAt q (fun _ => r) n) st
             = mkState chain' (reported arrival ++ added ++ post).
Proof.
  intros Htarget.
  induction q as [|x rest IH]; intros n Hsub parent here st Hchild Hfor.
  - (* the node itself *)
    exists st, (wrappedScope st), [].
    rewrite app_nil_r. repeat split; [exact Hfor | apply extends_refl |].
    intros r added parent' _ _ Hr. simpl editAt. rewrite app_nil_r.
    apply Hr.
  - (* one step down *)
    simpl in Hsub. destruct (childAt x n) as [c|] eqn:Hc; [|discriminate].
    destruct (kids_editAt x n c Hc) as (before & after & Hk & Hk' & Hx).
    set (st1 := arrive opts parent here n st).
    set (st2 := walkKids opts (Some (here, n)) here before st1).
    assert (Hfor2 : Forall (foreign (here ++ [x])) (wrappedScope st2)).
    { apply (descend_foreign opts parent here n x c before after st); auto.
      eapply onPath_not_identifier; eassumption. }
    destruct (IH c Hsub (Some (here, n)) (here ++ [x]) st2
                (ex_intro _ x eq_refl) Hfor2)
      as (arrival & chain3 & post & Hfa & Hext & Hrun).
    pose proof (kids_extends opts parent here n before ((x, c) :: after) st Hk)
      as Hfront.
    fold st1 st2 in Hfront.
    set (st4 := walkKids opts (Some (here, n)) here after (mkState chain3 [])).
    set (st5 := leave here n (mkState (wrappedScope st4) [])).
    exists arrival, (wrappedScope st5), (post ++ reported st4 ++ reported st5).
    replace (here ++ x :: rest) with ((here ++ [x]) ++ rest)
      by (rewrite <- app_assoc; reflexivity).
    repeat split; [exact Hfa | eapply extends_trans; eassumption |].
    intros r added parent' Hseen Hal Hr.
    set (n' := editAt (x :: rest) (fun _ => r) n).
    assert (Hal' : alike (Some (here, n)) (Some (here, n')))
      by (eapply alike_onPath; eassumption).
    assert (Hal'' : alike (Some (here, n')) (Some (here, n)))
      by (destruct Hal'; split; congruence).
    rewrite traverse_unfold. unfold n' at 3. rewrite Hk'. fold n'.
    unfold n' at 3.
    rewrite (arrive_onPath opts target r Hseen x rest n c
               parent parent' here st Hc Hsub Hal).
    fold st1. rewrite walkKids_app.
    rewrite (walkKids_alike opts _ _ here before Hal''). fold st2.
    change (walkKids opts (Some (here, n')) here
              ((x, editAt rest (fun _ => r) c) :: after) st2)
      with (walkKids opts (Some (here, n')) here after
              (traverse opts (Some (here, n')) (here ++ [x])
                 (editAt rest (fun _ => r) c) st2)).
    rewrite (Hrun r added (Some (here, n')) Hseen Hal' Hr).
    rewrite (walkKids_alike opts _ _ here after Hal'').
    match goal with
    | |- context [mkState chain3 ?R] =>
        replace (mkState chain3 R) with (prepend R (mkState chain3 []))
          by (unfold prepend; simpl; rewrite app_nil_r; reflexivity)
    end.
    rewrite prepend_walkKids. fold st4.
    unfold n'. rewrite leave_onPath.
    match goal with
    | |- context [prepend ?R st4] =>
        replace (prepend R st4)
          with (prepend (R ++ reported st4) (mkState (wrappedScope st4) []))
          by (unfold prepend; simpl; rewrite app_nil_r; reflexivity)
    end.
    rewrite prepend_leave. fold st5.
    unfold prepend. f_equal.
    repeat rewrite <- app_assoc. reflexivity.
Qed.

(** *** Edits and fixes *)





Lemma updateAt_same {A} (g : A -> A) (l : list A) (i : nat) (c : A) :
  nth_error l i = Some c -> g c = c -> updateAt i g l = l.
Proof.
  intros Hn H. apply nth_error_split in Hn.
  destruct Hn as (l1 & l2 & -> & <-). rewrite updateAt_split, H. reflexivity.
Qed.

Lemma editAt_same (p : NodeRef) (target : Node) :
  forall n, subtreeAt p n = Some target -> editAt p (fun _ => target) n = n.
Proof.
  induction p as [|x p IH]; intros n; simpl.
  - intros E; inversion E; reflexivity.
  - destruct (childAt x n) as [c|] eqn:Hc; [|discriminate]. intros Hs.
    specialize (IH c Hs).
    destruct x, n; simpl in Hc; try discriminate;
      try (inversion Hc; subst; rewrite IH; reflexivity);
      rewrite (updateAt_same _ _ _ _ Hc IH); reflexivity.
Qed.


(** A wrap construct anywhere in a program, seen from the state in which
    the walk reaches it. *)
Lemma lint_around_construct (opts : Options) (program : Node) (q : NodeRef)
    (tps : option (list TSType)) (args0 : list Node)
    (ptps : option (list TSType)) (fnLit : Node) :
  subtreeAt q program = Some (wrapConstruct opts tps args0 ptps fnLit) ->
  isFunctionLiteral fnLit = true ->
  isAsync fnLit = true ->
  exists (arrival : State) (inside after : list Report)
         (recorded : JsMap.t NodeRef),
    NoDup (JsMap.keys recorded)
    /\ (forall tps' p,
           traverse opts p q (wrapConstruct opts tps' args0 ptps fnLit) arrival
           = mkState (wrappedScope arrival)
               (reported arrival ++ inside
                  ++ reconcile (closingScope q tps' recorded)))
    /\ (forall tps',
           lint opts
             (editAt q (fun _ => wrapConstruct opts tps' args0 ptps fnLit) program)
           = reported arrival
               ++ (inside ++ reconcile (closingScope q tps' recorded)) ++ after)
    /\ (forall raw,
           lint opts (editAt q (fun _ => Literal raw) program)
           = reported arrival ++ after).
Proof.
  intros Hsub Hf Ha.
  destruct (context_walk opts (wrapConstruct opts tps args0 ptps fnLit) q
              eq_refl program Hsub None [] initial I (Forall_nil _))
    as (arrival & chain' & post & Hfor & _ & Hrun).
  simpl app in Hfor, Hrun.
  destruct (traverse_wrapConstruct_split opts args0 ptps fnLit None q arrival
              Hf Ha)
    as (inside & recorded & Hnd & Hwalk).
  { intros s Hs. rewrite Forall_forall in Hfor. apply (Hfor s Hs). }
  { intros s Hs E. rewrite Forall_forall in Hfor.
    apply (proj2 (Hfor s Hs)). rewrite E. exists [callee_; callee_].
    rewrite <- app_assoc. reflexivity. }
  exists arrival, inside, post, recorded.
  split; [exact Hnd|]. split; [|split].
  - intros tps' p.
    rewrite (traverse_wrapConstruct_any_parent opts tps' args0 ptps fnLit p None)
      by assumption.
    apply Hwalk.
  - intros tps'. unfold lint.
    rewrite (Hrun (wrapConstruct opts tps' args0 ptps fnLit)
               (inside ++ reconcile (closingScope q tps' recorded)) None
               eq_refl I); [reflexivity|].
    intros p.
    rewrite (traverse_wrapConstruct_any_parent opts tps' args0 ptps fnLit p None)
      by assumption.
    rewrite Hwalk. reflexivity.
  - intros raw. unfold lint.
    rewrite (Hrun (Literal raw) [] None eq_refl I); [reflexivity|].
    intros p. simpl. rewrite app_nil_r. destruct arrival; reflexivity.
Qed.

(** *** Every reconciliation report comes with the umbrella report *)




(* ===================================================================== *)
(** ** Whole programs *)
(* ===================================================================== *)



(** C7.  Take any program and any recognised wrap construct in it, nested
    in other wrap constructs or not.  Walking the construct gives back the
    very scope chain the walk had on reaching it, so no enclosing scope
    has recorded anything for it; and every report the program gets
    outside the construct's own walk, the reconciliation and fix of the
    enclosing constructs included, is the report the program would get
    with a literal in the construct's place. *)
Theorem nested_wrap_reconciles_independently
    (opts : Options) (program : Node) (q : NodeRef)
    (tps : option (list TSType)) (args0 : list Node)
    (ptps : option (list TSType)) (fnLit : Node) :
  subtreeAt q program = Some (wrapConstruct opts tps args0 ptps fnLit) ->
  isFunctionLiteral fnLit = true ->
  isAsync fnLit = true ->
  exists (chain : list WrapScope) (before inner after : list Report),
    (forall p,
        traverse opts p q (wrapConstruct opts tps args0 ptps fnLit)
                 (mkState chain before)
        = mkState chain (before ++ inner))
    /\ lint opts program = before ++ inner ++ after
    /\ (forall raw,
           lint opts (editAt q (fun _ => Literal raw) program)
           = before ++ after).
Proof.
  intros Hsub Hf Ha.
  destruct (lint_around_construct opts program q tps args0 ptps fnLit
              Hsub Hf Ha)
    as (arrival & inside & after & recorded & _ & Hwalk & Hlint & Hlit).
  exists (wrappedScope arrival), (reported arrival),
         (inside ++ reconcile (closingScope q tps recorded)), after.
  split; [|split].
  - intros p. replace (mkState (wrappedScope arrival) (reported arrival))
      with arrival by (destruct arrival; reflexivity).
    apply Hwalk.
  - transitivity
      (lint opts
         (editAt q (fun _ => wrapConstruct opts tps args0 ptps fnLit) program)).
    + rewrite (editAt_same q _ program Hsub). reflexivity.
    + apply Hlint.
  - exact Hlit.
Qed.

Lemma nested_wrap_reconciles_independently_witness :
  let unwrapOf name :=
    CallExpression (Identifier "unwrap") None
      [CallExpression (Identifier name) None []] in
  let inner :=
    wrapConstruct defaultOptions (Some [typeofId "g"]) [] None
      (ArrowFunctionExpression true [] (unwrapOf "g")) in
  let outer :=
    wrapConstruct defaultOptions (Some [typeofId "f"]) [] None
      (ArrowFunctionExpression true [] (OtherNode [unwrapOf "f"; inner])) in
  exists chain before innerReports after,
    (forall p,
        traverse defaultOptions p [arguments_ 0; body_; children_ 1] inner
                 (mkState chain before)
        = mkState chain (before ++ innerReports))
    /\ lint defaultOptions outer = before ++ innerReports ++ after
    /\ (forall raw,
           lint defaultOptions
             (editAt [arguments_ 0; body_; children_ 1]
                     (fun _ => Literal raw) outer)
           = before ++ after).
Proof.
  intros unwrapOf inner outer.
  exact (nested_wrap_reconciles_independently defaultOptions outer
           [arguments_ 0; body_; children_ 1] (Some [typeofId "g"]) [] None
           (ArrowFunctionExpression true [] (unwrapOf "g"))
           eq_refl eq_refl eq_refl).
Defined.


(* ===================================================================== *)
(** ** The parts of a reconciliation *)
(* ===================================================================== *)

Lemma nonEmpty_snoc {A} (l : list A) (x : A) : nonEmpty (l ++ [x]) = true.
Proof. destruct l; reflexivity. Qed.

Lemma nonEmpty_append {A} (l1 l2 : list A) :
  nonEmpty (l1 ++ l2) = nonEmpty l1 || nonEmpty l2.
Proof. destruct l1; reflexivity. Qed.

Lemma nonEmpty_map {A B} (f : A -> B) (l : list A) :
  nonEmpty (map f l) = nonEmpty l.
Proof. destruct l; reflexivity. Qed.

Lemma nonEmpty_false {A} (l : list A) : nonEmpty l = false -> l = [].
Proof. destruct l; [reflexivity | discriminate]. Qed.

(** The needs-fix flag is raised exactly when something was reported, and
    the type-parameter check reports its own three diagnostics only. *)
Lemma checkType_tally (r : Reconciliation) (member : NodeRef * TSType) :
  needFix r = nonEmpty (emitted r) /\ Forall typeParameterReport (emitted r) ->
  needFix (checkType r member) = nonEmpty (emitted (checkType r member))
  /\ Forall typeParameterReport (emitted (checkType r member)).
Proof.
  intros [Hn Hf]. unfold checkType. destruct member as [tref tnode].
  assert (Hflag : forall m, typeParameterKind m = true ->
            needFix (flag m tref r) = nonEmpty (emitted (flag m tref r))
            /\ Forall typeParameterReport (emitted (flag m tref r))).
  { intros m Hm. simpl. rewrite nonEmpty_snoc. split; [reflexivity|].
    apply Forall_app. split; [exact Hf|].
    repeat constructor. exact Hm. }
  destruct tnode as [e| | |]; try (apply Hflag; reflexivity).
  destruct e; try (apply Hflag; reflexivity).
  destruct (JsMap.has name (declared r)); [apply Hflag; reflexivity|].
  simpl. auto.
Qed.

Lemma checkTypes_tally (l : list (NodeRef * TSType)) :
  forall r : Reconciliation,
    needFix r = nonEmpty (emitted r) /\ Forall typeParameterReport (emitted r) ->
    needFix (fold_left checkType l r)
    = nonEmpty (emitted (fold_left checkType l r))
    /\ Forall typeParameterReport (emitted (fold_left checkType l r)).
Proof.
  induction l as [|m l IH]; intros r H; simpl; [exact H|].
  apply IH, checkType_tally, H.
Qed.

Lemma checkTypeParameters_tally (scope : WrapScope) :
  let r := checkTypeParameters scope (mkRecon false (wrappedFns scope) []) in
  needFix r = nonEmpty (emitted r) /\ Forall typeParameterReport (emitted r).
Proof.
  cbv zeta. unfold checkTypeParameters.
  assert (Hflag :
    let r := flag missingTypeParamInWrap (callee scope)
               (mkRecon false (wrappedFns scope) []) in
    needFix r = nonEmpty (emitted r) /\ Forall typeParameterReport (emitted r)).
  { simpl. split; [reflexivity|]. repeat constructor. }
  destruct (typeParameters scope) as [[tp [|param [|? ?]]]|]; try exact Hflag.
  apply checkTypes_tally. simpl. split; [reflexivity | constructor].
Qed.

(** [reconcile] as the three checks leave it: the type-parameter reports,
    one [unwrapNotInWrap] per recorded name that was not declared, one
    [wrappedFnNotUnwrapped] per declared name that was not recorded, and
    [badWrap] last if there was any of these. *)
Lemma reconcile_parts (scope : WrapScope) :
  let r := checkTypeParameters scope (mkRecon false (wrappedFns scope) []) in
  let body :=
    emitted r
    ++ map (anchored unwrapNotInWrap)
         (missingFrom (declared r) (unwrappedFns scope))
    ++ map (anchored wrappedFnNotUnwrapped)
         (missingFrom (unwrappedFns scope) (declared r)) in
  reconcile scope = if nonEmpty body then body ++ [badWrapOf scope] else [].
Proof.
  cbv zeta. unfold reconcile. cbv zeta.
  destruct (checkTypeParameters_tally scope) as [Hn _]. cbv zeta in Hn.
  rewrite checkWrapped_spec, checkUnwrapped_spec. cbv zeta. simpl.
  rewrite Hn, !nonEmpty_append, !nonEmpty_map, <- !app_assoc, orb_assoc.
  destruct (nonEmpty _ || nonEmpty _ || nonEmpty _) eqn:E; [reflexivity|].
  apply orb_false_iff in E. destruct E as [E E3].
  apply orb_false_iff in E. destruct E as [E1 E2].
  apply nonEmpty_false in E1, E2, E3. rewrite E1, E2, E3. reflexivity.
Qed.

Lemma countOf_plain_kinds (m : MessageId) (l : list Report) :
  Forall (fun r => messageId r <> m) l -> countOf m l = 0.
Proof.
  unfold countOf. induction 1 as [|r l Hr Hl IH]; simpl; [reflexivity|].
  destruct (MessageId_eqb (messageId r) m) eqn:E; [|exact IH].
  exfalso. apply Hr. destruct (messageId r), m; try discriminate; reflexivity.
Qed.

(** What every report of a reconciliation but the last looks like. *)
Lemma reconcile_body (scope : WrapScope) :
  let r := checkTypeParameters scope (mkRecon false (wrappedFns scope) []) in
  Forall (fun x => plain x /\ messageId x <> badWrap /\ messageId x <> badUnwrap
                   /\ messageId x <> badUnwrapArg)
    (emitted r
     ++ map (anchored unwrapNotInWrap)
          (missingFrom (declared r) (unwrappedFns scope))
     ++ map (anchored wrappedFnNotUnwrapped)
          (missingFrom (unwrappedFns scope) (declared r))).
Proof.
  cbv zeta. destruct (checkTypeParameters_tally scope) as [_ Hf].
  cbv zeta in Hf. rewrite !Forall_app. repeat split.
  - eapply Forall_impl; [|exact Hf]. intros x [Hp Hk].
    split; [exact Hp|]. destruct (messageId x); try discriminate;
      repeat split; discriminate.
  - apply Forall_map, Forall_forall. intros kv _.
    repeat split; discriminate.
  - apply Forall_map, Forall_forall. intros kv _.
    repeat split; discriminate.
Qed.

(* ===================================================================== *)
(** ** Further properties of the reconciliation *)
(* ===================================================================== *)

(** X1.  An exit that reports anything reports [badWrap] exactly once, as
    its last report and never as its only one; no other report of the
    exit carries a fix. *)
Theorem exit_reports_end_with_one_badWrap (scope : WrapScope) :
  reconcile scope = []
  \/ exists others,
       others <> []
       /\ reconcile scope = others ++ [badWrapOf scope]
       /\ countOf badWrap others = 0
       /\ Forall plain others.
Proof.
  rewrite reconcile_parts. cbv zeta.
  pose proof (reconcile_body scope) as B. cbv zeta in B.
  set (body := _ ++ _ ++ _) in *.
  destruct body as [|x body'] eqn:E; [left; reflexivity|].
  right. exists (x :: body'). repeat split.
  - discriminate.
  - apply countOf_plain_kinds. eapply Forall_impl; [|exact B].
    intros y Hy. apply Hy.
  - eapply Forall_impl; [|exact B]. intros y Hy. apply Hy.
Qed.

Lemma checkType_emitted_grows (r : Reconciliation) (member : NodeRef * TSType) :
  exists more, emitted (checkType r member) = emitted r ++ more.
Proof.
  unfold checkType. destruct member as [tref tnode].
  destruct tnode as [e| | |]; try (eexists; reflexivity).
  destruct e; try (eexists; reflexivity).
  destruct (JsMap.has name (declared r)); [eexists; reflexivity|].
  exists []. simpl. rewrite app_nil_r. reflexivity.
Qed.

Lemma checkTypes_emitted_grows (l : list (NodeRef * TSType)) :
  forall r, exists more, emitted (fold_left checkType l r) = emitted r ++ more.
Proof.
  induction l as [|m l IH]; intros r; simpl.
  - exists []. rewrite app_nil_r. reflexivity.
  - destruct (IH (checkType r m)) as [more2 H2].
    destruct (checkType_emitted_grows r m) as [more1 H1].
    exists (more1 ++ more2). rewrite H2, H1, app_assoc. reflexivity.
Qed.

(** A member list that passes without a report consists of [typeof name]
    members with fresh, pairwise distinct names, which are all declared. *)
Lemma checkTypes_quiet_inv (l : list (NodeRef * TSType)) :
  forall r : Reconciliation,
    emitted (fold_left checkType l r) = [] ->
    exists names,
      map snd l = map typeofId names
      /\ NoDup names
      /\ (forall n, In n names -> JsMap.has n (declared r) = false)
      /\ declared (fold_left checkType l r)
         = declared r ++ combine names (map fst l).
Proof.
  induction l as [|[tref tnode] l IH]; intros r Hq.
  - exists []. simpl. rewrite app_nil_r. repeat split; [constructor | tauto].
  - cbn [fold_left] in Hq |- *.
    destruct (checkTypes_emitted_grows l (checkType r (tref, tnode)))
      as [more Hmore].
    rewrite Hq in Hmore. symmetry in Hmore.
    apply app_eq_nil in Hmore. destruct Hmore as [Hone _].
    destruct (IH _ Hq) as (names & Hsnd & Hnd & Hfresh & Hdecl).
    clear IH.
    assert (Hflag : forall m, emitted (flag m tref r) <> []).
    { intros m. simpl. intros E. apply app_eq_nil in E.
      destruct E as [_ E]. discriminate. }
    unfold checkType in Hone, Hfresh, Hdecl |- *.
    destruct tnode as [e| | |]; try (exfalso; eapply Hflag; exact Hone).
    destruct e as [name|]; try (exfalso; eapply Hflag; exact Hone).
    destruct (JsMap.has name (declared r)) eqn:Hhas;
      [exfalso; eapply Hflag; exact Hone|].
    simpl in Hfresh, Hdecl.
    exists (name :: names). simpl. repeat split.
    + f_equal. exact Hsnd.
    + constructor; [|exact Hnd]. intros Hin. apply Hfresh in Hin.
      rewrite JsMapFacts.has_set, String.eqb_refl in Hin. discriminate.
    + intros n [<-|Hin]; [exact Hhas|].
      apply Hfresh in Hin. rewrite JsMapFacts.has_set in Hin.
      apply orb_false_iff in Hin. apply Hin.
    + rewrite Hdecl, JsMapFacts.set_new by exact Hhas.
      rewrite <- app_assoc. reflexivity.
Qed.

Lemma missingFrom_nil_inv {V W} (other : JsMap.t W) (m : JsMap.t V) :
  missingFrom other m = [] ->
  forall k, In k (JsMap.keys m) -> JsMap.has k other = true.
Proof.
  induction m as [|[k v] m IH]; simpl; intros H x Hx; [contradiction|].
  destruct (JsMap.has k other) eqn:E; simpl in H; [|discriminate].
  destruct Hx as [<-|Hx]; [exact E | apply IH; assumption].
Qed.

Lemma typesOf_snd (tp : NodeRef) (param : TSType) :
  map snd (typesOf tp param) = members param.
Proof.
  unfold typesOf. generalize (memberRef tp param) as f.
  generalize 0 as i. induction (members param) as [|t l IH]; intros i f;
    simpl; [reflexivity|].
  f_equal. apply IH.
Qed.

Lemma typesOf_fst (tp : NodeRef) (param : TSType) :
  map fst (typesOf tp param)
  = map (memberRef tp param) (seq 0 (length (members param))).
Proof.
  unfold typesOf. generalize (memberRef tp param) as f.
  generalize 0 as i. induction (members param) as [|t l IH]; intros i f;
    simpl; [reflexivity|].
  f_equal. apply IH.
Qed.

(** X2.  The converse of the consistent case: a scope exits without a
    report exactly when it has one type parameter whose members are
    [typeof name] for pairwise distinct names, and those names are the
    recorded ones. *)
Theorem exit_is_quiet_iff_consistent (scope : WrapScope) :
  wrappedFns scope = JsMap.empty ->
  reconcile scope = []
  <-> exists tp param names,
        typeParameters scope = Some (mkTypeParameters tp [param])
        /\ members param = map typeofId names
        /\ NoDup names
        /\ forall x, In x names <-> In x (JsMap.keys (unwrappedFns scope)).
Proof.
  intros Hw. split.
  - rewrite reconcile_parts. cbv zeta.
    set (r := checkTypeParameters scope _).
    destruct (nonEmpty _) eqn:E.
    { intros H. apply app_eq_nil in H. destruct H as [_ H]. discriminate. }
    intros _. apply nonEmpty_false in E.
    apply app_eq_nil in E. destruct E as [E1 E].
    apply app_eq_nil in E. destruct E as [E2 E3].
    apply map_eq_nil in E2, E3.
    unfold checkTypeParameters in r.
    assert (Hflag : forall r0,
              emitted (flag missingTypeParamInWrap (callee scope) r0) <> []).
    { intros r0. simpl. intros X. apply app_eq_nil in X.
      destruct X as [_ X]. discriminate. }
    destruct (typeParameters scope) as [[tp [|param [|? ?]]]|];
      try (exfalso; eapply Hflag; exact E1).
    destruct (checkTypes_quiet_inv _ _ E1) as (names & Hsnd & Hnd & _ & Hdecl).
    rewrite typesOf_snd in Hsnd. rewrite typesOf_fst in Hdecl.
    fold r in Hdecl. cbn [declared] in Hdecl. rewrite Hw in Hdecl.
    change (JsMap.empty ++ ?l) with l in Hdecl.
    assert (Hkeys : JsMap.keys (declared r) = names).
    { rewrite Hdecl. apply keys_combine.
      rewrite length_map, length_seq, Hsnd, length_map. reflexivity. }
    exists tp, param, names. repeat split; auto.
    + intros Hx. apply JsMapFacts.has_In.
      apply (missingFrom_nil_inv _ _ E3). rewrite Hkeys. exact Hx.
    + intros Hx. rewrite <- Hkeys. apply JsMapFacts.has_In.
      apply (missingFrom_nil_inv _ _ E2). exact Hx.
  - intros (tp & param & names & Htp & Hm & Hnd & Hset).
    eapply reconcile_consistent; eassumption.
Qed.

Lemma exit_is_quiet_iff_consistent_witness :
  let scope :=
    mkScope [arguments_ 0] [callee_; callee_]
      (Some (mkTypeParameters [callee_; typeParameters_]
               [TSUnionType [typeofId "g"; typeofId "f"]]))
      true [("f", [body_]); ("g", [body_; body_])] JsMap.empty in
  reconcile scope = []
  <-> exists tp param names,
        typeParameters scope = Some (mkTypeParameters tp [param])
        /\ members param = map typeofId names
        /\ NoDup names
        /\ forall x, In x names <-> In x (JsMap.keys (unwrappedFns scope)).
Proof.
  intros scope. apply (exit_is_quiet_iff_consistent scope). reflexivity.
Defined.

(** X3.  With a well-formed declaration (one type parameter, members
    [typeof name] for pairwise distinct names) the exit reports the two
    differences between the declared and the recorded names and nothing
    else: [unwrapNotInWrap] for each recorded name that is not declared, in
    recording order and at the recorded call; then [wrappedFnNotUnwrapped]
    for each declared name that is not recorded, in declaration order and
    at its member; then [badWrap] if there was any. *)
Theorem wellformed_declaration_reports_the_differences
    (scope : WrapScope) (tp : NodeRef) (param : TSType) (names : list string) :
  wrappedFns scope = JsMap.empty ->
  typeParameters scope = Some (mkTypeParameters tp [param]) ->
  members param = map typeofId names ->
  NoDup names ->
  let declared :=
    combine names (map (memberRef tp param) (seq 0 (length names))) in
  let missing := missingFrom declared (unwrappedFns scope) in
  let unused := missingFrom (unwrappedFns scope) declared in
  reconcile scope
  = if nonEmpty (missing ++ unused)
    then map (anchored unwrapNotInWrap) missing
         ++ map (anchored wrappedFnNotUnwrapped) unused
         ++ [badWrapOf scope]
    else [].
Proof.
  intros Hw Htp Hm Hnd. cbv zeta. rewrite reconcile_parts. cbv zeta.
  unfold checkTypeParameters. rewrite Htp, Hw. unfold typesOf. rewrite Hm.
  rewrite checkType_wellformed;
    [ | rewrite length_map, length_seq, length_map; reflexivity
      | assumption | reflexivity ].
  cbn [declared emitted needFix]. rewrite length_map.
  change (JsMap.empty ++ ?l) with l. cbn [app].
  rewrite !nonEmpty_append, !nonEmpty_map, <- app_assoc. reflexivity.
Qed.

Lemma wellformed_declaration_reports_the_differences_witness :
  reconcile
    (mkScope [arguments_ 0] [callee_; callee_]
       (Some (mkTypeParameters [callee_; typeParameters_]
                [TSUnionType [typeofId "f"; typeofId "g"; typeofId "k"]]))
       true [("h", [children_ 0]); ("g", [children_ 1]); ("j", [children_ 2])]
       JsMap.empty)
  = [mkReport unwrapNotInWrap [children_ 0] None;
     mkReport unwrapNotInWrap [children_ 2] None;
     mkReport wrappedFnNotUnwrapped
       [callee_; typeParameters_; params_ 0; types_ 0] None;
     mkReport wrappedFnNotUnwrapped
       [callee_; typeParameters_; params_ 0; types_ 2] None;
     mkReport badWrap [callee_; callee_]
       (Some (mkFix replace [callee_; typeParameters_]
                "<typeof h | typeof g | typeof j>"))].
Proof.
  refine (wellformed_declaration_reports_the_differences
            (mkScope [arguments_ 0] [callee_; callee_]
               (Some (mkTypeParameters [callee_; typeParameters_]
                        [TSUnionType [typeofId "f"; typeofId "g"; typeofId "k"]]))
               true
               [("h", [children_ 0]); ("g", [children_ 1]); ("j", [children_ 2])]
               JsMap.empty)
            [callee_; typeParameters_]
            (TSUnionType [typeofId "f"; typeofId "g"; typeofId "k"])
            ["f"; "g"; "k"] eq_refl eq_refl eq_refl _).
  repeat constructor; simpl; intuition discriminate.
Defined.

(** The outcomes of the members of a declaration: a member that is not
    [typeof identifier] is reported, a name that is already declared is
    reported, any other name is declared. *)
Lemma checkTypes_count (l : list (NodeRef * TSType)) :
  forall r : Reconciliation,
    NoDup (JsMap.keys (declared r)) ->
    let r' := fold_left checkType l r in
    NoDup (JsMap.keys (declared r'))
    /\ (forall k, In k (JsMap.keys (declared r'))
                  <-> In k (JsMap.keys (declared r))
                      \/ In k (declaredNames (map snd l)))
    /\ countOf badWrapTypeArg (emitted r')
       = countOf badWrapTypeArg (emitted r)
         + length (filter (fun t => negb (isDeclaredName t)) (map snd l))
    /\ countOf duplicatedWrapArg (emitted r') + length (JsMap.keys (declared r'))
       = countOf duplicatedWrapArg (emitted r) + length (JsMap.keys (declared r))
         + length (declaredNames (map snd l))
    /\ countOf missingTypeParamInWrap (emitted r')
       = countOf missingTypeParamInWrap (emitted r).
Proof.
  induction l as [|[tref tnode] l IH]; intros r Hnd; cbv zeta.
  - simpl. repeat split; auto; try lia; tauto.
  - cbn [fold_left map snd].
    assert (Hbad : isDeclaredName tnode = false ->
              checkType r (tref, tnode) = flag badWrapTypeArg tref r).
    { unfold isDeclaredName, declaredName, checkType.
      destruct tnode as [e| | |]; try reflexivity.
      destruct e; [discriminate | reflexivity]. }
    destruct (isDeclaredName tnode) eqn:Hwf.
    + unfold isDeclaredName in Hwf.
      destruct (declaredName tnode) as [name|] eqn:Hname; [|discriminate].
      assert (tnode = typeofId name) as ->.
      { unfold declaredName in Hname. destruct tnode as [e| | |]; try discriminate.
        destruct e; [|discriminate]. inversion Hname; reflexivity. }
      cbn [filter declaredNames].
      change (isDeclaredName (typeofId name)) with true.
      change (declaredName (typeofId name)) with (Some name).
      cbn [negb].
      assert (Hone : checkType r (tref, typeofId name)
                     = if JsMap.has name (declared r)
                       then flag duplicatedWrapArg tref r
                       else mkRecon (needFix r)
                              (JsMap.set name tref (declared r)) (emitted r))
        by reflexivity.
      rewrite Hone. clear Hone.
      destruct (JsMap.has name (declared r)) eqn:Hhas.
      * destruct (IH (flag duplicatedWrapArg tref r) Hnd)
          as (N & S & B & D & M). cbv zeta in *.
        cbn [declared emitted flag] in *.
        rewrite !countOf_app in *. cbn in B, D, M.
        apply JsMapFacts.has_In in Hhas.
        repeat split; auto; try (cbn [length]; lia).
        -- intros Hk. apply S in Hk. simpl. tauto.
        -- intros [Hk|[<-|Hk]]; apply S; auto.
      * destruct (IH (mkRecon (needFix r) (JsMap.set name tref (declared r))
                              (emitted r)))
          as (N & S & B & D & M).
        { apply JsMapFacts.NoDup_keys_set. exact Hnd. }
        cbv zeta in *. cbn [declared emitted] in *.
        rewrite JsMapFacts.keys_set, Hhas in S, D.
        rewrite length_app in D. cbn [length] in D.
        repeat split; auto; try (cbn [length]; lia).
        -- intros Hk. apply S in Hk. rewrite in_app_iff in Hk. simpl in *.
           tauto.
        -- intros Hk. apply S. rewrite in_app_iff. simpl in *. tauto.
    + rewrite (Hbad eq_refl).
      destruct (IH (flag badWrapTypeArg tref r) Hnd) as (N & S & B & D & M).
      cbv zeta in *. cbn [declared emitted flag] in *.
      rewrite !countOf_app in *. cbn in B, D, M.
      assert (declaredName tnode = None) as Hnone.
      { unfold isDeclaredName in Hwf. destruct (declaredName tnode);
          [discriminate | reflexivity]. }
      cbn [filter declaredNames]. rewrite Hnone, Hwf. cbn [negb].
      repeat split; auto; try (cbn [length]; lia).
      * intros Hk. apply S in Hk. exact Hk.
      * intros Hk. apply S. exact Hk.
Qed.

Lemma countOf_reconcile_typeParameterKind (scope : WrapScope) (m : MessageId) :
  typeParameterKind m = true ->
  countOf m (reconcile scope)
  = countOf m (emitted (checkTypeParameters scope
                          (mkRecon false (wrappedFns scope) []))).
Proof.
  intros Hm. rewrite reconcile_parts. cbv zeta.
  set (r := checkTypeParameters scope _).
  assert (Hz : forall m' (l : JsMap.t NodeRef),
            typeParameterKind m' = false ->
            countOf m (map (anchored m') l) = 0).
  { intros m' l Hm'. apply countOf_plain_kinds, Forall_map, Forall_forall.
    intros kv _. simpl. intros ->. congruence. }
  destruct (nonEmpty _) eqn:E.
  - rewrite !countOf_app, !Hz by reflexivity.
    replace (countOf m [badWrapOf scope]) with 0
      by (destruct m; try discriminate; reflexivity).
    lia.
  - apply nonEmpty_false, app_eq_nil in E. destruct E as [-> _]. reflexivity.
Qed.

(** X4.  The members of a declaration are judged one by one: every member
    that is not [typeof identifier] gets one [badWrapTypeArg], every
    repetition of a name gets one [duplicatedWrapArg] (its first occurrence
    does not), and [missingTypeParamInWrap] is not reported. *)
Theorem declaration_members_are_judged_one_by_one
    (scope : WrapScope) (tp : NodeRef) (param : TSType) :
  wrappedFns scope = JsMap.empty ->
  typeParameters scope = Some (mkTypeParameters tp [param]) ->
  let names := declaredNames (members param) in
  countOf badWrapTypeArg (reconcile scope)
  = length (filter (fun t => negb (isDeclaredName t)) (members param))
  /\ countOf duplicatedWrapArg (reconcile scope)
     = length names - length (nodup string_dec names)
  /\ countOf missingTypeParamInWrap (reconcile scope) = 0.
Proof.
  intros Hw Htp. cbv zeta.
  rewrite !countOf_reconcile_typeParameterKind by reflexivity.
  unfold checkTypeParameters. rewrite Htp, Hw.
  destruct (checkTypes_count (typesOf tp param) (mkRecon false JsMap.empty []))
    as (N & S & B & D & M); [constructor|].
  cbv zeta in *. rewrite typesOf_snd in *. cbn in B, D, M.
  repeat split; [exact B | | exact M].
  set (r' := fold_left _ _ _) in *.
  assert (P : Permutation (JsMap.keys (declared r'))
                          (nodup string_dec (declaredNames (members param)))).
  { apply NoDup_Permutation; [exact N | apply NoDup_nodup |].
    intros k. rewrite nodup_In, S. simpl. tauto. }
  apply Permutation_length in P. lia.
Qed.

Lemma declaration_members_are_judged_one_by_one_witness :
  let scope :=
    mkScope [arguments_ 0] [callee_; callee_]
      (Some (mkTypeParameters [callee_; typeParameters_]
               [TSUnionType
                  [typeofId "f"; TSKeyword "string"; typeofId "g";
                   typeofId "f"; TSTypeQuery (TSQualifiedName
                                                (EntityIdentifier "a") "b");
                   typeofId "f"]]))
      true [("f", [children_ 0])] JsMap.empty in
  countOf badWrapTypeArg (reconcile scope) = 2
  /\ countOf duplicatedWrapArg (reconcile scope) = 2
  /\ countOf missingTypeParamInWrap (reconcile scope) = 0.
Proof.
  intros scope.
  exact (declaration_members_are_judged_one_by_one scope
           [callee_; typeParameters_]
           (TSUnionType
              [typeofId "f"; TSKeyword "string"; typeofId "g";
               typeofId "f"; TSTypeQuery (TSQualifiedName
                                            (EntityIdentifier "a") "b");
               typeofId "f"])
           eq_refl eq_refl).
Defined.

(* ===================================================================== *)
(** ** The walk, knowing where it is in the program *)
(* ===================================================================== *)

Lemma subtreeAt_snoc (p : NodeRef) (x : Step) (n m : Node) :
  subtreeAt p n = Some m -> subtreeAt (p ++ [x]) n = childAt x m.
Proof.
  revert n. induction p as [|y p IH]; intros n H; simpl in *.
  - inversion H; subst. destruct (childAt x m); reflexivity.
  - destruct (childAt y n) as [c|]; [apply IH; exact H | discriminate].
Qed.

Section Located.
Variable opts : Options.
Variable program : Node.
Variable R : State -> State -> Prop.
Hypothesis R_refl : forall st, R st st.
Hypothesis R_trans : forall a b c, R a b -> R b c -> R a c.
Hypothesis R_onWrapCall :
  forall here c tps args parent st,
    subtreeAt here program = Some (CallExpression c tps args) ->
    parentAt program parent here ->
    R st (onWrapCall opts here c tps parent st).
Hypothesis R_onUnwrapCall :
  forall here c tps args st,
    subtreeAt here program = Some (CallExpression c tps args) ->
    R st (onUnwrapCall opts here c args st).
Hypothesis R_enterFunction : forall here st, R st (enterFunction here st).
Hypothesis R_exitFunction : forall here st, R st (exitFunction here st).

Lemma visitEach_located (n : Node) (here : NodeRef) (mk : nat -> Step)
    (l : list Node) :
  subtreeAt here program = Some n ->
  Forall (fun c => forall parent h st,
            subtreeAt h program = Some c -> parentAt program parent h ->
            R st (traverse opts parent h c st)) l ->
  forall i st,
    (forall j c, nth_error l j = Some c -> childAt (mk (i + j)) n = Some c) ->
    R st (visitEach (traverse opts (Some (here, n)))
                    (fun i => here ++ [mk i]) i l st).
Proof.
  intros Hn. induction 1 as [|c l Hc Hl IH]; intros i st Hat; simpl;
    [apply R_refl|].
  apply R_trans with (traverse opts (Some (here, n)) (here ++ [mk i]) c st).
  - apply Hc.
    + erewrite subtreeAt_snoc by exact Hn.
      specialize (Hat 0 c eq_refl). rewrite Nat.add_0_r in Hat. exact Hat.
    + split; [exact Hn | eexists; reflexivity].
  - apply IH. intros j d Hj. specialize (Hat (S j) d Hj).
    replace (S i + j) with (i + S j) by lia. exact Hat.
Qed.

Lemma traverse_located (n : Node) :
  forall parent here st,
    subtreeAt here program = Some n ->
    parentAt program parent here ->
    R st (traverse opts parent here n st).
Proof.
  assert (Hchild : forall here m x,
            subtreeAt here program = Some m ->
            parentAt program (Some (here, m)) (here ++ [x])).
  { intros here m x Hm. split; [exact Hm | eexists; reflexivity]. }
  induction n as [name|raw|c IHc tps args IHargs|a IHa|o IHo p IHp
                  |async ps IHps b IHb|async ps IHps b IHb|cs IHcs];
    intros parent here st Hn Hp.
  - apply R_refl.
  - apply R_refl.
  - rewrite traverse_call. cbv zeta.
    eapply R_trans;
      [|apply visitEach_located;
        [exact Hn | apply list_all_Forall in IHargs; exact IHargs
         | intros j d Hj; exact Hj]].
    eapply R_trans;
      [|apply IHc; [erewrite subtreeAt_snoc by exact Hn; reflexivity
                   | apply Hchild, Hn]].
    eapply R_trans; [|eapply R_onUnwrapCall; exact Hn].
    eapply R_onWrapCall; eassumption.
  - simpl. apply IHa; [erewrite subtreeAt_snoc by exact Hn; reflexivity|].
    apply Hchild, Hn.
  - simpl.
    eapply R_trans;
      [|apply IHp; [erewrite subtreeAt_snoc by exact Hn; reflexivity
                   | apply Hchild, Hn]].
    apply IHo; [erewrite subtreeAt_snoc by exact Hn; reflexivity|].
    apply Hchild, Hn.
  - simpl. eapply R_trans; [|apply R_exitFunction].
    eapply R_trans;
      [|apply IHb; [erewrite subtreeAt_snoc by exact Hn; reflexivity
                   | apply Hchild, Hn]].
    eapply R_trans;
      [|apply visitEach_located;
        [exact Hn | apply list_all_Forall in IHps; exact IHps
         | intros j d Hj; exact Hj]].
    apply R_enterFunction.
  - simpl. eapply R_trans; [|apply R_exitFunction].
    eapply R_trans;
      [|apply IHb; [erewrite subtreeAt_snoc by exact Hn; reflexivity
                   | apply Hchild, Hn]].
    eapply R_trans;
      [|apply visitEach_located;
        [exact Hn | apply list_all_Forall in IHps; exact IHps
         | intros j d Hj; exact Hj]].
    apply R_enterFunction.
  - simpl. apply visitEach_located; [exact Hn | | intros j d Hj; exact Hj].
    apply list_all_Forall in IHcs. exact IHcs.
Qed.

End Located.

Lemma subtreeAt_app (p q : NodeRef) (n m : Node) :
  subtreeAt p n = Some m -> subtreeAt (p ++ q) n = subtreeAt q m.
Proof.
  revert n. induction p as [|y p IH]; intros n H; simpl in *.
  - inversion H; reflexivity.
  - destruct (childAt y n) as [c|]; [apply IH; exact H | discriminate].
Qed.

Lemma in_set {V} (k k' : string) (v v' : V) (m : JsMap.t V) :
  In (k', v') (JsMap.set k v m) -> (k', v') = (k, v) \/ In (k', v') m.
Proof.
  induction m as [|[k0 v0] m IH]; simpl.
  - intros [E|[]]. left. symmetry. exact E.
  - destruct (String.eqb k k0); simpl.
    + intros [E|H]; [left; symmetry; exact E | right; right; exact H].
    + intros [E|H]; [right; left; exact E|].
      destruct (IH H) as [E|H']; [left; exact E | right; right; exact H'].
Qed.

Lemma in_keys {V} (k : string) (m : JsMap.t V) :
  In k (JsMap.keys m) -> exists v, In (k, v) m.
Proof.
  unfold JsMap.keys. rewrite in_map_iff. intros [[k' v] [E H]].
  simpl in E. subst k'. exists v. exact H.
Qed.

Lemma missingFrom_incl {V W} (other : JsMap.t W) (m : JsMap.t V) :
  incl (missingFrom other m) m.
Proof. intros kv H. apply filter_In in H. apply H. Qed.

Lemma combine_seq_Forall {A B} (Q : A * B -> Prop) (f : nat -> A) (l : list B) :
  forall k,
    (forall i t, nth_error l i = Some t -> Q (f (k + i), t)) ->
    Forall Q (combine (map f (seq k (length l))) l).
Proof.
  induction l as [|t l IH]; intros k H; simpl; constructor.
  - specialize (H 0 t eq_refl). rewrite Nat.add_0_r in H. exact H.
  - apply IH. intros i u Hi. specialize (H (S i) u Hi).
    replace (S k + i) with (k + S i) by lia. exact H.
Qed.

Section Placing.
Variable opts : Options.
Variable program : Node.

Local Abbreviation located := (locatedScope opts program).
Local Abbreviation placedHere := (placed opts program).

(** The members of the type parameter of a wrap call, with their
    positions. *)
Lemma typesOf_declaredAt (h : NodeRef) (param : TSType) :
  wrapCallAt opts program h (Some [param]) ->
  Forall (fun m => declaredAt opts program (fst m) (snd m))
         (typesOf (h ++ [typeParameters_]) param).
Proof.
  intros Hw. unfold typesOf. apply combine_seq_Forall. intros i t Hi. simpl.
  exists h, param.
  destruct param as [e|types|e|k]; simpl in *;
    try (destruct i as [|i]; [|destruct i; discriminate];
         inversion Hi; subst; exists []; repeat split; assumption).
  exists [types_ i]. repeat split; assumption.
Qed.

Lemma checkTypes_placed (l : list (NodeRef * TSType)) :
  Forall (fun m => declaredAt opts program (fst m) (snd m)) l ->
  forall r : Reconciliation,
    Forall placedHere (emitted r) ->
    (forall kv, In kv (declared r) ->
                declaredAt opts program (snd kv) (typeofId (fst kv))) ->
    Forall placedHere (emitted (fold_left checkType l r))
    /\ (forall kv, In kv (declared (fold_left checkType l r)) ->
                   declaredAt opts program (snd kv) (typeofId (fst kv))).
Proof.
  induction 1 as [|[tref tnode] l Hm Hl IH]; intros r He Hd;
    [split; assumption|].
  cbn [fold_left]. simpl in Hm.
  assert (Hbad : isDeclaredName tnode = false ->
            Forall placedHere (emitted (flag badWrapTypeArg tref r))).
  { intros Hwf. simpl. apply Forall_app. split; [exact He|].
    repeat constructor. exists tnode. split; assumption. }
  apply IH; unfold checkType;
    destruct tnode as [e| | |]; try (apply Hbad; reflexivity); try exact Hd;
    destruct e as [name|]; try (apply Hbad; reflexivity); try exact Hd;
    destruct (JsMap.has name (declared r)); try exact Hd; try exact He.
  - simpl. apply Forall_app. split; [exact He|].
    repeat constructor. exists name. exact Hm.
  - simpl. intros kv Hin. destruct kv as [k v].
    apply in_set in Hin. destruct Hin as [E|Hin]; [|apply Hd; exact Hin].
    inversion E; subst. exact Hm.
Qed.

Lemma unwrappedAt_keys (s : WrapScope) :
  located s ->
  forall name, In name (JsMap.keys (unwrappedFns s)) ->
               exists ref, unwrappedAt opts program name ref.
Proof.
  intros (_ & Hu & _) name Hin. apply in_keys in Hin.
  destruct Hin as [ref Hin]. exists ref. apply Hu. exact Hin.
Qed.

(** Every report of an exit sits where it belongs. *)
Lemma reconcile_placed (s : WrapScope) :
  located s -> Forall placedHere (reconcile s).
Proof.
  intros Hs. pose proof Hs as ((h & tps & Hc & Hw & Htp) & Hu & Hw0 & Hnd).
  assert (Hbw : placedHere (badWrapOf s)).
  { exists h, tps, (synthesizeFix s), (JsMap.keys (unwrappedFns s)).
    repeat split; auto.
    - unfold synthesizeFix, fixStrategy. rewrite Htp, Hc.
      destruct tps; simpl; split; reflexivity.
    - apply unwrappedAt_keys. exact Hs. }
  rewrite reconcile_parts. cbv zeta.
  set (r := checkTypeParameters s _).
  assert (Hr : Forall placedHere (emitted r)
               /\ forall kv, In kv (declared r) ->
                    declaredAt opts program (snd kv) (typeofId (fst kv))).
  { unfold r, checkTypeParameters.
    assert (Hmiss : (forall param, tps <> Some [param]) ->
              Forall placedHere
                (emitted (flag missingTypeParamInWrap (callee s)
                            (mkRecon false (wrappedFns s) [])))
              /\ forall kv,
                   In kv (declared (flag missingTypeParamInWrap (callee s)
                                      (mkRecon false (wrappedFns s) []))) ->
                   declaredAt opts program (snd kv) (typeofId (fst kv))).
    { intros Hno. simpl. rewrite Hw0. split; [|intros kv []].
      repeat constructor. exists h, tps. auto. }
    rewrite Htp.
    destruct tps as [[|param [|? ?]]|]; cbn [option_map];
      try (apply Hmiss; intros p0 E; discriminate).
    apply checkTypes_placed.
    - apply typesOf_declaredAt. exact Hw.
    - constructor.
    - simpl. rewrite Hw0. intros kv []. }
  destruct Hr as [He Hd].
  destruct (nonEmpty _); [|constructor].
  rewrite !Forall_app. repeat split.
  - exact He.
  - apply Forall_map, Forall_forall. intros [k v] Hin.
    apply missingFrom_incl in Hin. split; [reflexivity|].
    exists k. apply Hu. exact Hin.
  - apply Forall_map, Forall_forall. intros [k v] Hin.
    apply missingFrom_incl in Hin. split; [reflexivity|].
    exists k. apply (Hd (k, v)). exact Hin.
  - constructor; [exact Hbw | constructor].
Qed.

Lemma onWrapCall_located (here : NodeRef) (c : Node)
    (tps : option (list TSType)) (args : list Node)
    (parent : option (NodeRef * Node)) (st : State) :
  subtreeAt here program = Some (CallExpression c tps args) ->
  Forall located (wrappedScope st) ->
  Forall located (wrappedScope (onWrapCall opts here c tps parent st))
  /\ reported (onWrapCall opts here c tps parent st) = reported st.
Proof.
  intros Hn Hs. rewrite (onWrapCall_spec opts here c tps args).
  destruct (opensWrap opts _ parent) eqn:E; [|split; [exact Hs | reflexivity]].
  apply opensWrap_inv in E.
  destruct E as (tps' & args' & pr & pc & ptps & fn0 & Hc & _).
  inversion Hc; subst. split; [|reflexivity].
  constructor; [|exact Hs]. repeat split.
  - exists here, tps'. repeat split. exists args'. exact Hn.
  - intros k ref [].
  - constructor.
Qed.

Lemma onUnwrapCall_located (here : NodeRef) (c : Node)
    (tps : option (list TSType)) (args : list Node) (st : State) :
  subtreeAt here program = Some (CallExpression c tps args) ->
  Forall located (wrappedScope st) ->
  Forall placedHere (reported st) ->
  Forall located (wrappedScope (onUnwrapCall opts here c args st))
  /\ Forall placedHere (reported (onUnwrapCall opts here c args st)).
Proof.
  intros Hn Hs Hr. unfold onUnwrapCall.
  destruct (wrappedScope st) as [|scope upper] eqn:Hst;
    [rewrite Hst; split; [constructor | exact Hr]|].
  assert (Hsame : Forall located (wrappedScope st)
                  /\ Forall placedHere (reported st))
    by (rewrite Hst; split; assumption).
  destruct (inFn scope); [|exact Hsame].
  destruct c as [name| | | | | | |]; try exact Hsame.
  destruct (String.eqb_spec name (unwrapName opts)) as [->|]; [|exact Hsame].
  destruct args as [|arg [|? ?]]; try exact Hsame.
  cbn [negb].
  destruct (callExprOf here arg) as [ref ce] eqn:Hce.
  assert (Hbad : isNamedCall ce = false ->
            Forall located (wrappedScope (report (mkReport badUnwrapArg here None) st))
            /\ Forall placedHere
                 (reported (report (mkReport badUnwrapArg here None) st))).
  { intros Hshape. simpl. rewrite Hst. split; [exact Hs|].
    apply Forall_app. split; [exact Hr|]. repeat constructor.
    exists tps, arg. simpl. rewrite Hce. split; [exact Hn | exact Hshape]. }
  destruct ce as [| |cc ctps cargs| | | | |]; try (apply Hbad; reflexivity).
  destruct cc as [name| | | | | | |]; try (apply Hbad; reflexivity).
  simpl. split; [|exact Hr].
  inversion Hs as [|? ? ((h & tps0 & Hc & Hw & Htp) & Hu & Hw0 & Hnd) Hup];
    subst.
  constructor; [|exact Hup]. repeat split; simpl.
  - exists h, tps0. auto.
  - intros k r Hin. apply in_set in Hin.
    destruct Hin as [E|Hin]; [|apply Hu; exact Hin].
    inversion E; subst.
    exists here, tps, arg, ctps, cargs. repeat split; [exact Hn | exact Hce|].
    unfold callExprOf in Hce.
    destruct arg; inversion Hce; subst;
      try (erewrite subtreeAt_snoc by exact Hn; reflexivity).
    erewrite (subtreeAt_app here [arguments_ 0; argument_]) by exact Hn.
    reflexivity.
  - exact Hw0.
  - apply JsMapFacts.NoDup_keys_set. exact Hnd.
Qed.

(** The walk of the program keeps every open scope located and every
    report placed. *)
Lemma traverse_placed (n : Node) (parent : option (NodeRef * Node))
    (here : NodeRef) (st : State) :
  subtreeAt here program = Some n ->
  parentAt program parent here ->
  Forall located (wrappedScope st) /\ Forall placedHere (reported st) ->
  Forall located (wrappedScope (traverse opts parent here n st))
  /\ Forall placedHere (reported (traverse opts parent here n st)).
Proof.
  revert n parent here st.
  apply (traverse_located opts program
           (fun a b =>
              Forall located (wrappedScope a) /\ Forall placedHere (reported a) ->
              Forall located (wrappedScope b) /\ Forall placedHere (reported b))).
  - auto.
  - auto.
  - intros here c tps args parent st Hn _ [Hs Hr].
    destruct (onWrapCall_located here c tps args parent st Hn Hs) as [Hs' E].
    rewrite E. split; assumption.
  - intros here c tps args st Hn [Hs Hr].
    eapply onUnwrapCall_located; eassumption.
  - intros here st [Hs Hr]. unfold enterFunction.
    destruct (wrappedScope st) as [|s u] eqn:E; [rewrite E; split; assumption|].
    destruct (NodeRef_eqb (fn s) here); simpl; [|rewrite E; split; assumption].
    split; [|exact Hr]. inversion Hs; subst. constructor; assumption.
  - intros here st [Hs Hr]. unfold exitFunction.
    destruct (wrappedScope st) as [|s u] eqn:E; [rewrite E; split; assumption|].
    destruct (NodeRef_eqb (fn s) here); simpl; [|rewrite E; split; assumption].
    inversion Hs; subst. split; [assumption|].
    apply Forall_app. split; [exact Hr|]. apply reconcile_placed. assumption.
Qed.

Lemma lint_placed : Forall placedHere (lint opts program).
Proof.
  unfold lint.
  apply (traverse_placed program None [] initial eq_refl I).
  split; constructor.
Qed.

End Placing.

(* ===================================================================== *)
(** ** Where the reports of a program point *)
(* ===================================================================== *)

(** The rule has nothing to say about the package's own test code; and
    it would, were one of the two declared functions left out. *)
Example lint_repository_test_code :
  lint defaultOptions MoreSamples.wrappedFunction = [].
Proof. reflexivity. Qed.

Example lint_repository_test_code_underdeclared :
  map messageId
    (lint defaultOptions
       (editAt [callee_] (setTypeParameters [typeofId "maybeError"])
               MoreSamples.wrappedFunction))
  = [unwrapNotInWrap; badWrap].
Proof. reflexivity. Qed.

Lemma placed_in (opts : Options) (program : Node) (r : Report) :
  In r (lint opts program) -> placed opts program r.
Proof.
  intros H. exact (proj1 (Forall_forall _ _) (lint_placed opts program) r H).
Qed.

(** X5.  Every [badUnwrapArg] report of a program points at a call of the
    unwrap identifier with exactly one argument, and that argument (or what
    it awaits) is not a call of a bare identifier.  It carries no fix. *)
Theorem badUnwrapArg_points_at_a_misused_unwrap_call
    (opts : Options) (program : Node) (r : Report) :
  In r (lint opts program) ->
  messageId r = badUnwrapArg ->
  fix_ r = None
  /\ exists tps arg,
       subtreeAt (node r) program
       = Some (CallExpression (Identifier (unwrapName opts)) tps [arg])
       /\ isNamedCall (snd (callExprOf (node r) arg)) = false.
Proof.
  intros Hin Hm. apply placed_in in Hin. unfold placed in Hin.
  rewrite Hm in Hin. exact Hin.
Qed.

Lemma badUnwrapArg_points_at_a_misused_unwrap_call_witness :
  let r := mkReport badUnwrapArg [arguments_ 0; body_; children_ 1] None in
  fix_ r = None
  /\ exists tps arg,
       subtreeAt (node r) MoreSamples.untidy
       = Some (CallExpression (Identifier (unwrapName defaultOptions)) tps [arg])
       /\ isNamedCall (snd (callExprOf (node r) arg)) = false.
Proof.
  intros r.
  apply (badUnwrapArg_points_at_a_misused_unwrap_call
           defaultOptions MoreSamples.untidy r).
  - vm_compute. tauto.
  - reflexivity.
Defined.

(** X6.  Every [unwrapNotInWrap] report of a program points at the call
    that some unwrap call of the program unwraps: its argument, or what its
    argument awaits, a call of a bare identifier.  It carries no fix. *)
Theorem unwrapNotInWrap_points_at_the_unwrapped_call
    (opts : Options) (program : Node) (r : Report) :
  In r (lint opts program) ->
  messageId r = unwrapNotInWrap ->
  fix_ r = None
  /\ exists name, unwrappedAt opts program name (node r).
Proof.
  intros Hin Hm. apply placed_in in Hin. unfold placed in Hin.
  rewrite Hm in Hin. exact Hin.
Qed.

Lemma unwrapNotInWrap_points_at_the_unwrapped_call_witness :
  let r := mkReport unwrapNotInWrap
             [arguments_ 0; body_; children_ 0; arguments_ 0] None in
  fix_ r = None
  /\ exists name, unwrappedAt defaultOptions MoreSamples.untidy name (node r).
Proof.
  intros r.
  apply (unwrapNotInWrap_points_at_the_unwrapped_call
           defaultOptions MoreSamples.untidy r).
  - vm_compute. tauto.
  - reflexivity.
Defined.

(** X7.  Every [badWrap] report of a program points at the wrap
    identifier of a wrap call and carries a fix for that call: inserted
    after the identifier when the call has no type parameters, replacing
    the type-parameter list when it has one. *)
Theorem badWrap_fix_targets_its_wrap_call
    (opts : Options) (program : Node) (r : Report) :
  In r (lint opts program) ->
  messageId r = badWrap ->
  exists h tps f,
    node r = h ++ [callee_]
    /\ wrapCallAt opts program h tps
    /\ fix_ r = Some f
    /\ match tps with
       | None => fixKind f = after /\ fixTarget f = h ++ [callee_]
       | Some _ => fixKind f = replace /\ fixTarget f = h ++ [typeParameters_]
       end.
Proof.
  intros Hin Hm. apply placed_in in Hin. unfold placed in Hin.
  rewrite Hm in Hin.
  destruct Hin as (h & tps & f & names & Hn & Hw & Hf & Hk & _).
  exists h, tps, f. auto.
Qed.

Lemma badWrap_fix_targets_its_wrap_call_witness :
  let r := mkReport badWrap [callee_; callee_]
             (Some (mkFix after [callee_; callee_] "<typeof f>")) in
  exists h tps f,
    node r = h ++ [callee_]
    /\ wrapCallAt defaultOptions MoreSamples.undeclared h tps
    /\ fix_ r = Some f
    /\ match tps with
       | None => fixKind f = after /\ fixTarget f = h ++ [callee_]
       | Some _ => fixKind f = replace /\ fixTarget f = h ++ [typeParameters_]
       end.
Proof.
  intros r.
  apply (badWrap_fix_targets_its_wrap_call
           defaultOptions MoreSamples.undeclared r).
  - vm_compute. tauto.
  - reflexivity.
Defined.

(** X8.  The text of every fix of a program lists names without
    repetition, and every name it lists is the callee of a call that some
    unwrap call of the program unwraps. *)
Theorem fix_text_lists_unwrapped_names_once
    (opts : Options) (program : Node) (r : Report) (f : Fix) :
  In r (lint opts program) ->
  fix_ r = Some f ->
  exists names,
    fixText f = fixedText names
    /\ NoDup names
    /\ forall name, In name names ->
                    exists ref, unwrappedAt opts program name ref.
Proof.
  intros Hin Hf. apply placed_in in Hin. unfold placed, plain in Hin.
  destruct (messageId r);
    try (destruct Hin as [Hp _]; congruence); try contradiction.
  destruct Hin as (h & tps & f' & names & _ & _ & Hf' & _ & Ht & Hnd & Hu).
  assert (f' = f) as -> by congruence.
  exists names. auto.
Qed.

Lemma fix_text_lists_unwrapped_names_once_witness :
  let f := mkFix replace [callee_; typeParameters_] "<typeof h | typeof f>" in
  exists names,
    fixText f = fixedText names
    /\ NoDup names
    /\ forall name, In name names ->
         exists ref, unwrappedAt defaultOptions MoreSamples.untidy name ref.
Proof.
  intros f.
  apply (fix_text_lists_unwrapped_names_once
           defaultOptions MoreSamples.untidy
           (mkReport badWrap [callee_; callee_] (Some f)) f).
  - vm_compute. tauto.
  - reflexivity.
Defined.

(** X9.  Every [missingTypeParamInWrap] report of a program points at the
    wrap identifier of a wrap call whose type parameters are missing or are
    not exactly one.  It carries no fix. *)
Theorem missingTypeParamInWrap_points_at_such_a_wrap_call
    (opts : Options) (program : Node) (r : Report) :
  In r (lint opts program) ->
  messageId r = missingTypeParamInWrap ->
  fix_ r = None
  /\ exists h tps,
       node r = h ++ [callee_]
       /\ wrapCallAt opts program h tps
       /\ forall param, tps <> Some [param].
Proof.
  intros Hin Hm. apply placed_in in Hin. unfold placed in Hin.
  rewrite Hm in Hin. exact Hin.
Qed.

Lemma missingTypeParamInWrap_points_at_such_a_wrap_call_witness :
  let r := mkReport missingTypeParamInWrap [callee_; callee_] None in
  fix_ r = None
  /\ exists h tps,
       node r = h ++ [callee_]
       /\ wrapCallAt defaultOptions MoreSamples.undeclared h tps
       /\ forall param, tps <> Some [param].
Proof.
  intros r.
  apply (missingTypeParamInWrap_points_at_such_a_wrap_call
           defaultOptions MoreSamples.undeclared r).
  - vm_compute. tauto.
  - reflexivity.
Defined.

(** X10.  The reports about the declaration point at members of the one
    type parameter of a wrap call: [badWrapTypeArg] at a member that is not
    [typeof identifier], [duplicatedWrapArg] and [wrappedFnNotUnwrapped]
    at a member that is. *)
Theorem declaration_reports_point_at_members
    (opts : Options) (program : Node) (r : Report) :
  In r (lint opts program) ->
  (messageId r = badWrapTypeArg ->
   exists t, declaredAt opts program (node r) t /\ isDeclaredName t = false)
  /\ (messageId r = duplicatedWrapArg \/ messageId r = wrappedFnNotUnwrapped ->
      exists name, declaredAt opts program (node r) (typeofId name)).
Proof.
  intros Hin. apply placed_in in Hin. unfold placed in Hin. split.
  - intros Hm. rewrite Hm in Hin. apply Hin.
  - intros [Hm|Hm]; rewrite Hm in Hin; apply Hin.
Qed.

Lemma declaration_reports_point_at_members_witness :
  let r := mkReport duplicatedWrapArg
             [callee_; typeParameters_; params_ 0; types_ 1] None in
  (messageId r = badWrapTypeArg ->
   exists t, declaredAt defaultOptions MoreSamples.untidy (node r) t
             /\ isDeclaredName t = false)
  /\ (messageId r = duplicatedWrapArg \/ messageId r = wrappedFnNotUnwrapped ->
      exists name,
        declaredAt defaultOptions MoreSamples.untidy (node r) (typeofId name)).
Proof.
  intros r.
  apply (declaration_reports_point_at_members
           defaultOptions MoreSamples.untidy r).
  vm_compute. tauto.
Defined.

(** X11.  The message [badUnwrap] is never reported. *)
Theorem badUnwrap_is_never_reported (opts : Options) (program : Node) :
  countOf badUnwrap (lint opts program) = 0.
Proof.
  apply countOf_plain_kinds.
  eapply Forall_impl; [|apply (lint_placed opts program)].
  intros r Hr Hm. unfold placed in Hr. rewrite Hm in Hr. exact Hr.
Qed.

(** X12.  In the reports of a program, [badWrap] is the one message that
    carries a fix: every [badWrap] report has one, no other report has. *)
Theorem only_badWrap_carries_a_fix (opts : Options) (program : Node) :
  Forall (fun r => fix_ r <> None <-> messageId r = badWrap)
         (lint opts program).
Proof.
  eapply Forall_impl; [|apply (lint_placed opts program)].
  intros r Hr. unfold placed, plain in Hr.
  destruct (messageId r); try contradiction;
    try (destruct Hr as [Hp _]; split; [congruence | discriminate]).
  destruct Hr as (h & tps & f & names & _ & _ & Hf & _).
  split; [reflexivity | congruence].
Qed.

(* ===================================================================== *)
(** ** Whole programs: scopes opened and closed *)
(* ===================================================================== *)

(** X13.  When the walk of a program is over, no scope is left open:
    every scope [onWrapCall] pushed has been popped by the exit of its
    function. *)
Theorem walk_leaves_no_scope_open (opts : Options) (program : Node) :
  wrappedScope (traverse opts None [] program initial) = [].
Proof.
  pose proof (traverse_walksWell opts program None [] initial I) as W.
  unfold chainAfter in W. simpl in W.
  assert (Ho : opensWrap opts program None = false).
  { unfold opensWrap. destruct program as [| |c ? ?| | | | |]; try reflexivity.
    destruct c; reflexivity. }
  rewrite Ho, andb_false_r in W.
  assert (Hc : clear [] []) by (intros s []).
  specialize (W Hc).
  destruct (wrappedScope (traverse opts None [] program initial));
    [reflexivity | contradiction].
Qed.

(** The callee of a call opens a scope exactly when the call is a
    recognised construct. *)
Lemma opensWrap_callee (opts : Options) (h : NodeRef) (c : Node)
    (tps : option (list TSType)) (args : list Node) :
  opensWrap opts c (Some (h, CallExpression c tps args))
  = isConstruct opts (CallExpression c tps args).
Proof.
  unfold opensWrap, isConstruct. destruct c; reflexivity.
Qed.

Lemma opensWrap_not_call (opts : Options) (c : Node) (h : NodeRef) (p : Node) :
  match p with CallExpression _ _ _ => False | _ => True end ->
  opensWrap opts c (Some (h, p)) = false.
Proof.
  intros Hp. destruct (opensWrap opts c (Some (h, p))) eqn:E; [|reflexivity].
  apply opensWrap_parent_call in E. destruct E as (pc & ptps & fn0 & ->).
  contradiction.
Qed.

Lemma list_sum_zero (l : list nat) :
  list_sum l = 0 -> Forall (fun x => x = 0) l.
Proof.
  induction l as [|x l IH]; simpl; intros H; constructor; [lia|].
  apply IH. lia.
Qed.

Lemma visitEach_idle (opts : Options) (me : option (NodeRef * Node))
    (at_ : nat -> NodeRef) (l : list Node) (st : State) :
  Forall (fun c => forall h, traverse opts me h c st = st) l ->
  forall i, visitEach (traverse opts me) at_ i l st = st.
Proof.
  induction 1 as [|c l Hc Hl IH]; intros i; simpl; [reflexivity|].
  rewrite Hc. apply IH.
Qed.

(** Without a recognised construct below, and outside any scope, the walk
    does nothing. *)
Lemma traverse_idle (opts : Options) (n : Node) :
  forall parent here st,
    constructs opts n = 0 ->
    opensWrap opts n parent = false ->
    wrappedScope st = [] ->
    traverse opts parent here n st = st.
Proof.
  induction n as [name|raw|c IHc tps args IHargs|a IHa|o IHo p IHp
                  |async ps IHps b IHb|async ps IHps b IHb|cs IHcs];
    intros parent here st Hz Ho Hst.
  - reflexivity.
  - reflexivity.
  - rewrite traverse_call. cbv zeta.
    rewrite (onWrapCall_spec opts here c tps args), Ho.
    rewrite onUnwrapCall_idle by (rewrite Hst; exact I).
    cbn [constructs] in Hz.
    destruct (isConstruct opts (CallExpression c tps args)) eqn:Hk;
      [discriminate|].
    rewrite IHc; [| lia | rewrite opensWrap_callee; exact Hk | exact Hst].
    apply visitEach_idle. apply list_all_Forall in IHargs.
    assert (Hargs : Forall (fun x => x = 0) (map (constructs opts) args))
      by (apply list_sum_zero; lia).
    rewrite Forall_map in Hargs.
    apply Forall_forall. intros x Hx h.
    apply (proj1 (Forall_forall _ _) IHargs x Hx).
    + apply (proj1 (Forall_forall _ _) Hargs x Hx).
    + apply argument_never_opens. exact Hx.
    + exact Hst.
  - simpl. cbn [constructs] in Hz. simpl in Hz.
    apply IHa; [exact Hz | apply opensWrap_not_call; exact I | exact Hst].
  - simpl. cbn [constructs] in Hz. simpl in Hz.
    rewrite IHo; [| lia | apply opensWrap_not_call; exact I | exact Hst].
    apply IHp; [lia | apply opensWrap_not_call; exact I | exact Hst].
  - simpl. cbn [constructs] in Hz. simpl in Hz.
    rewrite enterFunction_other by (rewrite Hst; reflexivity).
    rewrite visitEach_idle.
    + rewrite IHb; [| lia | apply opensWrap_not_call; exact I | exact Hst].
      apply exitFunction_other. rewrite Hst. reflexivity.
    + apply list_all_Forall in IHps.
      assert (Hps : Forall (fun x => x = 0) (map (constructs opts) ps))
        by (apply list_sum_zero; lia).
      rewrite Forall_map in Hps.
      apply Forall_forall. intros x Hx h.
      apply (proj1 (Forall_forall _ _) IHps x Hx).
      * apply (proj1 (Forall_forall _ _) Hps x Hx).
      * apply opensWrap_not_call; exact I.
      * exact Hst.
  - simpl. cbn [constructs] in Hz. simpl in Hz.
    rewrite enterFunction_other by (rewrite Hst; reflexivity).
    rewrite visitEach_idle.
    + rewrite IHb; [| lia | apply opensWrap_not_call; exact I | exact Hst].
      apply exitFunction_other. rewrite Hst. reflexivity.
    + apply list_all_Forall in IHps.
      assert (Hps : Forall (fun x => x = 0) (map (constructs opts) ps))
        by (apply list_sum_zero; lia).
      rewrite Forall_map in Hps.
      apply Forall_forall. intros x Hx h.
      apply (proj1 (Forall_forall _ _) IHps x Hx).
      * apply (proj1 (Forall_forall _ _) Hps x Hx).
      * apply opensWrap_not_call; exact I.
      * exact Hst.
  - simpl. cbn [constructs] in Hz. simpl in Hz.
    apply visitEach_idle. apply list_all_Forall in IHcs.
    assert (Hcs : Forall (fun x => x = 0) (map (constructs opts) cs))
      by (apply list_sum_zero; lia).
    rewrite Forall_map in Hcs.
    apply Forall_forall. intros x Hx h.
    apply (proj1 (Forall_forall _ _) IHcs x Hx).
    + apply (proj1 (Forall_forall _ _) Hcs x Hx).
    + apply opensWrap_not_call; exact I.
    + exact Hst.
Qed.

(** X14.  A program without a recognised wrap construct gets no report,
    whatever unwrap calls, wrap identifiers and functions it holds. *)
Theorem no_construct_no_report (opts : Options) (program : Node) :
  constructs opts program = 0 -> lint opts program = [].
Proof.
  intros Hz. unfold lint. rewrite traverse_idle; auto.
  unfold opensWrap. destruct program as [| |c ? ?| | | | |]; try reflexivity.
  destruct c; reflexivity.
Qed.

Lemma no_construct_no_report_witness :
  lint defaultOptions
    (OtherNode
       [MoreSamples.unwrapLiteral;
        Samples.unwrapOf "f";
        (* wrap()(() => { unwrap(5) }): the function is not asynchronous *)
        wrapConstruct defaultOptions None [] None
          (ArrowFunctionExpression false [] (OtherNode [MoreSamples.unwrapLiteral]));
        (* wrap(async () => { unwrap(5) }): the wrap call is not called *)
        CallExpression (Identifier "wrap") None
          [ArrowFunctionExpression true [] (OtherNode [MoreSamples.unwrapLiteral])];
        (* wrap()(async () => { unwrap(5) }, 1): two arguments *)
        CallExpression (CallExpression (Identifier "wrap") None []) None
          [ArrowFunctionExpression true [] (OtherNode [MoreSamples.unwrapLiteral]);
           Literal "1"];
        (* lib.wrap()(async () => { unwrap(5) }): not a bare identifier *)
        CallExpression
          (CallExpression (MemberExpression (Identifier "lib") (Identifier "wrap"))
                          None [])
          None
          [ArrowFunctionExpression true [] (OtherNode [MoreSamples.unwrapLiteral])]])
  = [].
Proof. apply no_construct_no_report. reflexivity. Defined.

Lemma countOf_badWrap_reconcile (scope : WrapScope) :
  countOf badWrap (reconcile scope) <= 1.
Proof.
  rewrite reconcile_parts. cbv zeta.
  pose proof (reconcile_body scope) as B. cbv zeta in B.
  destruct (nonEmpty _); [|unfold countOf; simpl; lia].
  rewrite countOf_app, (countOf_plain_kinds badWrap).
  - unfold countOf. simpl. lia.
  - eapply Forall_impl; [|exact B]. intros x Hx. apply Hx.
Qed.

Lemma pending_onWrapCall (opts : Options) (here : NodeRef) (c : Node)
    (tps : option (list TSType)) (args : list Node)
    (parent : option (NodeRef * Node)) (st : State) :
  pending (onWrapCall opts here c tps parent st)
  = pending st + opening opts (CallExpression c tps args) parent.
Proof.
  rewrite (onWrapCall_spec opts here c tps args). unfold opening, pending.
  destruct (opensWrap opts _ parent); simpl; lia.
Qed.

Lemma pending_onUnwrapCall (opts : Options) (here : NodeRef) (c : Node)
    (args : list Node) (st : State) :
  pending (onUnwrapCall opts here c args st) = pending st.
Proof.
  unfold onUnwrapCall.
  destruct (wrappedScope st) as [|scope upper] eqn:Hst; [reflexivity|].
  destruct (inFn scope); [|reflexivity].
  destruct c; try reflexivity.
  destruct (String.eqb name (unwrapName opts)); [|reflexivity].
  destruct args as [|arg [|? ?]]; try reflexivity.
  cbn [negb]. destruct (callExprOf here arg) as [ref ce].
  assert (Hbad : pending (report (mkReport badUnwrapArg here None) st)
                 = pending st).
  { unfold pending. simpl. rewrite countOf_app. unfold countOf at 2. simpl.
    lia. }
  destruct ce as [| |cc ? ?| | | | |]; try exact Hbad.
  destruct cc; try exact Hbad.
  unfold pending. simpl. rewrite Hst. reflexivity.
Qed.

Lemma pending_enterFunction (here : NodeRef) (st : State) :
  pending (enterFunction here st) = pending st.
Proof.
  unfold enterFunction.
  destruct (wrappedScope st) as [|s u] eqn:E; [reflexivity|].
  destruct (NodeRef_eqb (fn s) here); [|reflexivity].
  unfold pending. simpl. rewrite E. reflexivity.
Qed.

Lemma pending_exitFunction (here : NodeRef) (st : State) :
  pending (exitFunction here st) <= pending st.
Proof.
  unfold exitFunction.
  destruct (wrappedScope st) as [|s u] eqn:E; [apply Nat.le_refl|].
  destruct (NodeRef_eqb (fn s) here); [|apply Nat.le_refl].
  unfold pending. simpl. rewrite E, countOf_app. simpl.
  pose proof (countOf_badWrap_reconcile s). lia.
Qed.

Lemma visitEach_pending (opts : Options) (me : option (NodeRef * Node))
    (at_ : nat -> NodeRef) (l : list Node) :
  Forall (fun c => forall h st,
            pending (traverse opts me h c st)
            <= pending st + constructs opts c) l ->
  forall i st,
    pending (visitEach (traverse opts me) at_ i l st)
    <= pending st + list_sum (map (constructs opts) l).
Proof.
  induction 1 as [|c l Hc Hl IH]; intros i st; simpl; [lia|].
  specialize (IH (S i) (traverse opts me (at_ i) c st)).
  specialize (Hc (at_ i) st). lia.
Qed.

(** Walking a subtree adds at most one [badWrap] report or open scope per
    scope it opens. *)
Lemma traverse_pending (opts : Options) (n : Node) :
  forall parent here st,
    pending (traverse opts parent here n st)
    <= pending st + opening opts n parent + constructs opts n.
Proof.
  assert (Hquiet : forall (c : Node) h p,
            match p with CallExpression _ _ _ => False | _ => True end ->
            opening opts c (Some (h, p)) = 0).
  { intros c h p Hp. unfold opening. rewrite opensWrap_not_call; auto. }
  assert (Hlist : forall l me,
            list_all Node
              (fun c => forall parent here st,
                 pending (traverse opts parent here c st)
                 <= pending st + opening opts c parent + constructs opts c) l ->
            (forall c, In c l -> opening opts c me = 0) ->
            Forall (fun c => forall h st,
                      pending (traverse opts me h c st)
                      <= pending st + constructs opts c) l).
  { intros l me IH Hno. apply list_all_Forall in IH.
    apply Forall_forall. intros c Hc h st.
    pose proof (proj1 (Forall_forall _ _) IH c Hc me h st) as H.
    rewrite (Hno c Hc) in H. lia. }
  induction n as [name|raw|c IHc tps args IHargs|a IHa|o IHo p IHp
                  |async ps IHps b IHb|async ps IHps b IHb|cs IHcs];
    intros parent here st.
  - simpl. lia.
  - simpl. lia.
  - rewrite traverse_call. cbv zeta.
    set (me := Some (here, CallExpression c tps args)).
    set (st1 := onWrapCall opts here c tps parent st).
    set (st2 := onUnwrapCall opts here c args st1).
    set (st3 := traverse opts me (here ++ [callee_]) c st2).
    pose proof (pending_onWrapCall opts here c tps args parent st) as H1.
    pose proof (pending_onUnwrapCall opts here c args st1) as H2.
    pose proof (IHc me (here ++ [callee_]) st2) as H3.
    pose proof (visitEach_pending opts me (fun i => here ++ [arguments_ i]) args
                  (Hlist args me IHargs
                     (fun x Hx => ltac:(unfold opening, me;
                                        rewrite (argument_never_opens opts here c tps args x Hx);
                                        reflexivity)))
                  0 st3) as H4.
    fold st1 in H1. fold st2 in H2. fold st3 in H3.
    unfold opening in H3 at 1. unfold me in H3.
    rewrite opensWrap_callee in H3.
    cbn [constructs].
    destruct (isConstruct opts (CallExpression c tps args)); lia.
  - simpl. pose proof (IHa (Some (here, AwaitExpression a))
                           (here ++ [argument_]) st) as H.
    rewrite Hquiet in H by exact I. cbn [constructs]. simpl. lia.
  - simpl.
    set (me := Some (here, MemberExpression o p)).
    pose proof (IHo me (here ++ [object_]) st) as H1.
    pose proof (IHp me (here ++ [property_])
                    (traverse opts me (here ++ [object_]) o st)) as H2.
    unfold me in H1, H2. rewrite Hquiet in H1, H2 by exact I.
    cbn [constructs]. simpl. fold me in H1, H2 |- *. lia.
  - simpl.
    set (me := Some (here, FunctionExpression async ps b)).
    set (st1 := enterFunction here st).
    set (st2 := visitEach (traverse opts me) (fun i => here ++ [params_ i]) 0 ps st1).
    set (st3 := traverse opts me (here ++ [body_]) b st2).
    pose proof (pending_enterFunction here st) as H1.
    pose proof (visitEach_pending opts me (fun i => here ++ [params_ i]) ps
                  (Hlist ps me IHps (fun x _ => Hquiet x here (FunctionExpression async ps b) I)) 0 st1) as H2.
    pose proof (IHb me (here ++ [body_]) st2) as H3.
    pose proof (pending_exitFunction here st3) as H4.
    unfold me in H3 at 2. rewrite Hquiet in H3 by exact I.
    fold st1 in H1. fold st2 in H2. fold me st3 in H3.
    cbn [constructs]. simpl. lia.
  - simpl.
    set (me := Some (here, ArrowFunctionExpression async ps b)).
    set (st1 := enterFunction here st).
    set (st2 := visitEach (traverse opts me) (fun i => here ++ [params_ i]) 0 ps st1).
    set (st3 := traverse opts me (here ++ [body_]) b st2).
    pose proof (pending_enterFunction here st) as H1.
    pose proof (visitEach_pending opts me (fun i => here ++ [params_ i]) ps
                  (Hlist ps me IHps (fun x _ => Hquiet x here (ArrowFunctionExpression async ps b) I)) 0 st1) as H2.
    pose proof (IHb me (here ++ [body_]) st2) as H3.
    pose proof (pending_exitFunction here st3) as H4.
    unfold me in H3 at 2. rewrite Hquiet in H3 by exact I.
    fold st1 in H1. fold st2 in H2. fold me st3 in H3.
    cbn [constructs]. simpl. lia.
  - simpl.
    set (me := Some (here, OtherNode cs)).
    pose proof (visitEach_pending opts me (fun i => here ++ [children_ i]) cs
                  (Hlist cs me IHcs (fun x _ => Hquiet x here (OtherNode cs) I)) 0 st) as H.
    cbn [constructs]. simpl. lia.
Qed.

(** X15.  A program gets at most one [badWrap] report, and so at most one
    fix, per recognised wrap construct. *)
Theorem at_most_one_badWrap_per_construct (opts : Options) (program : Node) :
  countOf badWrap (lint opts program) <= constructs opts program.
Proof.
  pose proof (traverse_pending opts program None [] initial) as H.
  unfold pending, opening in H. simpl in H.
  assert (Ho : opensWrap opts program None = false).
  { unfold opensWrap. destruct program as [| |c ? ?| | | | |]; try reflexivity.
    destruct c; reflexivity. }
  rewrite Ho in H. unfold lint. lia.
Qed.

(* ===================================================================== *)
(** ** Functions and calls that are not the scope's own *)
(* ===================================================================== *)

(** X16.  A function literal that is not the one the current scope was
    opened for is transparent: entering and leaving it do nothing, so its
    walk is the walk of its parameters and body, after which the current
    scope is still the same scope, with the unwrap calls found inside
    recorded in it. *)
Theorem other_function_literals_are_transparent
    (opts : Options) (n : Node) (parent : option (NodeRef * Node))
    (here : NodeRef) (st : State) :
  isFunctionLiteral n = true ->
  clear here (wrappedScope st) ->
  topIs here (wrappedScope st) = false ->
  traverse opts parent here n st
  = walkKids opts (Some (here, n)) here (kids n) st
  /\ frame (wrappedScope st) (wrappedScope (traverse opts parent here n st)).
Proof.
  intros Hfun Hclear Htop.
  assert (Hin : forall ps b,
            kids n = indexed params_ 0 ps ++ [(body_, b)] ->
            frame (wrappedScope st)
                  (wrappedScope
                     (walkKids opts (Some (here, n)) here (kids n) st))).
  { intros ps b Hk. rewrite Hk, walkKids_app, <- visitEach_indexed.
    apply (function_inside_frame opts n ps b here st Hfun Hclear). }
  assert (Hwalk : traverse opts parent here n st
                  = walkKids opts (Some (here, n)) here (kids n) st).
  { rewrite traverse_unfold.
    destruct n as [| | | | |a ps b|a ps b|]; try discriminate;
      cbn [arrive leave]; rewrite enterFunction_other by exact Htop;
      apply exitFunction_other;
      rewrite (frame_topIs here _ _ (Hin ps b eq_refl)); exact Htop. }
  split; [exact Hwalk|]. rewrite Hwalk.
  destruct n as [| | | | |a ps b|a ps b|]; try discriminate;
    apply (Hin ps b eq_refl).
Qed.

Lemma other_function_literals_are_transparent_witness :
  let scope :=
    mkScope [arguments_ 0] [callee_; callee_] None true JsMap.empty JsMap.empty in
  let st := mkState [scope] [] in
  let here := [arguments_ 0; body_; children_ 0] in
  let n := ArrowFunctionExpression false [] (OtherNode [Samples.unwrapOf "f"]) in
  traverse defaultOptions None here n st
  = walkKids defaultOptions (Some (here, n)) here (kids n) st
  /\ frame (wrappedScope st)
           (wrappedScope (traverse defaultOptions None here n st)).
Proof.
  intros scope st here n.
  apply (other_function_literals_are_transparent defaultOptions n None here st).
  - reflexivity.
  - intros s [<-|[]] (x & rest & E). discriminate.
  - reflexivity.
Defined.

(** X17.  The call that opens a scope is never taken for an unwrap call
    on the same visit, whatever the two names are: the listener pushes the
    new scope and reports nothing. *)
Theorem opening_call_is_not_an_unwrap_call
    (opts : Options) (here : NodeRef) (c : Node) (tps : option (list TSType))
    (args : list Node) (parent : option (NodeRef * Node)) (st : State) :
  opensWrap opts (CallExpression c tps args) parent = true ->
  visitCallExpression opts here c tps args parent st
  = mkState (openedScope here tps (parentRefOf parent) :: wrappedScope st)
            (reported st).
Proof.
  intros Ho. unfold visitCallExpression.
  rewrite (onWrapCall_spec opts here c tps args), Ho.
  apply onUnwrapCall_idle. reflexivity.
Qed.

Lemma opening_call_is_not_an_unwrap_call_witness :
  let opts := mkOptions "run" "run" in
  let fnLit := ArrowFunctionExpression true [] (OtherNode []) in
  let args := [CallExpression (Identifier "f") None []] in
  let outer := mkScope [] [callee_] None true JsMap.empty JsMap.empty in
  let st := mkState [outer] [] in
  let here := [children_ 0; callee_] in
  let parent :=
    Some ([children_ 0],
          CallExpression (CallExpression (Identifier "run") None args) None
                         [fnLit]) in
  visitCallExpression opts here (Identifier "run") None args parent st
  = mkState (openedScope here None (parentRefOf parent) :: wrappedScope st)
            (reported st).
Proof.
  intros opts fnLit args outer st here parent.
  apply (opening_call_is_not_an_unwrap_call opts here (Identifier "run") None
           args parent st).
  reflexivity.
Defined.

(** X18.  Awaiting the unwrapped call or not makes no difference to what
    is reported and to which names are recorded; only one [await] is
    looked through. *)
Theorem one_await_is_looked_through
    (opts : Options) (here : NodeRef) (c a : Node) (st : State) :
  (forall b, a <> AwaitExpression b) ->
  let direct := onUnwrapCall opts here c [a] st in
  let awaited := onUnwrapCall opts here c [AwaitExpression a] st in
  reported awaited = reported direct
  /\ recordedNames awaited = recordedNames direct
  /\ length (wrappedScope awaited) = length (wrappedScope direct).
Proof.
  intros Hno. cbv zeta. unfold onUnwrapCall, recordedNames.
  destruct (wrappedScope st) as [|scope upper] eqn:Hst; [auto|].
  destruct (inFn scope); [|auto].
  destruct c; auto.
  destruct (String.eqb name (unwrapName opts)); [|auto].
  cbn [negb callExprOf].
  destruct a as [| |cc ? ?|b| | | |]; auto.
  - destruct cc; simpl; rewrite ?JsMapFacts.keys_set; auto.
  - exfalso. apply (Hno b). reflexivity.
Qed.

Lemma one_await_is_looked_through_witness :
  let scope :=
    mkScope [arguments_ 0] [callee_; callee_] None true JsMap.empty JsMap.empty in
  let st := mkState [scope] [] in
  let a := CallExpression (Identifier "f") None [] in
  let direct := onUnwrapCall defaultOptions [body_] (Identifier "unwrap") [a] st in
  let awaited :=
    onUnwrapCall defaultOptions [body_] (Identifier "unwrap")
                 [AwaitExpression a] st in
  reported awaited = reported direct
  /\ recordedNames awaited = recordedNames direct
  /\ length (wrappedScope awaited) = length (wrappedScope direct).
Proof.
  intros scope st a.
  apply (one_await_is_looked_through defaultOptions [body_]
           (Identifier "unwrap") a st).
  intros b. discriminate.
Defined.

(* ===================================================================== *)
(** ** The order of the recorded names *)
(* ===================================================================== *)

(** One unwrap call in an entered scope: the names recorded so far stay in
    place, and the name of the call is appended if it is new. *)
Lemma option_eq_dec_string (o : option string) (x : string) :
  {o = Some x} + {o <> Some x}.
Proof.
  destruct o as [y|]; [|right; discriminate].
  destruct (string_dec y x) as [->|Hne]; [left; reflexivity|].
  right. intros E. inversion E. contradiction.
Qed.

Lemma unwrapCallAt_names (opts : Options) (site : NodeRef * Node)
    (st : State) (scope : WrapScope) (upper : list WrapScope) :
  wrappedScope st = scope :: upper ->
  inFn scope = true ->
  exists scope',
    wrappedScope (unwrapCallAt opts st site) = scope' :: upper
    /\ inFn scope' = true
    /\ JsMap.keys (unwrappedFns scope')
       = JsMap.keys (unwrappedFns scope)
         ++ match siteName site with
            | Some x => if JsMap.has x (unwrappedFns scope) then [] else [x]
            | None => []
            end.
Proof.
  intros Hst Hin. unfold unwrapCallAt, siteName.
  rewrite (onUnwrapCall_entered opts _ _ st scope upper Hst Hin).
  destruct (snd (callExprOf (fst site) (snd site))) as [| |c ? ?| | | | |];
    try (exists scope; simpl; rewrite Hst, app_nil_r; auto).
  destruct c;
    try (exists scope; simpl; rewrite Hst, app_nil_r; auto).
  eexists. simpl. split; [reflexivity|]. split; [exact Hin|].
  cbn [unwrappedFns]. rewrite JsMapFacts.keys_set.
  destruct (JsMap.has name (unwrappedFns scope));
    [rewrite app_nil_r|]; reflexivity.
Qed.

(** X19.  Through any run of unwrap calls in an entered scope, the names
    recorded before stay where they are and new names are added behind
    them, each once: the recorded names are in the order of their first
    unwrap call, which is the order the fix lists them in. *)
Theorem recorded_names_keep_first_unwrap_order
    (opts : Options) (sites : list (NodeRef * Node)) :
  forall (st : State) (scope : WrapScope) (upper : list WrapScope),
    wrappedScope st = scope :: upper ->
    inFn scope = true ->
    exists more,
      recordedNames (fold_left (unwrapCallAt opts) sites st)
      = JsMap.keys (unwrappedFns scope) ++ more
      /\ NoDup more
      /\ forall x,
           In x more
           <-> ~ In x (JsMap.keys (unwrappedFns scope))
               /\ exists site, In site sites /\ siteName site = Some x.
Proof.
  induction sites as [|site sites IH]; intros st scope upper Hst Hin.
  - exists []. simpl. unfold recordedNames. rewrite Hst, app_nil_r.
    split; [reflexivity|]. split; [constructor|].
    intros x. split; [intros [] | intros [_ (s & [] & _)]].
  - destruct (unwrapCallAt_names opts site st scope upper Hst Hin)
      as (scope' & Hst' & Hin' & Hkeys).
    destruct (IH _ scope' upper Hst' Hin') as (more & Hrec & Hnd & Hmore).
    cbn [fold_left]. rewrite Hrec, Hkeys, <- app_assoc.
    set (first := match siteName site with
                  | Some x => if JsMap.has x (unwrappedFns scope) then [] else [x]
                  | None => []
                  end) in *.
    assert (Hfirst : forall x,
              In x first
              <-> ~ In x (JsMap.keys (unwrappedFns scope))
                  /\ siteName site = Some x).
    { intros x. unfold first. destruct (siteName site) as [y|].
      - destruct (JsMap.has y (unwrappedFns scope)) eqn:Hy; simpl.
        + apply JsMapFacts.has_In in Hy. split; [tauto|].
          intros [Hn E]. inversion E; subst. contradiction.
        + apply JsMapFacts.has_false_In in Hy. split.
          * intros [<-|[]]. auto.
          * intros [_ E]. inversion E. auto.
      - simpl. split; [tauto | intros [_ E]; discriminate]. }
    exists (first ++ more). split; [reflexivity|]. split.
    + apply NoDup_app; [|exact Hnd|].
      * unfold first. destruct (siteName site);
          [destruct (JsMap.has _ _)|]; repeat constructor; simpl; tauto.
      * intros x H1 H2. apply Hmore in H2. destruct H2 as [H2 _].
        apply H2. rewrite Hkeys. apply in_or_app. right. exact H1.
    + intros x. rewrite in_app_iff, Hfirst, Hmore, Hkeys, in_app_iff, Hfirst.
      split.
      * intros [[Hn E]|[Hn (s & Hs & E)]].
        -- split; [exact Hn|]. exists site. split; [left; reflexivity | exact E].
        -- split; [tauto|]. exists s. split; [right; exact Hs | exact E].
      * intros [Hn (s & [<-|Hs] & E)]; [left; auto|].
        destruct (option_eq_dec_string (siteName site) x) as [E'|E'].
        -- left. auto.
        -- right. split; [tauto|]. exists s. auto.
Qed.

Lemma recorded_names_keep_first_unwrap_order_witness :
  let scope :=
    mkScope [arguments_ 0] [callee_; callee_] None true
            [("f", [children_ 0; arguments_ 0])] JsMap.empty in
  let st := mkState [scope] [] in
  let call name := CallExpression (Identifier name) None [] in
  let sites :=
    [([children_ 1], call "g"); ([children_ 2], AwaitExpression (call "f"));
     ([children_ 3], Literal "5"); ([children_ 4], call "h");
     ([children_ 5], call "g")] in
  exists more,
    recordedNames (fold_left (unwrapCallAt defaultOptions) sites st)
    = JsMap.keys (unwrappedFns scope) ++ more
    /\ NoDup more
    /\ forall x,
         In x more
         <-> ~ In x (JsMap.keys (unwrappedFns scope))
             /\ exists site, In site sites /\ siteName site = Some x.
Proof.
  intros scope st call sites.
  apply (recorded_names_keep_first_unwrap_order defaultOptions sites st scope []);
    reflexivity.
Defined.
